(** * Induced-polarization simulation: forward fields, predicted data and
      adjoint-state sensitivities

    A shallow embedding of
    [SimPEG/electromagnetics/static/induced_polarization/simulation.py]
    ([BaseIPSimulation], [Problem3D_CC], [Problem3D_N]).

    Conventions.
    - Arrays of floats are idealised as lists of integers with exact
      arithmetic; every identity below is therefore an exact one.
    - NumPy operations that can raise are written out with their shape
      checks and return a [result].
    - The instance ([self]) is a record threaded through a state-and-error
      monad; a raised exception keeps the attributes assigned so far.
    - Mesh, solver, survey items, field object and receivers are
      collaborators that live outside this unit; they are gathered in the
      record [Externals] and constrained only by explicit contracts.
    - Whether the derivatives of operator and right-hand side come back
      deferred (dask [Delayed]) or as arrays is a flag of the
      collaborators: [da.from_delayed] accepts the former only, the
      buffer of the full matrix the latter only.  A deferred value is
      forced by [compute()] before it is used, hence evaluated on the
      spot here.
    - A direction or data vector is an array; positions in [srcList] and
      [rxList] stand for the identity of sources and receivers.
    - Sparse matrices are a shape and an entry function; their products
      check the inner dimensions as [scipy.sparse] does.
    - Embedded are [fields], [dpred], [getJ], [Jvec], [forward], [Jtvec],
      [_Jtvec], [getSourceTerm], [delete_these_for_sensitivity],
      [deleteTheseOnModelUpdate], [MfRhoDerivMat], [MfRhoIDeriv],
      [MeSigmaDerivMat], [MeSigmaDeriv] and the class attributes of the
      two variants. *)

From Stdlib Require Import String ZArith Bool Arith Lia List.
Import ListNotations.

Set Implicit Arguments.

(** ** Errors and results *)

Inductive error : Type :=
| TypeError
| ValueError
| AttributeError
| KeyError
| IndexError
| AssertionError
| RecursionError.

Inductive result (A : Type) : Type :=
| Ok (a : A)
| Err (e : error).

Arguments Ok {A} a.
Arguments Err {A} e.

Definition rbind {A B : Type} (r : result A) (k : A -> result B) : result B :=
  match r with
  | Ok a => k a
  | Err e => Err e
  end.

(** ** NumPy arrays *)

Module Np.

Definition vec := list Z.

Definition zeros (n : nat) : vec := repeat 0%Z n.

Definition neg (a : vec) : vec := map Z.opp a.

Definition scale (s : Z) (a : vec) : vec := map (Z.mul s) a.

Fixpoint zip_add (a b : vec) : vec :=
  match a, b with
  | x :: a', y :: b' => (x + y)%Z :: zip_add a' b'
  | _, _ => []
  end.

(** [a + b] on one-dimensional arrays: equal shapes add pointwise, a
    one-element operand is broadcast, anything else raises. *)
Definition add (a b : vec) : result vec :=
  if length a =? length b then Ok (zip_add a b)
  else match b with
       | [y] => Ok (map (fun x => (x + y)%Z) a)
       | _ => match a with
              | [x] => Ok (map (fun y => (x + y)%Z) b)
              | _ => Err ValueError
              end
       end.

(** [acc += x]: the result must keep the shape of [acc]. *)
Definition iadd (acc x : vec) : result vec :=
  if length acc =? length x then Ok (zip_add acc x)
  else match x with
       | [y] => Ok (map (fun a => (a + y)%Z) acc)
       | _ => Err ValueError
       end.

Fixpoint dot (a b : vec) : Z :=
  match a, b with
  | x :: a', y :: b' => (x * y + dot a' b')%Z
  | _, _ => 0%Z
  end.

(** [np.hstack] refuses an empty sequence of arrays. *)
Definition hstack (l : list vec) : result vec :=
  match l with
  | [] => Err ValueError
  | _ => Ok (concat l)
  end.

(** A Fortran-ordered [(rows, columns)] buffer: the list of its columns. *)
Record buffer : Type := mkBuffer {
  buf_rows : nat;
  buf_cols : list vec
}.

Definition zeros2 (nr nc : nat) : buffer :=
  {| buf_rows := nr; buf_cols := repeat (zeros nr) nc |}.

(** A column assigned into the buffer has the buffer's row count, or is a
    single element that is broadcast. *)
Definition fit_col (nr : nat) (x : vec) : result vec :=
  if length x =? nr then Ok x
  else match x with
       | [y] => Ok (repeat y nr)
       | _ => Err ValueError
       end.

Fixpoint fit_cols (nr : nat) (b : list vec) : result (list vec) :=
  match b with
  | [] => Ok []
  | x :: b' =>
      rbind (fit_col nr x) (fun x' =>
      rbind (fit_cols nr b') (fun b'' => Ok (x' :: b'')))
  end.

(** [buf[:, i] = x] *)
Definition set_col (b : buffer) (i : nat) (x : vec) : result buffer :=
  if i <? length (buf_cols b) then
    rbind (fit_col (buf_rows b) x) (fun x' =>
    Ok {| buf_rows := buf_rows b;
          buf_cols := firstn i (buf_cols b) ++ x' :: skipn (S i) (buf_cols b) |})
  else Err IndexError.

(** [buf[:, i:j] = block], [block] given by its columns. *)
Definition set_block (b : buffer) (i j : nat) (block : list vec) : result buffer :=
  if (j <=? length (buf_cols b)) && (i + length block =? j) then
    rbind (fit_cols (buf_rows b) block) (fun block' =>
    Ok {| buf_rows := buf_rows b;
          buf_cols := firstn i (buf_cols b) ++ block' ++ skipn j (buf_cols b) |})
  else Err ValueError.

(** A two-dimensional array: a buffer and the flag of the transposed view
    ([.T] returns a view, it does not move data). *)
Record ndarray2 : Type := mkArray {
  base : buffer;
  transposed : bool
}.

Definition T (a : ndarray2) : ndarray2 :=
  {| base := base a; transposed := negb (transposed a) |}.

Definition shape (a : ndarray2) : nat * nat :=
  if transposed a then (length (buf_cols (base a)), buf_rows (base a))
  else (buf_rows (base a), length (buf_cols (base a))).

(** Linear combination of columns, [sum_j v_j * col_j]. *)
Fixpoint lincomb (nr : nat) (cols : list vec) (v : vec) : vec :=
  match cols, v with
  | c :: cols', x :: v' => zip_add (scale x c) (lincomb nr cols' v')
  | _, _ => zeros nr
  end.

(** [mkvc(np.dot(a, v))] for a two-dimensional [a] and one-dimensional [v]. *)
Definition dot2 (a : ndarray2) (v : vec) : result vec :=
  if length v =? snd (shape a) then
    if transposed a then Ok (map (fun c => dot c v) (buf_cols (base a)))
    else Ok (lincomb (buf_rows (base a)) (buf_cols (base a)) v)
  else Err ValueError.

End Np.

Import Np.

(** [self.sign * x]; the base class leaves [sign = None]. *)
Definition sign_mul (sg : option Z) (x : vec) : result vec :=
  match sg with
  | Some s => Ok (scale s x)
  | None =>
      match x with
      | [] => Ok []
      | _ :: _ => Err TypeError
      end
  end.

(** ** Survey *)

Record Rx : Type := mkRx {
  rx_id : nat;
  rx_nD : nat;
  projField : string
}.

Record Src : Type := mkSrc {
  src_id : nat;
  rxList : list Rx
}.

Record Survey : Type := mkSurvey {
  srcList : list Src
}.

Definition src_nD (s : Src) : nat :=
  fold_right (fun rx n => rx_nD rx + n) 0 (rxList s).

(** Modelled from the spec: [survey.nD] and [survey.nSrc] are properties of
    the survey class, which is not part of this unit; [nD] is the total
    number of observations across all sources and receivers. *)
Definition survey_nD (s : Survey) : nat :=
  fold_right (fun src n => src_nD src + n) 0 (srcList s).

Definition survey_nSrc (s : Survey) : nat := length (srcList s).

(** Modelled from the spec: the [Data] container is not part of this unit.
    It cuts a data-space vector into the slices that belong to each
    receiver, in source-then-receiver order, and rejects a vector whose
    size is not [survey.nD]. *)
Fixpoint Data_rxs (rxs : list Rx) (v : vec) : list vec * vec :=
  match rxs with
  | [] => ([], v)
  | rx :: rxs' =>
      let (sl, rest) := Data_rxs rxs' (skipn (rx_nD rx) v) in
      (firstn (rx_nD rx) v :: sl, rest)
  end.

Fixpoint Data_srcs (srcs : list Src) (v : vec) : list (list vec) :=
  match srcs with
  | [] => []
  | s :: srcs' =>
      let (sl, rest) := Data_rxs (rxList s) v in
      sl :: Data_srcs srcs' rest
  end.

Definition Data (s : Survey) (v : vec) : result (list (list vec)) :=
  if length v =? survey_nD s then Ok (Data_srcs (srcList s) v)
  else Err AssertionError.

(** [v[src, rx]] *)
Definition Data_getitem (d : list (list vec)) (isrc irx : nat) : result vec :=
  match nth_error d isrc with
  | Some row =>
      match nth_error row irx with
      | Some w => Ok w
      | None => Err KeyError
      end
  | None => Err KeyError
  end.

(** ** Objects held by the instance *)

(** A sparse operator, by its rows; only the solver looks inside. *)
Definition spmatrix := list vec.

Record Factorization : Type := mkFactorization {
  factored : spmatrix;
  cleaned : bool
}.

Definition clean (a : Factorization) : Factorization :=
  {| factored := factored a; cleaned := true |}.

(** [self._f] is [None], a field object holding one solution column per
    source, or the empty list that [getJ] leaves behind. *)
Inductive FieldObj : Type :=
| Fields (u : list vec)
| EmptyList.

(** The attributes of a receiver that [fields] assigns. *)
Record RxAttrs : Type := mkRxAttrs {
  _dc_voltage : option vec;
  rx_data_type : option string;
  _Ps : list (list vec)
}.

Definition rx_pristine : RxAttrs :=
  {| _dc_voltage := None; rx_data_type := None; _Ps := [] |}.

Definition rx_store := list (nat * RxAttrs).

Fixpoint rx_lookup (s : rx_store) (rx : Rx) : RxAttrs :=
  match s with
  | [] => rx_pristine
  | (k, a) :: s' => if k =? rx_id rx then a else rx_lookup s' rx
  end.

Definition rx_update (s : rx_store) (rx : Rx) (a : RxAttrs) : rx_store :=
  (rx_id rx, a) :: s.

(** The two directions of a field-projection derivative [f._<name>Deriv]:
    [deriv src f du v] for [adjoint=False], and [derivT src f p], the pair
    [(df_duT, df_dmT)], for [adjoint=True]. *)
Record FieldDeriv : Type := mkFieldDeriv {
  deriv : Src -> list vec -> vec -> vec -> vec;
  derivT : Src -> list vec -> vec -> vec * vec
}.

(** ** Collaborators *)

Record Externals : Type := mkExternals {
  survey : Survey;
  (** [self.getA()] *)
  getA : spmatrix;
  (** [self.Solver(A, **opts) * rhs] for one right-hand side *)
  Solver : spmatrix -> vec -> vec;
  (** [self.getRHS()], one column per source *)
  getRHS : list vec;
  (** [self.getADeriv(u, v, adjoint)] under the current model *)
  getADeriv : vec -> vec -> vec -> bool -> vec;
  (** [self.getRHSDeriv(src, v, adjoint)] under the current model *)
  getRHSDeriv : vec -> Src -> vec -> bool -> vec;
  (** [getattr(f, name, None)] on a field object *)
  Fields_getattr : string -> option FieldDeriv;
  (** [rx.eval(src, mesh, f)] *)
  rx_eval : Src -> Rx -> RxAttrs -> list vec -> vec;
  (** [rx.evalDeriv(src, mesh, f, v, adjoint)] *)
  rx_evalDeriv : Src -> Rx -> RxAttrs -> list vec -> vec -> bool -> vec;
  (** row [k] of [rx.getP(mesh, rx.projGLoc(f)).toarray()], [k < rx.nD] *)
  rx_getP : Rx -> RxAttrs -> nat -> vec;
  (** whether [getADeriv], respectively [getRHSDeriv], is a dask-delayed
      function, whose calls hand back a [Delayed] object around the value,
      or an ordinary one that hands back the array itself *)
  getADeriv_delayed : bool;
  getRHSDeriv_delayed : bool
}.

(** [da.from_delayed(value, shape, dtype)] reads the key and the graph of
    [value]: given a plain array it raises [AttributeError]; the dask
    array it builds from a [Delayed] yields the value once computed. *)
Definition from_delayed (delayed : bool) (value : vec) : result vec :=
  if delayed then Ok value else Err AttributeError.

(** The value written into a float buffer as it came back from the call:
    a [Delayed] object is not an array, and the assignment raises
    [ValueError]. *)
Definition written_raw {A : Type} (delayed : bool) (value : A) : result A :=
  if delayed then Err ValueError else Ok value.

(** ** The instance *)

Inductive event : Type :=
| Stdout (s : string)
| Progress (i n : nat)
| CallGetA
| CallSolver
| CallGetRHS
| CallClean
| CallForward.

Record Simulation : Type := mkSimulation {
  verbose : bool;
  storeJ : bool;
  sign : option Z;
  data_type : string;
  model : option vec;
  Ainv : option Factorization;
  _f : option FieldObj;
  _Jmatrix : option ndarray2;
  _pred : option vec;
  receivers : rx_store;
  (** what the instance did so far, oldest first: console output and the
      calls into the solver and assembly collaborators *)
  trace : list event
}.

Definition with_model (x : option vec) (s : Simulation) : Simulation :=
  mkSimulation (verbose s) (storeJ s) (sign s) (data_type s) x (Ainv s)
    (_f s) (_Jmatrix s) (_pred s) (receivers s) (trace s).

Definition with_Ainv (x : option Factorization) (s : Simulation) : Simulation :=
  mkSimulation (verbose s) (storeJ s) (sign s) (data_type s) (model s) x
    (_f s) (_Jmatrix s) (_pred s) (receivers s) (trace s).

Definition with_f (x : option FieldObj) (s : Simulation) : Simulation :=
  mkSimulation (verbose s) (storeJ s) (sign s) (data_type s) (model s) (Ainv s)
    x (_Jmatrix s) (_pred s) (receivers s) (trace s).

Definition with_Jmatrix (x : option ndarray2) (s : Simulation) : Simulation :=
  mkSimulation (verbose s) (storeJ s) (sign s) (data_type s) (model s) (Ainv s)
    (_f s) x (_pred s) (receivers s) (trace s).

Definition with_pred (x : option vec) (s : Simulation) : Simulation :=
  mkSimulation (verbose s) (storeJ s) (sign s) (data_type s) (model s) (Ainv s)
    (_f s) (_Jmatrix s) x (receivers s) (trace s).

Definition with_receivers (x : rx_store) (s : Simulation) : Simulation :=
  mkSimulation (verbose s) (storeJ s) (sign s) (data_type s) (model s) (Ainv s)
    (_f s) (_Jmatrix s) (_pred s) x (trace s).

Definition with_trace (x : list event) (s : Simulation) : Simulation :=
  mkSimulation (verbose s) (storeJ s) (sign s) (data_type s) (model s) (Ainv s)
    (_f s) (_Jmatrix s) (_pred s) (receivers s) x.

(** Class attributes of [BaseIPSimulation] and of its two variants. *)
Definition BaseIPSimulation_init (verbose0 storeJ0 : bool) (data_type0 : string)
  : Simulation :=
  {| verbose := verbose0; storeJ := storeJ0; sign := None;
     data_type := data_type0; model := None; Ainv := None; _f := None;
     _Jmatrix := None; _pred := None; receivers := []; trace := [] |}.

Definition Problem3D_CC_init (verbose0 storeJ0 : bool) (data_type0 : string)
  : Simulation :=
  {| verbose := verbose0; storeJ := storeJ0; sign := Some 1%Z;
     data_type := data_type0; model := None; Ainv := None; _f := None;
     _Jmatrix := None; _pred := None; receivers := []; trace := [] |}.

Definition Problem3D_N_init (verbose0 storeJ0 : bool) (data_type0 : string)
  : Simulation :=
  {| verbose := verbose0; storeJ := storeJ0; sign := Some (-1)%Z;
     data_type := data_type0; model := None; Ainv := None; _f := None;
     _Jmatrix := None; _pred := None; receivers := []; trace := [] |}.

(** ** State-and-error monad *)

Definition M (A : Type) : Type := Simulation -> result A * Simulation.

Definition ret {A : Type} (a : A) : M A := fun s => (Ok a, s).

Definition bind {A B : Type} (c : M A) (k : A -> M B) : M B :=
  fun s =>
    match c s with
    | (Ok a, s') => k a s'
    | (Err e, s') => (Err e, s')
    end.

Definition raise {A : Type} (e : error) : M A := fun s => (Err e, s).

Definition gets {A : Type} (p : Simulation -> A) : M A := fun s => (Ok (p s), s).

Definition modify (g : Simulation -> Simulation) : M unit := fun s => (Ok tt, g s).

Definition lift {A : Type} (r : result A) : M A := fun s => (r, s).

Definition emit (evs : list event) : M unit :=
  modify (fun s => with_trace (trace s ++ evs) s).

Declare Scope sim_scope.
Delimit Scope sim_scope with sim.
Notation "x <- c ;; k" := (bind c (fun x => k))
  (at level 61, c at next level, right associativity) : sim_scope.
Notation "c ;;; k" := (bind c (fun _ => k))
  (at level 61, right associativity) : sim_scope.
Local Open Scope sim_scope.

(** ** Model update *)

Inductive attr : Type :=
| attr_Ainv
| attr_f
| attr_Jmatrix
| attr_pred.

(** [del self.<attr>]: the class attribute shows through again. *)
Definition delattr (a : attr) (s : Simulation) : Simulation :=
  match a with
  | attr_Ainv => with_Ainv None s
  | attr_f => with_f None s
  | attr_Jmatrix => with_Jmatrix None s
  | attr_pred => with_pred None s
  end.

(** [deleteTheseOnModelUpdate] *)
Definition deleteTheseOnModelUpdate : list attr :=
  let toDelete := [] in
  toDelete.

(** Modelled from the spec: the setter behind [self.model = m] belongs to
    the properties machinery of the base class, which is not part of this
    unit; it stores the model and removes the cached attributes named by
    [deleteTheseOnModelUpdate]. *)
Definition set_model (m : vec) : M unit :=
  modify (fun s =>
    fold_left (fun s' a => delattr a s') deleteTheseOnModelUpdate
      (with_model (Some m) s)).

(** ** The simulation *)

Section BaseIPSimulation.

Variable E : Externals.

(** [self.Ainv * x] for one column, and for a block of columns. *)
Definition Ainv_mul (a : option Factorization) (x : vec) : result vec :=
  match a with
  | Some fa => Ok (Solver E (factored fa) x)
  | None =>
      match x with
      | [] => Ok []
      | _ :: _ => Err TypeError
      end
  end.

Definition Ainv_mul_cols (a : option Factorization) (xs : list vec)
  : result (list vec) :=
  match a with
  | Some fa => Ok (map (Solver E (factored fa)) xs)
  | None =>
      if forallb (fun x => match x with [] => true | _ => false end) xs
      then Ok xs
      else Err TypeError
  end.

(** [f[src, self._solutionType]], for the source at position [isrc]; the
    columns of the field object come back with the source's own column. *)
Definition getitem (f : option FieldObj) (isrc : nat) : result (list vec * vec) :=
  match f with
  | Some (Fields cols) =>
      match nth_error cols isrc with
      | Some u_src => Ok (cols, u_src)
      | None => Err KeyError
      end
  | Some EmptyList => Err TypeError
  | None => Err TypeError
  end.

(** ['_{0!s}Deriv'.format(rx.projField)] *)
Definition Deriv_name (rx : Rx) : string :=
  ("_" ++ projField rx ++ "Deriv")%string.

(** *** [Jvec], the loops of the adjoint-state branch

    The loops assign no attribute of the instance; they are functions of
    the attributes they read. *)

Fixpoint Jvec_rxs (rxs : rx_store) (cols : list vec) (src : Src)
    (du_dm_v v : vec) (l : list Rx) : result (list vec) :=
  match l with
  | [] => Ok []
  | rx :: l' =>
      match Fields_getattr E (Deriv_name rx) with
      | None => Err TypeError
      | Some df_dmFun =>
          let df_dm_v := deriv df_dmFun src cols du_dm_v v in
          let d := rx_evalDeriv E src rx (rx_lookup rxs rx) cols df_dm_v false in
          rbind (Jvec_rxs rxs cols src du_dm_v v l') (fun Jv => Ok (d :: Jv))
      end
  end.

Fixpoint Jvec_srcs (a : option Factorization) (mdl : option vec)
    (rxs : rx_store) (f : option FieldObj) (v : vec) (isrc : nat)
    (l : list Src) : result (list vec) :=
  match l with
  | [] => Ok []
  | src :: l' =>
      rbind (getitem f isrc) (fun '(cols, u_src) =>
      match mdl with
      | None => Err AttributeError
      | Some m =>
          rbind (from_delayed (getADeriv_delayed E)
                   (getADeriv E m u_src v false)) (fun dA_dm_v =>
          rbind (from_delayed (getRHSDeriv_delayed E)
                   (getRHSDeriv E m src v false)) (fun dRHS_dm_v =>
          rbind (add (neg dA_dm_v) dRHS_dm_v) (fun rhs =>
          rbind (Ainv_mul a rhs) (fun du_dm_v =>
          rbind (Jvec_rxs rxs cols src du_dm_v v (rxList src)) (fun Jv1 =>
          rbind (Jvec_srcs a mdl rxs f v (S isrc) l') (fun Jv2 =>
          Ok (Jv1 ++ Jv2)))))))
      end)
  end.

(** *** [_Jtvec]

    With a direction the loop accumulates a model-space vector; without
    one it fills the [(nC, nD)] buffer and keeps the running offset
    [istrt]. *)

Definition Jt_acc {A : Type} (v : option A) : Type :=
  match v with
  | Some _ => vec
  | None => (buffer * nat)%type
  end.

Definition JtvecResult (v : option vec) : Type :=
  match v with
  | Some _ => vec
  | None => ndarray2
  end.

Definition Jtvec_rx (a : option Factorization) (mdl : option vec)
    (rxs : rx_store) (cols : list vec) (v : option (list (list vec)))
    (isrc : nat) (src : Src) (u_src : vec) (irx : nat) (rx : Rx)
  : Jt_acc v -> result (Jt_acc v) :=
  match v return Jt_acc v -> result (Jt_acc v) with
  | Some d => fun Jtv =>
      rbind (Data_getitem d isrc irx) (fun w =>
      let PTv := rx_evalDeriv E src rx (rx_lookup rxs rx) cols w true in
      match Fields_getattr E (Deriv_name rx) with
      | None => Err TypeError
      | Some df_duTFun =>
          let (df_duT, df_dmT) := derivT df_duTFun src cols PTv in
          rbind (Ainv_mul a df_duT) (fun ATinvdf_duT =>
          match mdl with
          | None => Err AttributeError
          | Some m =>
              rbind (from_delayed (getADeriv_delayed E)
                       (getADeriv E m u_src ATinvdf_duT true)) (fun dA_dmT =>
              rbind (from_delayed (getRHSDeriv_delayed E)
                       (getRHSDeriv E m src ATinvdf_duT true))
                (fun dRHS_dmT =>
              rbind (add (neg dA_dmT) dRHS_dmT) (fun du_dmT =>
              rbind (add df_dmT du_dmT) (fun s =>
              iadd Jtv s))))
          end)
      end)
  | None => fun acc =>
      let (Jtv, istrt) := acc in
      let attrs := rx_lookup rxs rx in
      let iend := istrt + rx_nD rx in
      if rx_nD rx =? 1 then
        rbind (Ainv_mul a (rx_getP E rx attrs 0)) (fun ATinvdf_duT =>
        match mdl with
        | None => Err AttributeError
        | Some m =>
            let dA_dmT := getADeriv E m u_src ATinvdf_duT true in
            rbind (written_raw (getADeriv_delayed E) (neg dA_dmT)) (fun x =>
            rbind (set_col Jtv istrt x) (fun Jtv' =>
            Ok (Jtv', istrt + rx_nD rx)))
        end)
      else
        rbind (Ainv_mul_cols a (map (rx_getP E rx attrs) (seq 0 (rx_nD rx))))
          (fun ATinvdf_duT =>
        match mdl with
        | None => Err AttributeError
        | Some m =>
            let dA_dmT := map (fun c => getADeriv E m u_src c true) ATinvdf_duT in
            rbind (written_raw (getADeriv_delayed E) (map neg dA_dmT))
              (fun x =>
            rbind (set_block Jtv istrt iend x) (fun Jtv' =>
            Ok (Jtv', istrt + rx_nD rx)))
        end)
  end.

Fixpoint Jtvec_rxs (a : option Factorization) (mdl : option vec)
    (rxs : rx_store) (cols : list vec) (v : option (list (list vec)))
    (isrc : nat) (src : Src) (u_src : vec) (irx : nat) (l : list Rx)
    (acc : Jt_acc v) : result (Jt_acc v) :=
  match l with
  | [] => Ok acc
  | rx :: l' =>
      rbind (Jtvec_rx a mdl rxs cols v isrc src u_src irx rx acc) (fun acc' =>
      Jtvec_rxs a mdl rxs cols v isrc src u_src (S irx) l' acc')
  end.

(** The loop over sources also returns what it wrote to the console. *)
Fixpoint Jtvec_srcs (a : option Factorization) (mdl : option vec)
    (rxs : rx_store) (sj : bool) (f : option FieldObj)
    (v : option (list (list vec))) (isrc : nat) (l : list Src)
    (acc : Jt_acc v) : list event * result (Jt_acc v) :=
  match l with
  | [] => ([], Ok acc)
  | src :: l' =>
      match getitem f isrc with
      | Err e => ([], Err e)
      | Ok (cols, u_src) =>
          let out :=
            if sj then [Progress (isrc + 1) (survey_nSrc (survey E))] else [] in
          match Jtvec_rxs a mdl rxs cols v isrc src u_src 0 (rxList src) acc with
          | Err e => (out, Err e)
          | Ok acc' =>
              let (out', r) := Jtvec_srcs a mdl rxs sj f v (S isrc) l' acc' in
              (out ++ out', r)
          end
      end
  end.

Definition _Jtvec (m : vec) (v : option vec) (f : option FieldObj)
  : M (JtvecResult v) :=
  match v return M (JtvecResult v) with
  | Some v0 =>
      d <- lift (Data (survey E) v0) ;;
      a <- gets Ainv ;;
      mdl <- gets model ;;
      rxs <- gets receivers ;;
      sj <- gets storeJ ;;
      let (out, r) :=
        Jtvec_srcs a mdl rxs sj f (Some d) 0 (srcList (survey E))
          (zeros (length m)) in
      emit out ;;;
      Jtv <- lift r ;;
      sg <- gets sign ;;
      lift (sign_mul sg Jtv)
  | None =>
      mdl <- gets model ;;
      match mdl with
      | None => raise AttributeError
      | Some m' =>
          a <- gets Ainv ;;
          rxs <- gets receivers ;;
          sj <- gets storeJ ;;
          let (out, r) :=
            Jtvec_srcs a mdl rxs sj f None 0 (srcList (survey E))
              (zeros2 (length m') (survey_nD (survey E)), 0) in
          emit out ;;;
          acc <- lift r ;;
          ret {| base := fst acc; transposed := false |}
      end
  end.

(** *** [fields]: receivers of the apparent-chargeability data type *)

Definition prime_rx (dt : string) (cols : list vec) (src : Src)
    (rxs : rx_store) (rx : Rx) : rx_store :=
  rx_update rxs rx
    {| _dc_voltage := Some (rx_eval E src rx (rx_lookup rxs rx) cols);
       rx_data_type := Some dt;
       _Ps := [] |}.

Definition prime_src (dt : string) (cols : list vec) (rxs : rx_store)
    (src : Src) : rx_store :=
  fold_left (prime_rx dt cols src) (rxList src) rxs.

Definition prime_receivers (dt : string) (cols : list vec) (rxs : rx_store)
  : rx_store :=
  fold_left (prime_src dt cols) (srcList (survey E)) rxs.

Definition verbose_print (msg : string) : M unit :=
  vb <- gets verbose ;;
  if vb then emit [Stdout msg] else ret tt.

(** *** [fields], [getJ], [Jvec], [forward]

    The four methods call one another; [n] bounds the depth of the calls
    and running out of it is the interpreter's [RecursionError]. *)

Fixpoint fields_ (n : nat) (m : vec) {struct n} : M (option FieldObj) :=
  match n with
  | 0 => raise RecursionError
  | S n' =>
      verbose_print ">> Compute fields" ;;;
      f0 <- gets _f ;;
      match f0 with
      | None =>
          modify (with_f (Some (Fields []))) ;;;
          a0 <- gets Ainv ;;
          match a0 with
          | None =>
              emit [CallGetA; CallSolver] ;;;
              modify (with_Ainv
                        (Some {| factored := getA E; cleaned := false |}))
          | Some _ => ret tt
          end ;;;
          emit [CallGetRHS] ;;;
          a <- gets Ainv ;;
          u <- lift (Ainv_mul_cols a (getRHS E)) ;;
          modify (with_f (Some (Fields u))) ;;;
          dt <- gets data_type ;;
          if String.eqb dt "apparent_chargeability" then
            verbose_print ">> Data type is apparaent chargeability" ;;;
            modify (fun s =>
              with_receivers (prime_receivers dt u (receivers s)) s)
          else ret tt
      | Some _ => ret tt
      end ;;;
      f1 <- gets _f ;;
      p <- forward_ n' m f1 ;;
      modify (with_pred (Some p)) ;;;
      gets _f
  end

with getJ_ (n : nat) (m : vec) (f : option FieldObj) {struct n} : M ndarray2 :=
  match n with
  | 0 => raise RecursionError
  | S n' =>
      set_model m ;;;
      verbose_print "Calculating J and storing" ;;;
      J0 <- gets _Jmatrix ;;
      match J0 with
      | Some J => ret J
      | None =>
          f' <- match f with
                | None => fields_ n' m
                | Some _ => ret f
                end ;;
          Jt <- _Jtvec m None f' ;;
          modify (with_Jmatrix (Some (T Jt))) ;;;
          modify (with_f (Some EmptyList)) ;;;
          a <- gets Ainv ;;
          match a with
          | Some fa => emit [CallClean] ;;; modify (with_Ainv (Some (clean fa)))
          | None => ret tt
          end ;;;
          ret (T Jt)
      end
  end

with Jvec_ (n : nat) (m v : vec) (f : option FieldObj) {struct n} : M vec :=
  match n with
  | 0 => raise RecursionError
  | S n' =>
      set_model m ;;;
      sj <- gets storeJ ;;
      if sj then
        J <- getJ_ n' m f ;;
        Jv <- lift (dot2 J v) ;;
        sg <- gets sign ;;
        lift (sign_mul sg Jv)
      else
        f' <- match f with
              | None => fields_ n' m
              | Some _ => ret f
              end ;;
        a <- gets Ainv ;;
        mdl <- gets model ;;
        rxs <- gets receivers ;;
        Jv <- lift (Jvec_srcs a mdl rxs f' v 0 (srcList (survey E))) ;;
        h <- lift (hstack Jv) ;;
        sg <- gets sign ;;
        lift (sign_mul sg h)
  end

with forward_ (n : nat) (m : vec) (f : option FieldObj) {struct n} : M vec :=
  match n with
  | 0 => raise RecursionError
  | S n' => emit [CallForward] ;;; Jvec_ n' m m f
  end.

(** Depth available to a call from outside; the longest chain,
    [Jvec -> getJ -> fields -> forward -> Jvec -> getJ], needs six. *)
Definition depth : nat := 8.

Definition fields (m : vec) : M (option FieldObj) := fields_ depth m.
Definition getJ (m : vec) (f : option FieldObj) : M ndarray2 := getJ_ depth m f.
Definition Jvec (m v : vec) (f : option FieldObj) : M vec := Jvec_ depth m v f.
Definition forward (m : vec) (f : option FieldObj) : M vec := forward_ depth m f.

(** [dpred]; callers pass the model, the default [m=None] is left out. *)
Definition dpred (m : vec) (f : option FieldObj) : M (option vec) :=
  match f with
  | None => fields m ;;; gets _pred
  | Some _ => gets _pred
  end.

Definition Jtvec (m v : vec) (f : option FieldObj) : M vec :=
  sj <- gets storeJ ;;
  if sj then
    J <- getJ m f ;;
    Jtv <- lift (dot2 (T J) v) ;;
    sg <- gets sign ;;
    lift (sign_mul sg Jtv)
  else
    set_model m ;;;
    f' <- match f with
          | None => fields m
          | Some _ => ret f
          end ;;
    _Jtvec m (Some v) f'.

End BaseIPSimulation.

(** ** Contracts of the collaborators

    [nC] is the size of the model, [nU] the number of unknowns of the
    system, [nP rx] the size of the field that receiver [rx] projects. *)

Definition in_survey (E : Externals) (src : Src) (rx : Rx) : Prop :=
  In src (srcList (survey E)) /\ In rx (rxList src).

(** Shapes, and every [adjoint=True] path being the transpose of its
    [adjoint=False] path; the factorised operator is symmetric, which is
    why the code solves with [Ainv] in both directions.  The derivatives
    come back deferred, as [Jvec] and the branch of [_Jtvec] for a data
    vector take them. *)
Record Contracts (E : Externals) (nC nU : nat) (nP : Rx -> nat) : Prop := {
  rhs_cols : length (getRHS E) = survey_nSrc (survey E);
  solve_len : forall x, length x = nU ->
    length (Solver E (getA E) x) = nU;
  solve_sym : forall x y, length x = nU -> length y = nU ->
    dot (Solver E (getA E) x) y = dot x (Solver E (getA E) y);
  dA_len : forall m u v, length m = nC -> length v = nC ->
    length (getADeriv E m u v false) = nU;
  dAT_len : forall m u y, length m = nC -> length y = nU ->
    length (getADeriv E m u y true) = nC;
  dA_adj : forall m u v y, length m = nC -> length v = nC -> length y = nU ->
    dot y (getADeriv E m u v false) = dot (getADeriv E m u y true) v;
  dRHS_len : forall m src v, length m = nC -> length v = nC ->
    length (getRHSDeriv E m src v false) = nU;
  dRHST_len : forall m src y, length m = nC -> length y = nU ->
    length (getRHSDeriv E m src y true) = nC;
  dRHS_adj : forall m src v y,
    length m = nC -> length v = nC -> length y = nU ->
    dot y (getRHSDeriv E m src v false) = dot (getRHSDeriv E m src y true) v;
  deriv_known : forall src rx, in_survey E src rx ->
    exists fd, Fields_getattr E (Deriv_name rx) = Some fd /\
      (forall s cols du v, length du = nU -> length v = nC ->
         length (deriv fd s cols du v) = nP rx) /\
      (forall s cols p, length p = nP rx ->
         length (fst (derivT fd s cols p)) = nU /\
         length (snd (derivT fd s cols p)) = nC) /\
      (forall s cols du v p,
         length du = nU -> length v = nC -> length p = nP rx ->
         dot p (deriv fd s cols du v) =
         (dot (fst (derivT fd s cols p)) du +
          dot (snd (derivT fd s cols p)) v)%Z);
  eval_len : forall src rx attrs cols x, in_survey E src rx ->
    length x = nP rx ->
    length (rx_evalDeriv E src rx attrs cols x false) = rx_nD rx;
  evalT_len : forall src rx attrs cols w, in_survey E src rx ->
    length w = rx_nD rx ->
    length (rx_evalDeriv E src rx attrs cols w true) = nP rx;
  eval_adj : forall src rx attrs cols x w, in_survey E src rx ->
    length x = nP rx -> length w = rx_nD rx ->
    dot w (rx_evalDeriv E src rx attrs cols x false) =
    dot (rx_evalDeriv E src rx attrs cols w true) x;
  dA_delayed : getADeriv_delayed E = true;
  dRHS_delayed : getRHSDeriv_delayed E = true
}.

(** What the assembly of the full matrix needs of the collaborators: the
    sizes, and a [getADeriv] that hands back arrays (the assembly stores
    them as they come). *)
Record AssemblyContracts (E : Externals) (nC nU : nat) : Prop := {
  asm_rhs_cols : length (getRHS E) = survey_nSrc (survey E);
  asm_solve_len : forall x, length x = nU ->
    length (Solver E (getA E) x) = nU;
  asm_dAT_len : forall m u y, length m = nC -> length y = nU ->
    length (getADeriv E m u y true) = nC;
  asm_getP_len : forall src rx attrs k, in_survey E src rx -> k < rx_nD rx ->
    length (rx_getP E rx attrs k) = nU;
  asm_plain : getADeriv_delayed E = false
}.

(** What is particular to induced polarisation: the right-hand side does
    not depend on the chargeability, and a receiver's derivative of the
    projected field is its projection matrix applied to the perturbation
    of the solution. *)
Record IPContracts (E : Externals) (nC nU : nat) : Prop := {
  rhs_indep : forall m src v, length m = nC -> length v = nC ->
    getRHSDeriv E m src v false = zeros nU;
  getP_len : forall src rx attrs k, in_survey E src rx -> k < rx_nD rx ->
    length (rx_getP E rx attrs k) = nU;
  eval_is_P : forall src rx attrs cols du v fd, in_survey E src rx ->
    Fields_getattr E (Deriv_name rx) = Some fd ->
    length du = nU -> length v = nC ->
    rx_evalDeriv E src rx attrs cols (deriv fd src cols du v) false =
    map (fun k => dot (rx_getP E rx attrs k) du) (seq 0 (rx_nD rx))
}.

(** The survey lists at least one receiver. *)
Definition has_receiver (s : Survey) : Prop :=
  concat (map rxList (srcList s)) <> [].

(** An instance on which the adjoint-state branch can run: nothing cached
    yet, or a field object with one column per source together with the
    live factorisation of [getA()]. *)
Definition factorized (E : Externals) : option Factorization :=
  Some {| factored := getA E; cleaned := false |}.

Definition live (E : Externals) (a : option Factorization) : Prop :=
  a = factorized E.

Definition ready (E : Externals) (s : Simulation) : Prop :=
  match _f s with
  | None => Ainv s = None \/ live E (Ainv s)
  | Some (Fields cols) =>
      length cols = survey_nSrc (survey E) /\ live E (Ainv s)
  | Some EmptyList => False
  end.

(** An array of shape [(nD, nC)] held, as [getJ] leaves it, as the
    transposed view of an [(nC, nD)] buffer. *)
Definition stored_J (J : ndarray2) (nD nC : nat) : Prop :=
  transposed J = true /\ buf_rows (base J) = nC /\
  length (buf_cols (base J)) = nD /\
  Forall (fun c => length c = nC) (buf_cols (base J)).

Definition with_sign (x : option Z) (s : Simulation) : Simulation :=
  mkSimulation (verbose s) (storeJ s) x (data_type s) (model s) (Ainv s)
    (_f s) (_Jmatrix s) (_pred s) (receivers s) (trace s).

(** Counting entries of the trace. *)
Definition is_forward (e : event) : bool :=
  match e with CallForward => true | _ => false end.

Definition is_factorize (e : event) : bool :=
  match e with CallGetA | CallSolver => true | _ => false end.

Definition is_linear_algebra (e : event) : bool :=
  match e with
  | CallGetA | CallSolver | CallGetRHS | CallForward => true
  | _ => false
  end.

Definition count (p : event -> bool) (l : list event) : nat :=
  length (filter p l).

(** ** A small survey with concrete collaborators

    One source, a one-observation and a two-observation receiver, two
    cells and two unknowns.  [Toy.env true] has a right-hand side that
    depends on the model, [Toy.env false] one that does not. *)

Module Toy.

Definition rx0 : Rx := {| rx_id := 0; rx_nD := 1; projField := "phi" |}.
Definition rx1 : Rx := {| rx_id := 1; rx_nD := 2; projField := "phi" |}.
Definition src0 : Src := {| src_id := 0; rxList := [rx0; rx1] |}.
Definition toy_survey : Survey := {| srcList := [src0] |}.

Definition P_of (rx : Rx) : list vec :=
  if rx_id rx =? 0 then [[1; 0]]%Z else [[0; 1]; [1; 1]]%Z.

Definition matvec (rows : list vec) (x : vec) : vec :=
  map (fun r => dot r x) rows.

Fixpoint pmul (a b : vec) : vec :=
  match a, b with
  | x :: a', y :: b' => (x * y)%Z :: pmul a' b'
  | _, _ => []
  end.

Definition pad2 (u : vec) : vec := [nth 0 u 0%Z; nth 1 u 0%Z].

Definition phiDeriv : FieldDeriv :=
  {| deriv := fun _ _ du _ => du;
     derivT := fun _ _ p => (p, zeros 2) |}.

Definition env (rhs_dep : bool) : Externals :=
  {| survey := toy_survey;
     getA := [[2; 1]; [1; 1]]%Z;
     Solver := fun _ x => matvec [[1; -1]; [-1; 2]]%Z x;
     getRHS := [[1; 0]]%Z;
     getADeriv := fun m u v _ => pmul (pad2 u) (pmul m v);
     getRHSDeriv := fun _ _ v _ => if rhs_dep then v else zeros 2;
     Fields_getattr := fun name =>
       if String.eqb name "_phiDeriv" then Some phiDeriv else None;
     rx_eval := fun src rx _ cols =>
       matvec (P_of rx) (nth (src_id src) cols []);
     rx_evalDeriv := fun _ rx _ _ x adj =>
       if adj then lincomb 2 (P_of rx) x else matvec (P_of rx) x;
     rx_getP := fun rx _ k => nth k (P_of rx) [];
     getADeriv_delayed := true;
     getRHSDeriv_delayed := true |}.

(** The same collaborators, with derivatives that hand back arrays. *)
Definition plain (rhs_dep : bool) : Externals :=
  {| survey := survey (env rhs_dep);
     getA := getA (env rhs_dep);
     Solver := Solver (env rhs_dep);
     getRHS := getRHS (env rhs_dep);
     getADeriv := getADeriv (env rhs_dep);
     getRHSDeriv := getRHSDeriv (env rhs_dep);
     Fields_getattr := Fields_getattr (env rhs_dep);
     rx_eval := rx_eval (env rhs_dep);
     rx_evalDeriv := rx_evalDeriv (env rhs_dep);
     rx_getP := rx_getP (env rhs_dep);
     getADeriv_delayed := false;
     getRHSDeriv_delayed := false |}.

Definition m0 : vec := [3; 5]%Z.
Definition m1 : vec := [1; 1]%Z.

End Toy.

(** ** Assembly of the full matrix *)

(** The columns that [_Jtvec] writes for one receiver, for one source and
    for a list of sources paired with their solution columns. *)
Definition J_block (E : Externals) (m : vec) (rxs : rx_store) (u_src : vec)
    (rx : Rx) : list vec :=
  map (fun k =>
         neg (getADeriv E m u_src
                (Solver E (getA E) (rx_getP E rx (rx_lookup rxs rx) k)) true))
      (seq 0 (rx_nD rx)).

Definition J_src (E : Externals) (m : vec) (rxs : rx_store) (u_src : vec)
    (l : list Rx) : list vec :=
  concat (map (J_block E m rxs u_src) l).

Fixpoint Jt_columns (E : Externals) (m : vec) (rxs : rx_store)
    (l : list Src) (us : list vec) : list vec :=
  match l, us with
  | src :: l', u :: us' =>
      J_src E m rxs u (rxList src) ++ Jt_columns E m rxs l' us'
  | _, _ => []
  end.

(** An instance of the nodal variant that holds a stored matrix, as
    explicit-storage mode leaves it. *)
Definition stored_instance : Simulation :=
  with_Jmatrix
    (Some {| base := {| buf_rows := 2;
                        buf_cols := [[-3; -5]; [3; 10]; [0; 5]]%Z |};
             transposed := true |})
    (Problem3D_N_init false true "volt").

(** ** Derived notions used to state the facts *)

(** Observation counts of lists of receivers and of sources. *)
Definition rxs_nD (l : list Rx) : nat :=
  fold_right (fun rx n => rx_nD rx + n) 0 l.

Definition srcs_nD (l : list Src) : nat :=
  fold_right (fun src n => src_nD src + n) 0 l.

Definition fits (rx : Rx) (w : vec) : Prop := length w = rx_nD rx.

(** Appending to the trace; what a run returns and where it leaves the
    instance. *)
Definition log (evs : list event) (s : Simulation) : Simulation :=
  with_trace (trace s ++ evs) s.

Definition vlog (msg : string) (s : Simulation) : Simulation :=
  if verbose s then log [Stdout msg] s else s.

Definition run_result {A : Type} (r : result A * Simulation) : result A := fst r.
Definition run_state {A : Type} (r : result A * Simulation) : Simulation := snd r.

(** The state in which the solve branch of [fields] leaves the instance. *)
Definition after_solve (E : Externals) (s : Simulation) : Simulation :=
  let s1 := with_f (Some (Fields [])) s in
  let s2 := match Ainv s1 with
            | None =>
                with_Ainv (factorized E) (log [CallGetA; CallSolver] s1)
            | Some _ => s1
            end in
  let s3 := log [CallGetRHS] s2 in
  let u := match Ainv s3 with
           | Some fa => map (Solver E (factored fa)) (getRHS E)
           | None => []
           end in
  let s4 := with_f (Some (Fields u)) s3 in
  if String.eqb (data_type s4) "apparent_chargeability" then
    let s5 := vlog ">> Data type is apparaent chargeability" s4 in
    with_receivers (prime_receivers E (data_type s4) u (receivers s5)) s5
  else s4.

(** The state in which [getJ] leaves the instance after assembling. *)
Definition after_getJ (Jt : ndarray2) (s : Simulation) : Simulation :=
  let s1 := with_f (Some EmptyList) (with_Jmatrix (Some (T Jt)) s) in
  match Ainv s1 with
  | Some fa => with_Ainv (Some (clean fa)) (log [CallClean] s1)
  | None => s1
  end.

(** The instance at the point where [fields] calls [forward]. *)
Definition before_forward (E : Externals) (s : Simulation) : Simulation :=
  let s1 := vlog ">> Compute fields" s in
  match _f s1 with
  | None => after_solve E s1
  | Some _ => s1
  end.

(** The right-hand side of the linearised system and its solution. *)
Definition lin_rhs (E : Externals) (m v : vec) (src : Src) (u_src : vec)
  : vec :=
  zip_add (neg (getADeriv E m u_src v false))
    (getRHSDeriv E m src v false).

Definition du_dm (E : Externals) (m v : vec) (src : Src) (u_src : vec)
  : vec :=
  Solver E (getA E) (lin_rhs E m v src u_src).

(** A counter that console output and the release of the factorisation do
    not move. *)
Definition silent (p : event -> bool) : Prop :=
  (forall msg, p (Stdout msg) = false) /\
  (forall i n, p (Progress i n) = false) /\
  p CallClean = false.

Definition is_progress (e : event) : Prop := exists i n, e = Progress i n.

(** A result that is not the exhaustion of the call depth. *)
Definition finishes {A : Type} (r : result A) : Prop := r <> Err RecursionError.

(** What no method but the priming of [fields] assigns. *)
Definition kept (s s' : Simulation) : Prop :=
  verbose s' = verbose s /\ storeJ s' = storeJ s /\ sign s' = sign s /\
  data_type s' = data_type s /\ receivers s' = receivers s.

(** The linear combination [a * x + b * y] of two arrays. *)
Definition lin2 (a : Z) (x : vec) (b : Z) (y : vec) : vec :=
  zip_add (scale a x) (scale b y).

(** A receiver that [fields] has prepared for apparent chargeability: its
    data type is set, its projection cache is empty and it carries a DC
    voltage. *)
Definition primed (dt : string) (a : RxAttrs) : Prop :=
  rx_data_type a = Some dt /\ _Ps a = [] /\ _dc_voltage a <> None.

(** ** Sparse matrices

    A [scipy.sparse] matrix: its shape and its entries.  Products check
    the inner dimensions and raise [ValueError] on a mismatch. *)

Module Sp.

Record matrix : Type := mkMatrix {
  n_rows : nat;
  n_cols : nat;
  entry : nat -> nat -> Z
}.

(** [A.T] *)
Definition T (A : matrix) : matrix :=
  {| n_rows := n_cols A; n_cols := n_rows A;
     entry := fun i j => entry A j i |}.

(** [-A] *)
Definition neg (A : matrix) : matrix :=
  {| n_rows := n_rows A; n_cols := n_cols A;
     entry := fun i j => (- entry A i j)%Z |}.

(** [sum_j f(j) * v[j]] over the positions of [v]. *)
Fixpoint fdot (f : nat -> Z) (v : vec) : Z :=
  match v with
  | [] => 0%Z
  | x :: v' => (f 0%nat * x + fdot (fun j => f (S j)) v')%Z
  end.

(** [sum_{j < n} f(j)] *)
Fixpoint fsum (f : nat -> Z) (n : nat) : Z :=
  match n with
  | 0 => 0%Z
  | S n' => (fsum f n' + f n')%Z
  end.

(** [A * v] for a one-dimensional [v]. *)
Definition matvec (A : matrix) (v : vec) : result vec :=
  if length v =? n_cols A
  then Ok (map (fun i => fdot (entry A i) v) (seq 0 (n_rows A)))
  else Err ValueError.

(** [A * B] *)
Definition matmul (A B : matrix) : result matrix :=
  if n_cols A =? n_rows B
  then Ok {| n_rows := n_rows A; n_cols := n_cols B;
             entry := fun i k =>
               fsum (fun j => (entry A i j * entry B j k)%Z) (n_cols A) |}
  else Err ValueError.

(** [A ** 2], the matrix power: a matrix that is not square is refused
    with [TypeError]. *)
Definition pow2 (A : matrix) : result matrix :=
  if n_rows A =? n_cols A then matmul A A else Err TypeError.

(** [sdiag(v)], the diagonal matrix of a vector. *)
Definition sdiag (v : vec) : matrix :=
  {| n_rows := length v; n_cols := length v;
     entry := fun i j => if i =? j then nth i v 0%Z else 0%Z |}.

End Sp.

(** [np.ones(n)] *)
Definition ones (n : nat) : vec := repeat 1%Z n.

(** ** The source term *)

Record Mesh : Type := mkMesh {
  mesh_nC : nat;
  mesh_nN : nat;
  mesh_nF : nat;
  mesh_nE : nat
}.

(** What a call ends in when a local name can be unbound: Python raises
    [UnboundLocalError], which is none of the errors above. *)
Inductive outcome (A : Type) : Type :=
| Returned (a : A)
| Raised (e : error)
| RaisedUnboundLocalError.

Arguments Returned {A} a.
Arguments Raised {A} e.
Arguments RaisedUnboundLocalError {A}.

Definition Problem3D_CC_formulation : string := "HJ".
Definition Problem3D_N_formulation : string := "EB".

(** The loop [for i, src in enumerate(Srcs): q[:, i] = src.eval(self)]. *)
Fixpoint getSourceTerm_fill (src_eval : Src -> vec) (q : buffer) (i : nat)
    (Srcs : list Src) : result buffer :=
  match Srcs with
  | [] => Ok q
  | src :: rest =>
      rbind (set_col q i (src_eval src)) (fun q' =>
      getSourceTerm_fill src_eval q' (S i) rest)
  end.

(** [getSourceTerm]: [_formulation] is the class attribute of the variant,
    [src_eval src] stands for [src.eval(self)]. *)
Definition getSourceTerm (_formulation : string) (mesh : Mesh)
    (Srcs : list Src) (src_eval : Src -> vec) : outcome buffer :=
  let n := if String.eqb _formulation "EB" then Some (mesh_nN mesh)
           else if String.eqb _formulation "HJ" then Some (mesh_nC mesh)
           else None in
  match n with
  | None => RaisedUnboundLocalError
  | Some n =>
      match getSourceTerm_fill src_eval (zeros2 n (length Srcs)) 0 Srcs with
      | Ok q => Returned q
      | Err e => Raised e
      end
  end.

(** ** Attributes released for a new sensitivity *)

(** The instance attributes behind the mass-matrix properties of the base
    class; [None] is an attribute the instance does not have. *)
Record MassCache : Type := mkMassCache {
  _MfRhoI : option Sp.matrix;
  _MeSigma : option Sp.matrix
}.

(** [del self._Jmatrix, self._MfRhoI, self._MeSigma]: the targets are
    deleted from left to right, and deleting an attribute the instance
    does not have raises [AttributeError].  [_Jmatrix] is an instance
    attribute exactly when [getJ] has assigned it; once deleted, the class
    attribute [None] shows through again. *)
Definition delete_these_for_sensitivity (st : Simulation * MassCache)
  : result unit * (Simulation * MassCache) :=
  let (s, c) := st in
  match _Jmatrix s with
  | None => (Err AttributeError, (s, c))
  | Some _ =>
      let s1 := delattr attr_Jmatrix s in
      match _MfRhoI c with
      | None => (Err AttributeError, (s1, c))
      | Some _ =>
          let c1 := {| _MfRhoI := None; _MeSigma := _MeSigma c |} in
          match _MeSigma c1 with
          | None => (Err AttributeError, (s1, c1))
          | Some _ =>
              (Ok tt, (s1, {| _MfRhoI := None; _MeSigma := None |}))
          end
      end
  end.

(** ** The derivative-operator cache *)

(** What the derivative operators read from the rest of the instance: the
    mesh and its inner-product derivatives, the physical properties, the
    derivative of the chargeability map, the inverse face mass matrix and
    the storage flag. *)
Record PDE : Type := mkPDE {
  mesh : Mesh;
  rho : vec;
  sigma : vec;
  etaDeriv : Sp.matrix;
  MfRhoI : Sp.matrix;
  getFaceInnerProductDeriv : vec -> vec -> Sp.matrix;
  getEdgeInnerProductDeriv : vec -> vec -> Sp.matrix;
  storeInnerProduct : bool
}.

(** The two memoised attributes; [None] is an attribute that is missing
    or [None]. *)
Record DerivCache : Type := mkDerivCache {
  _MfRhoDerivMat : option Sp.matrix;
  _MeSigmaDerivMat : option Sp.matrix
}.

Definition empty_cache : DerivCache :=
  {| _MfRhoDerivMat := None; _MeSigmaDerivMat := None |}.

Section DerivativeOperators.

Variable P : PDE.

(** [MfRhoDerivMat] *)
Definition MfRhoDerivMat (c : DerivCache) : result Sp.matrix * DerivCache :=
  match _MfRhoDerivMat c with
  | Some M => (Ok M, c)
  | None =>
      match Sp.matmul (Sp.sdiag (rho P)) (etaDeriv P) with
      | Err e => (Err e, c)
      | Ok drho_dlogrho =>
          match Sp.matmul
                  (getFaceInnerProductDeriv P (ones (mesh_nC (mesh P)))
                     (ones (mesh_nF (mesh P))))
                  drho_dlogrho with
          | Err e => (Err e, c)
          | Ok M =>
              (Ok M, {| _MfRhoDerivMat := Some M;
                        _MeSigmaDerivMat := _MeSigmaDerivMat c |})
          end
      end
  end.

(** [MfRhoIDeriv(u, v, adjoint)] *)
Definition MfRhoIDeriv (u v : vec) (adjoint : bool) (c : DerivCache)
  : result vec * DerivCache :=
  match Sp.pow2 (MfRhoI P) with
  | Err e => (Err e, c)
  | Ok sq =>
      let dMfRhoI_dI := Sp.neg sq in
      if storeInnerProduct P then
        match MfRhoDerivMat c with
        | (Err e, c') => (Err e, c')
        | (Ok M, c') =>
            if adjoint then
              (rbind (Sp.matvec (Sp.T dMfRhoI_dI) v) (fun x =>
               rbind (Sp.matvec (Sp.sdiag u) x) (fun y =>
               Sp.matvec (Sp.T M) y)), c')
            else
              (rbind (Sp.matvec M v) (fun x =>
               rbind (Sp.matvec (Sp.sdiag u) x) (fun y =>
               Sp.matvec dMfRhoI_dI y)), c')
        end
      else
        let dMf_drho := getFaceInnerProductDeriv P (rho P) u in
        match Sp.matmul (Sp.sdiag (rho P)) (etaDeriv P) with
        | Err e => (Err e, c)
        | Ok drho_dlogrho =>
            if adjoint then
              (rbind (Sp.matvec (Sp.T dMfRhoI_dI) v) (fun x =>
               rbind (Sp.matvec (Sp.T dMf_drho) x) (fun y =>
               Sp.matvec (Sp.T drho_dlogrho) y)), c)
            else
              (rbind (Sp.matvec drho_dlogrho v) (fun x =>
               rbind (Sp.matvec dMf_drho x) (fun y =>
               Sp.matvec dMfRhoI_dI y)), c)
        end
  end.

(** [MeSigmaDerivMat] *)
Definition MeSigmaDerivMat (c : DerivCache) : result Sp.matrix * DerivCache :=
  match _MeSigmaDerivMat c with
  | Some M => (Ok M, c)
  | None =>
      match Sp.matmul (Sp.sdiag (sigma P)) (etaDeriv P) with
      | Err e => (Err e, c)
      | Ok dsigma_dlogsigma =>
          match Sp.matmul
                  (getEdgeInnerProductDeriv P (ones (mesh_nC (mesh P)))
                     (ones (mesh_nE (mesh P))))
                  dsigma_dlogsigma with
          | Err e => (Err e, c)
          | Ok M =>
              (Ok M, {| _MfRhoDerivMat := _MfRhoDerivMat c;
                        _MeSigmaDerivMat := Some M |})
          end
      end
  end.

(** [MeSigmaDeriv(u, v, adjoint)] *)
Definition MeSigmaDeriv (u v : vec) (adjoint : bool) (c : DerivCache)
  : result vec * DerivCache :=
  if storeInnerProduct P then
    match MeSigmaDerivMat c with
    | (Err e, c') => (Err e, c')
    | (Ok M, c') =>
        if adjoint then
          (rbind (Sp.matvec (Sp.sdiag u) v) (fun x =>
           Sp.matvec (Sp.T M) x), c')
        else
          (rbind (Sp.matvec M v) (fun x =>
           Sp.matvec (Sp.sdiag u) x), c')
    end
  else
    match Sp.matmul (Sp.sdiag (sigma P)) (etaDeriv P) with
    | Err e => (Err e, c)
    | Ok dsigma_dlogsigma =>
        if adjoint then
          (rbind (Sp.matvec
                    (Sp.T (getEdgeInnerProductDeriv P (sigma P) u)) v)
             (fun x => Sp.matvec (Sp.T dsigma_dlogsigma) x), c)
        else
          (rbind (Sp.matvec dsigma_dlogsigma v) (fun x =>
           Sp.matvec (getEdgeInnerProductDeriv P (sigma P) u) x), c)
    end.

End DerivativeOperators.

(** A small instance of the collaborators of the derivative operators:
    two cells, two edges, two faces; the inner-product derivatives scale
    the rows of a fixed matrix by [u]. *)
Module ToyPDE.

Definition G0 (i j : nat) : Z :=
  nth j (nth i [[1; 2]; [0; 3]]%Z []) 0%Z.

Definition innerDeriv (prop u : vec) : Sp.matrix :=
  {| Sp.n_rows := 2; Sp.n_cols := 2;
     Sp.entry := fun i j => (nth i u 0 * G0 i j)%Z |}.

Definition pde (store : bool) (s : vec) : PDE :=
  {| mesh := {| mesh_nC := 2; mesh_nN := 3; mesh_nF := 2; mesh_nE := 2 |};
     rho := s;
     sigma := s;
     etaDeriv := Sp.sdiag [1; 2]%Z;
     MfRhoI := Sp.sdiag [2; 3]%Z;
     getFaceInnerProductDeriv := innerDeriv;
     getEdgeInnerProductDeriv := innerDeriv;
     storeInnerProduct := store |}.

End ToyPDE.

(** The inner-product derivative [Gu] taken at [u] is the one taken at a
    vector of ones, [G1], with row [i] scaled by [u[i]]: the inner
    product is diagonal in the property and linear in [u]. *)
Definition row_scaled (u : vec) (G1 Gu : Sp.matrix) : Prop :=
  Sp.n_rows G1 = length u /\
  Sp.n_rows Gu = Sp.n_rows G1 /\
  Sp.n_cols Gu = Sp.n_cols G1 /\
  forall i j, i < Sp.n_rows G1 -> j < Sp.n_cols G1 ->
    Sp.entry Gu i j = (nth i u 0 * Sp.entry G1 i j)%Z.

(** The instance with the storage flag set to [b]. *)
Definition with_storeInnerProduct (b : bool) (P : PDE) : PDE :=
  {| mesh := mesh P; rho := rho P; sigma := sigma P;
     etaDeriv := etaDeriv P; MfRhoI := MfRhoI P;
     getFaceInnerProductDeriv := getFaceInnerProductDeriv P;
     getEdgeInnerProductDeriv := getEdgeInnerProductDeriv P;
     storeInnerProduct := b |}.

(** The toy collaborators with a survey whose only source has no
    receiver. *)
Definition bare_env : Externals :=
  {| survey := {| srcList := [{| src_id := 0; rxList := [] |}] |};
     getA := getA (Toy.env false);
     Solver := Solver (Toy.env false);
     getRHS := getRHS (Toy.env false);
     getADeriv := getADeriv (Toy.env false);
     getRHSDeriv := getRHSDeriv (Toy.env false);
     Fields_getattr := Fields_getattr (Toy.env false);
     rx_eval := rx_eval (Toy.env false);
     rx_evalDeriv := rx_evalDeriv (Toy.env false);
     rx_getP := rx_getP (Toy.env false);
     getADeriv_delayed := true;
     getRHSDeriv_delayed := true |}.

(** The collaborators of [E] with derivatives that hand back arrays
    instead of [Delayed] objects: the same values, not deferred. *)
Definition eager (E : Externals) : Externals :=
  {| survey := survey E;
     getA := getA E;
     Solver := Solver E;
     getRHS := getRHS E;
     getADeriv := getADeriv E;
     getRHSDeriv := getRHSDeriv E;
     Fields_getattr := Fields_getattr E;
     rx_eval := rx_eval E;
     rx_evalDeriv := rx_evalDeriv E;
     rx_getP := rx_getP E;
     getADeriv_delayed := false;
     getRHSDeriv_delayed := false |}.

(** The nodal instance at the point where [fields] hands the field object
    it has just computed to [forward]: the system is factorised and the
    fields are in place. *)
Definition primed_instance (storeJ : bool) : Simulation :=
  before_forward (Toy.plain true) (Problem3D_N_init false storeJ "volt").

(** * Facts *)

(** ** Arrays *)

Section ArrayFacts.

Local Open Scope Z_scope.

Lemma length_zeros (n : nat) : length (zeros n) = n.
Proof. apply repeat_length. Qed.

Lemma length_neg (a : vec) : length (neg a) = length a.
Proof. apply length_map. Qed.

Lemma length_scale (s : Z) (a : vec) : length (scale s a) = length a.
Proof. apply length_map. Qed.

Lemma length_zip_add (a b : vec) :
  length a = length b -> length (zip_add a b) = length a.
Proof.
  revert b; induction a as [|x a IH]; intros [|y b] H; simpl in *;
    try discriminate; auto.
Qed.

Lemma dot_comm (a b : vec) : dot a b = dot b a.
Proof.
  revert b; induction a as [|x a IH]; intros [|y b]; simpl; auto.
  rewrite IH; lia.
Qed.

Lemma dot_nil_r (a : vec) : dot a [] = 0.
Proof. destruct a; reflexivity. Qed.

Lemma dot_neg_l (a b : vec) : dot (neg a) b = - dot a b.
Proof.
  revert b; induction a as [|x a IH]; intros [|y b]; simpl; auto.
  rewrite IH; lia.
Qed.

Lemma dot_scale_l (s : Z) (a b : vec) : dot (scale s a) b = s * dot a b.
Proof.
  revert b; induction a as [|x a IH]; intros [|y b]; simpl; try lia.
  rewrite IH; lia.
Qed.

Lemma dot_scale_r (s : Z) (a b : vec) : dot a (scale s b) = s * dot a b.
Proof. rewrite dot_comm, dot_scale_l, dot_comm; reflexivity. Qed.

Lemma dot_zeros_l (n : nat) (b : vec) : dot (zeros n) b = 0.
Proof.
  revert b; induction n as [|n IH]; intros [|y b]; simpl; auto;
    unfold zeros in IH; rewrite IH; lia.
Qed.

Lemma dot_zip_add_l (a b c : vec) :
  length a = length b -> dot (zip_add a b) c = dot a c + dot b c.
Proof.
  revert b c; induction a as [|x a IH]; intros [|y b] [|z c] H; simpl in *;
    try discriminate; auto.
  rewrite IH by lia; lia.
Qed.

Lemma dot_app (a b c d : vec) :
  length a = length c -> dot (a ++ b) (c ++ d) = dot a c + dot b d.
Proof.
  revert c; induction a as [|x a IH]; intros [|z c] H; simpl in *;
    try discriminate; auto.
  rewrite IH by lia; lia.
Qed.

Lemma zip_add_zeros_r (a : vec) (n : nat) :
  length a = n -> zip_add a (zeros n) = a.
Proof.
  revert n; induction a as [|x a IH]; intros [|n] H; simpl in *;
    try discriminate; auto.
  unfold zeros in IH; rewrite IH by lia; f_equal; lia.
Qed.

Lemma add_same (a b : vec) :
  length a = length b -> add a b = Ok (zip_add a b).
Proof. intros H; unfold add; rewrite H, Nat.eqb_refl; reflexivity. Qed.

Lemma iadd_same (a b : vec) :
  length a = length b -> iadd a b = Ok (zip_add a b).
Proof. intros H; unfold iadd; rewrite H, Nat.eqb_refl; reflexivity. Qed.

Lemma scale_1 (a : vec) : scale 1 a = a.
Proof.
  unfold scale; rewrite <- (map_id a) at 2.
  apply map_ext; intros; lia.
Qed.

Lemma length_lincomb (nr : nat) (cols : list vec) (w : vec) :
  Forall (fun c => length c = nr) cols ->
  length (lincomb nr cols w) = nr.
Proof.
  intros H; revert w; induction H as [|c cols Hc _ IH]; intros [|x w]; simpl;
    try apply length_zeros.
  rewrite length_zip_add.
  - rewrite length_scale; auto.
  - rewrite length_scale, IH; auto.
Qed.

(** The two views of a stored matrix are adjoint to one another. *)
Lemma dot_lincomb (nr : nat) (cols : list vec) (w v : vec) :
  Forall (fun c => length c = nr) cols ->
  dot (lincomb nr cols w) v = dot w (map (fun c => dot c v) cols).
Proof.
  intros H; revert w; induction H as [|c cols Hc Hcols IH]; intros [|x w];
    simpl; try apply dot_zeros_l.
  rewrite dot_zip_add_l, dot_scale_l, IH; auto.
  rewrite length_scale, length_lincomb; auto.
Qed.

End ArrayFacts.

(** ** The [Data] container *)

Lemma Data_rxs_spec (l : list Rx) :
  forall v, rxs_nD l <= length v ->
    Forall2 fits l (fst (Data_rxs l v)) /\
    concat (fst (Data_rxs l v)) ++ snd (Data_rxs l v) = v /\
    length (snd (Data_rxs l v)) = length v - rxs_nD l.
Proof.
  induction l as [|rx l IH]; intros v Hv; simpl in *.
  - repeat split; auto. lia.
  - destruct (IH (skipn (rx_nD rx) v)) as (H1 & H2 & H3).
    { rewrite length_skipn; lia. }
    destruct (Data_rxs l (skipn (rx_nD rx) v)) as [sl rest]; simpl in *.
    repeat split.
    + constructor; auto. unfold fits; rewrite length_firstn; lia.
    + rewrite <- app_assoc, H2. apply firstn_skipn.
    + rewrite H3, length_skipn; lia.
Qed.

Lemma Data_srcs_spec (l : list Src) :
  forall v, length v = srcs_nD l ->
    Forall2 (fun src row => Forall2 fits (rxList src) row) l (Data_srcs l v) /\
    concat (map (@concat Z) (Data_srcs l v)) = v.
Proof.
  induction l as [|s l IH]; intros v Hv; simpl in *.
  - split; auto. destruct v; auto; discriminate.
  - destruct (Data_rxs_spec (rxList s) v) as (H1 & H2 & H3).
    { unfold src_nD in Hv; unfold rxs_nD; lia. }
    destruct (Data_rxs (rxList s) v) as [sl rest]; simpl in *.
    destruct (IH rest) as (H4 & H5).
    { rewrite H3, Hv; unfold src_nD, rxs_nD; lia. }
    split.
    + constructor; auto.
    + rewrite H5; auto.
Qed.

Lemma skipn_cons_nth {A : Type} (l : list A) (i : nat) (x : A) (r : list A) :
  skipn i l = x :: r -> nth_error l i = Some x /\ skipn (S i) l = r.
Proof.
  revert i; induction l as [|y l IH]; intros [|i] H; simpl in *;
    try discriminate.
  - inversion H; auto.
  - apply IH in H. destruct H as [H1 H2]; split; auto.
Qed.

Lemma concat_length_Forall2 (A B : list vec) :
  Forall2 (fun b w => length b = length w) A B ->
  length (concat A) = length (concat B).
Proof.
  induction 1; simpl; auto. rewrite !length_app; congruence.
Qed.

(** ** The adjoint-state loops *)

Section AdjointLoops.

Variable E : Externals.
Variables nC nU : nat.
Variable nP : Rx -> nat.
Hypothesis HC : Contracts E nC nU nP.

Variable rxs : rx_store.
Variable cols : list vec.
Variables m v : vec.
Hypothesis Hm : length m = nC.
Hypothesis Hv : length v = nC.

Local Open Scope Z_scope.

Lemma length_lin_rhs (src : Src) (u_src : vec) :
  length (lin_rhs E m v src u_src) = nU.
Proof.
  unfold lin_rhs. rewrite length_zip_add; rewrite length_neg.
  - apply (dA_len HC); auto.
  - rewrite (dA_len HC), (dRHS_len HC); auto.
Qed.

Lemma length_du_dm (src : Src) (u_src : vec) :
  length (du_dm E m v src u_src) = nU.
Proof. apply (solve_len HC), length_lin_rhs. Qed.

Lemma rx_loop_adjoint (src : Src) (u_src : vec) (isrc : nat)
    (d : list (list vec)) (row : list vec) :
  In src (srcList (survey E)) ->
  nth_error d isrc = Some row ->
  forall (l : list Rx) (irx : nat) (ws : list vec) (acc : vec),
    (forall rx, In rx l -> In rx (rxList src)) ->
    skipn irx row = ws ->
    Forall2 fits l ws ->
    length acc = nC ->
    exists Jv acc',
      Jvec_rxs E rxs cols src (du_dm E m v src u_src) v l = Ok Jv /\
      Jtvec_rxs E (factorized E) (Some m) rxs cols (Some d) isrc src u_src
        irx l acc = Ok acc' /\
      length acc' = nC /\
      length Jv = length l /\
      Forall2 (fun b w => length b = length w) Jv ws /\
      dot acc' v = dot acc v + dot (concat ws) (concat Jv).
Proof.
  intros Hsrc Hrow l.
  induction l as [|rx l IH]; intros irx ws acc Hin Hws HF Hacc.
  - inversion HF; subst. exists [], acc. simpl.
    repeat split; auto. lia.
  - inversion HF as [|rx' w l' ws' Hw HF' E1 E2]; subst rx' l'.
    rewrite <- E2 in Hws.
    destruct (skipn_cons_nth _ _ Hws) as [Hnth Hskip].
    assert (Hrx : in_survey E src rx) by (split; auto; apply Hin; left; auto).
    destruct (deriv_known HC Hrx) as (fd & Hfd & Hd1 & Hd2 & Hd3).
    pose (PTv := rx_evalDeriv E src rx (rx_lookup rxs rx) cols w true).
    assert (HPTv : length PTv = nP rx) by (apply (evalT_len HC); auto).
    destruct (Hd2 src cols PTv HPTv) as [Hlu Hlm].
    pose (z := Solver E (getA E) (fst (derivT fd src cols PTv))).
    assert (Hz : length z = nU) by (apply (solve_len HC); auto).
    pose (s := zip_add (snd (derivT fd src cols PTv))
                 (zip_add (neg (getADeriv E m u_src z true))
                          (getRHSDeriv E m src z true))).
    assert (Hinner : length (zip_add (neg (getADeriv E m u_src z true))
                          (getRHSDeriv E m src z true)) = nC).
    { rewrite length_zip_add; rewrite length_neg.
      - apply (dAT_len HC); auto.
      - rewrite (dAT_len HC), (dRHST_len HC); auto. }
    assert (Hs : length s = nC).
    { unfold s. rewrite length_zip_add; auto. congruence. }
    destruct (IH (S irx) ws' (zip_add acc s)) as
      (Jv & acc' & HJv & HJt & Hl & HlJ & HF2 & Hdot); auto.
    { intros; apply Hin; right; auto. }
    { rewrite length_zip_add; congruence. }
    exists (rx_evalDeriv E src rx (rx_lookup rxs rx) cols
              (deriv fd src cols (du_dm E m v src u_src) v) false :: Jv), acc'.
    assert (Hblock : length (rx_evalDeriv E src rx (rx_lookup rxs rx) cols
              (deriv fd src cols (du_dm E m v src u_src) v) false) = length w).
    { rewrite (eval_len HC); auto. apply Hd1; auto. apply length_du_dm. }
    repeat split; auto.
    + simpl. rewrite Hfd, HJv. reflexivity.
    + simpl Jtvec_rxs. unfold Jtvec_rx, Data_getitem.
      rewrite Hrow, Hnth. simpl rbind. rewrite Hfd.
      fold PTv. destruct (derivT fd src cols PTv) as [df_duT df_dmT] eqn:EdT.
      simpl in Hlu, Hlm, z, s. simpl rbind. fold z.
      rewrite (dA_delayed HC), (dRHS_delayed HC). cbn [from_delayed rbind].
      rewrite add_same.
      2:{ rewrite length_neg, (dAT_len HC), (dRHST_len HC); auto. }
      simpl rbind. rewrite add_same by congruence.
      simpl rbind. fold s. rewrite iadd_same by congruence.
      simpl rbind. exact HJt.
    + simpl; congruence.
    + simpl. rewrite dot_app by auto. rewrite Hdot.
      rewrite dot_zip_add_l by congruence.
      assert (dot s v = dot w (rx_evalDeriv E src rx (rx_lookup rxs rx) cols
                (deriv fd src cols (du_dm E m v src u_src) v) false)); [|lia].
      rewrite (eval_adj HC); auto.
      2:{ apply Hd1; auto. apply length_du_dm. }
      fold PTv. rewrite Hd3; auto. 2: apply length_du_dm.
      unfold s. rewrite dot_zip_add_l by congruence.
      rewrite dot_zip_add_l.
      2:{ rewrite length_neg, (dAT_len HC), (dRHST_len HC); auto. }
      rewrite dot_neg_l.
      rewrite <- (dA_adj HC), <- (dRHS_adj HC); auto.
      unfold du_dm.
      rewrite (dot_comm (fst (derivT fd src cols PTv))).
      rewrite (solve_sym HC); auto. 2: apply length_lin_rhs.
      fold z. unfold lin_rhs at 1.
      rewrite dot_zip_add_l.
      2:{ rewrite length_neg, (dA_len HC), (dRHS_len HC); auto. }
      rewrite dot_neg_l.
      rewrite (dot_comm z (getADeriv E m u_src v false)).
      rewrite (dot_comm z (getRHSDeriv E m src v false)).
      lia.
Qed.

Lemma src_loop_adjoint (sj : bool) (d : list (list vec)) :
  forall (l : list Src) (isrc : nat) (rows : list (list vec)) (acc : vec),
    (forall s, In s l -> In s (srcList (survey E))) ->
    skipn isrc d = rows ->
    Forall2 (fun src row => Forall2 fits (rxList src) row) l rows ->
    (isrc + length l <= length cols)%nat ->
    length acc = nC ->
    exists Jv out acc',
      Jvec_srcs E (factorized E) (Some m) rxs (Some (Fields cols)) v isrc l
        = Ok Jv /\
      Jtvec_srcs E (factorized E) (Some m) rxs sj (Some (Fields cols))
        (Some d) isrc l acc = (out, Ok acc') /\
      length acc' = nC /\
      length Jv = length (concat (map rxList l)) /\
      length (concat Jv) = length (concat (map (@concat Z) rows)) /\
      dot acc' v = dot acc v + dot (concat (map (@concat Z) rows)) (concat Jv).
Proof.
  induction l as [|src l IH]; intros isrc rows acc Hin Hrows HF Hlen Hacc.
  - inversion HF; subst. exists [], [], acc. simpl.
    repeat split; auto. lia.
  - inversion HF as [|src' row l' rows' Hrow HF' E1 E2]; subst src' l'.
    rewrite <- E2 in Hrows.
    destruct (skipn_cons_nth _ _ Hrows) as [Hnth Hskip].
    simpl in Hlen.
    destruct (nth_error cols isrc) as [u_src|] eqn:Hu.
    2:{ apply nth_error_None in Hu. lia. }
    assert (Hsrc : In src (srcList (survey E))) by (apply Hin; left; auto).
    destruct (@rx_loop_adjoint src u_src isrc d row Hsrc Hnth (rxList src)
                0%nat row acc)
      as (Jv1 & acc1 & HJv1 & HJt1 & Hl1 & HlJ1 & HF1 & Hdot1); auto.
    destruct (IH (S isrc) rows' acc1)
      as (Jv2 & out2 & acc2 & HJv2 & HJt2 & Hl2 & HlJ2 & Hc2 & Hdot2); auto.
    { intros; apply Hin; right; auto. }
    { lia. }
    exists (Jv1 ++ Jv2),
      ((if sj then [Progress (isrc + 1) (survey_nSrc (survey E))] else [])
         ++ out2), acc2.
    assert (Hc1 : length (concat Jv1) = length (concat row))
      by (apply concat_length_Forall2; auto).
    repeat split; auto.
    + simpl. rewrite Hu. simpl rbind.
      rewrite (dA_delayed HC), (dRHS_delayed HC). cbn [from_delayed rbind].
      rewrite add_same.
      2:{ rewrite length_neg, (dA_len HC), (dRHS_len HC); auto. }
      simpl rbind. fold (lin_rhs E m v src u_src). fold (du_dm E m v src u_src).
      rewrite HJv1. simpl rbind. rewrite HJv2. reflexivity.
    + simpl. rewrite Hu. rewrite HJt1, HJt2. reflexivity.
    + rewrite length_app, HlJ1, HlJ2. simpl.
      rewrite length_app. reflexivity.
    + simpl. rewrite concat_app, !length_app. congruence.
    + simpl. rewrite concat_app. rewrite dot_app by auto.
      rewrite Hdot2, Hdot1. lia.
Qed.

End AdjointLoops.

(** ** Running the methods *)

Section Runs.

Variable E : Externals.

Lemma verbose_print_run (msg : string) (s : Simulation) :
  verbose_print msg s = (Ok tt, vlog msg s).
Proof.
  unfold verbose_print, vlog, bind, gets. destruct (verbose s); reflexivity.
Qed.

Lemma set_model_run (m : vec) (s : Simulation) :
  set_model m s = (Ok tt, with_model (Some m) s).
Proof. reflexivity. Qed.

(** [_Jtvec] with a direction. *)
Lemma Jtvec_dir_run (m w : vec) (f : option FieldObj) (s : Simulation) :
  _Jtvec E m (Some w) f s =
  match Data (survey E) w with
  | Err e => (Err e, s)
  | Ok d =>
      let (out, r) :=
        Jtvec_srcs E (Ainv s) (model s) (receivers s) (storeJ s) f (Some d) 0
          (srcList (survey E)) (zeros (length m)) in
      (rbind r (sign_mul (sign s)), log out s)
  end.
Proof.
  unfold _Jtvec, bind, lift, gets.
  destruct (Data (survey E) w) as [d|e]; auto.
  destruct (Jtvec_srcs _ _ _ _ _ _ _ _ _ _) as [out [acc|e]]; reflexivity.
Qed.

(** [_Jtvec] assembling the full matrix. *)
Lemma Jtvec_full_run (m : vec) (f : option FieldObj) (s : Simulation) :
  _Jtvec E m None f s =
  match model s with
  | None => (Err AttributeError, s)
  | Some m' =>
      let (out, r) :=
        Jtvec_srcs E (Ainv s) (model s) (receivers s) (storeJ s) f None 0
          (srcList (survey E))
          (zeros2 (length m') (survey_nD (survey E)), 0) in
      (rbind r (fun acc => Ok {| base := fst acc; transposed := false |}),
       log out s)
  end.
Proof.
  unfold _Jtvec, bind, lift, gets, raise.
  destruct (model s) as [m'|] eqn:Hm; auto.
  rewrite <- Hm.
  destruct (Jtvec_srcs _ _ _ _ _ _ _ _ _ _) as [out [acc|e]]; reflexivity.
Qed.

(** [Jvec] in the adjoint-state branch with a field object at hand. *)
Lemma Jvec_adjoint_run (n : nat) (m v : vec) (fo : FieldObj) (s : Simulation) :
  storeJ s = false ->
  Jvec_ E (S n) m v (Some fo) s =
  (rbind (Jvec_srcs E (Ainv s) (Some m) (receivers s) (Some fo) v 0
            (srcList (survey E)))
     (fun Jv => rbind (hstack Jv) (sign_mul (sign s))),
   with_model (Some m) s).
Proof.
  intros Hs. simpl. unfold bind at 1. rewrite set_model_run.
  unfold bind, gets, lift, ret. simpl. rewrite Hs.
  destruct (Jvec_srcs _ _ _ _ _ _ _ _) as [Jv|e]; simpl; auto.
  destruct (hstack Jv); simpl; auto.
Qed.

(** [getJ] and [Jvec] when the matrix is already stored. *)
Lemma getJ_cached_run (n : nat) (m : vec) (f : option FieldObj)
    (J : ndarray2) (s : Simulation) :
  _Jmatrix s = Some J ->
  getJ_ E (S n) m f s =
  (Ok J, vlog "Calculating J and storing" (with_model (Some m) s)).
Proof.
  intros HJ. simpl. unfold bind at 1. rewrite set_model_run.
  unfold bind at 1. rewrite verbose_print_run.
  unfold bind, gets, ret.
  replace (_Jmatrix (vlog _ (with_model (Some m) s))) with (Some J);
    auto.
  unfold vlog; simpl. destruct (verbose s); simpl; auto.
Qed.

Lemma Jvec_stored_run (n : nat) (m v : vec) (f : option FieldObj)
    (J : ndarray2) (s : Simulation) :
  storeJ s = true -> _Jmatrix s = Some J ->
  Jvec_ E (S (S n)) m v f s =
  (rbind (dot2 J v) (sign_mul (sign s)),
   vlog "Calculating J and storing" (with_model (Some m) s)).
Proof.
  intros Hs HJ.
  change (Jvec_ E (S (S n)) m v f s) with
    ((set_model m ;;;
      sj <- gets storeJ ;;
      if sj then
        J <- getJ_ E (S n) m f ;;
        Jv <- lift (dot2 J v) ;;
        sg <- gets sign ;;
        lift (sign_mul sg Jv)
      else
        f' <- match f with
              | None => fields_ E (S n) m
              | Some _ => ret f
              end ;;
        a <- gets Ainv ;;
        mdl <- gets model ;;
        rxs <- gets receivers ;;
        Jv <- lift (Jvec_srcs E a mdl rxs f' v 0 (srcList (survey E))) ;;
        h <- lift (hstack Jv) ;;
        sg <- gets sign ;;
        lift (sign_mul sg h)) s).
  unfold bind at 1. rewrite set_model_run.
  unfold bind at 1, gets at 1. cbn [storeJ with_model]. rewrite Hs.
  unfold bind at 1.
  rewrite (getJ_cached_run n m f (J := J)) by exact HJ.
  unfold bind, lift, gets.
  destruct (dot2 J v); simpl; auto.
  - unfold vlog; simpl. destruct (verbose s); reflexivity.
Qed.

Lemma forward_run (n : nat) (m : vec) (f : option FieldObj) (s : Simulation) :
  forward_ E (S n) m f s = Jvec_ E n m m f (log [CallForward] s).
Proof. reflexivity. Qed.

Lemma fields_run (n : nat) (m : vec) (s : Simulation) :
  fields_ E (S n) m s =
  let s1 := vlog ">> Compute fields" s in
  let s2 := match _f s1 with
            | None => after_solve E s1
            | Some _ => s1
            end in
  match forward_ E n m (_f s2) s2 with
  | (Ok p, s3) => (Ok (_f s3), with_pred (Some p) s3)
  | (Err e, s3) => (Err e, s3)
  end.
Proof.
  simpl fields_. unfold bind at 1. rewrite verbose_print_run.
  cbv zeta. generalize (vlog ">> Compute fields" s) as s1. intros s1.
  unfold bind at 1, gets at 1.
  destruct (_f s1) as [fo|] eqn:Hf.
  - unfold bind at 1, ret at 1. unfold bind at 1, gets at 1.
    unfold bind at 1. rewrite Hf.
    destruct (forward_ E n m (Some fo) s1) as [[p|e] s3]; reflexivity.
  - unfold bind at 1.
    match goal with
    | |- (let (r, s') := ?c s1 in _) = _ =>
        assert (Hc : c s1 = (Ok tt, after_solve E s1))
    end.
    { unfold after_solve, bind, modify, gets, emit, lift, ret.
      destruct s1 as [vb sj sg dt mdl ai f J p rxs tr]; simpl in *.
      destruct ai as [fa|]; simpl;
        destruct (String.eqb dt "apparent_chargeability"); simpl; auto;
        rewrite verbose_print_run; unfold vlog; simpl;
        destruct vb; reflexivity. }
    rewrite Hc. unfold bind at 1, gets at 1. unfold bind at 1.
    destruct (forward_ E n m (_f (after_solve E s1)) (after_solve E s1))
      as [[p|e] s3]; reflexivity.
Qed.

End Runs.

(** ** The adjoint-state branch on a ready instance *)

Section AdjointRuns.

Variable E : Externals.
Variables nC nU : nat.
Variable nP : Rx -> nat.
Hypothesis HC : Contracts E nC nU nP.

Lemma survey_nD_srcs : survey_nD (survey E) = srcs_nD (srcList (survey E)).
Proof. reflexivity. Qed.

Lemma loops_adjoint (rxs : rx_store) (cols : list vec) (sj : bool)
    (m v w : vec) :
  length m = nC -> length v = nC ->
  length w = survey_nD (survey E) ->
  length cols = survey_nSrc (survey E) ->
  exists Jv d out acc,
    Data (survey E) w = Ok d /\
    Jvec_srcs E (factorized E) (Some m) rxs (Some (Fields cols)) v 0
      (srcList (survey E)) = Ok Jv /\
    Jtvec_srcs E (factorized E) (Some m) rxs sj (Some (Fields cols)) (Some d)
      0 (srcList (survey E)) (zeros (length m)) = (out, Ok acc) /\
    length Jv = length (concat (map rxList (srcList (survey E)))) /\
    length acc = nC /\
    dot w (concat Jv) = dot v acc.
Proof.
  intros Hm Hv Hw Hcols.
  destruct (Data_srcs_spec (srcList (survey E)) w Hw) as [HF Hcat].
  destruct (@src_loop_adjoint E nC nU nP HC rxs cols m v Hm Hv sj
              (Data_srcs (srcList (survey E)) w)
              (srcList (survey E)) 0 (Data_srcs (srcList (survey E)) w)
              (zeros nC))
    as (Jv & out & acc & HJv & HJt & Hl & HlJ & Hc & Hdot); auto.
  { unfold survey_nSrc in Hcols; simpl; lia. }
  { apply length_zeros. }
  exists Jv, (Data_srcs (srcList (survey E)) w), out, acc.
  repeat split; auto.
  - unfold Data. rewrite Hw, Nat.eqb_refl. reflexivity.
  - rewrite Hm. exact HJt.
  - rewrite dot_zeros_l, Hcat in Hdot. rewrite (dot_comm v acc). lia.
Qed.

Lemma Jvec_srcs_ok (rxs : rx_store) (cols : list vec) (m v : vec) :
  length m = nC -> length v = nC ->
  length cols = survey_nSrc (survey E) ->
  exists Jv,
    Jvec_srcs E (factorized E) (Some m) rxs (Some (Fields cols)) v 0
      (srcList (survey E)) = Ok Jv /\
    length Jv = length (concat (map rxList (srcList (survey E)))).
Proof.
  intros Hm Hv Hcols.
  destruct (@loops_adjoint rxs cols false m v
              (zeros (survey_nD (survey E))) Hm Hv (length_zeros _) Hcols)
    as (Jv & d & out & acc & _ & HJv & _ & Hl & _).
  exists Jv; split; auto.
Qed.

Lemma hstack_ok (Jv : list vec) :
  has_receiver (survey E) ->
  length Jv = length (concat (map rxList (srcList (survey E)))) ->
  hstack Jv = Ok (concat Jv).
Proof.
  unfold has_receiver. intros Hr Hl.
  destruct Jv; auto.
  destruct (concat (map rxList (srcList (survey E)))); simpl in *;
    congruence.
Qed.

Lemma vlog_frame (msg : string) (s : Simulation) :
  storeJ (vlog msg s) = storeJ s /\ sign (vlog msg s) = sign s /\
  model (vlog msg s) = model s /\ Ainv (vlog msg s) = Ainv s /\
  _f (vlog msg s) = _f s /\ _Jmatrix (vlog msg s) = _Jmatrix s /\
  _pred (vlog msg s) = _pred s /\ receivers (vlog msg s) = receivers s /\
  data_type (vlog msg s) = data_type s.
Proof. unfold vlog; destruct (verbose s); repeat split; reflexivity. Qed.

Lemma after_solve_frame (s : Simulation) :
  Ainv s = None \/ live E (Ainv s) ->
  Ainv (after_solve E s) = factorized E /\
  _f (after_solve E s) =
    Some (Fields (map (Solver E (getA E)) (getRHS E))) /\
  storeJ (after_solve E s) = storeJ s /\
  sign (after_solve E s) = sign s /\
  model (after_solve E s) = model s /\
  _Jmatrix (after_solve E s) = _Jmatrix s.
Proof.
  unfold after_solve, live, vlog.
  destruct s as [vb sj sg dt mdl ai f J p rxs tr]; simpl.
  intros [H|H]; subst ai; simpl;
    destruct (String.eqb dt "apparent_chargeability"); simpl;
    try destruct vb; repeat split; reflexivity.
Qed.

(** [fields] on a ready instance in the adjoint-state mode. *)
Lemma fields_adjoint_run (n : nat) (m : vec) (sg : Z) (s : Simulation) :
  has_receiver (survey E) ->
  length m = nC ->
  storeJ s = false -> sign s = Some sg -> ready E s ->
  exists cols s',
    fields_ E (S (S (S n))) m s = (Ok (Some (Fields cols)), s') /\
    _f s' = Some (Fields cols) /\
    length cols = survey_nSrc (survey E) /\
    Ainv s' = factorized E /\
    storeJ s' = false /\ sign s' = Some sg /\ model s' = Some m /\
    _Jmatrix s' = _Jmatrix s /\
    (exists Jv,
       Jvec_srcs E (factorized E) (Some m) (receivers s')
         (Some (Fields cols)) m 0 (srcList (survey E)) = Ok Jv /\
       _pred s' = Some (scale sg (concat Jv))) /\
    (forall c0, _f s = Some (Fields c0) ->
       c0 = cols /\ receivers s' = receivers s).
Proof.
  intros Hr Hm Hs Hsg Hready.
  rewrite fields_run. cbv zeta.
  destruct (vlog_frame ">> Compute fields" s)
    as (V1 & V2 & V3 & V4 & V5 & V6 & V7 & V8 & _).
  set (s1 := vlog ">> Compute fields" s) in *.
  unfold ready in Hready. rewrite V5.
  destruct (_f s) as [[c0|]|] eqn:Hf; try contradiction.
  - destruct Hready as [Hlen Hlive]. rewrite V5.
    rewrite forward_run, Jvec_adjoint_run by (simpl; congruence).
    cbn [Ainv receivers sign log with_trace].
    rewrite V4, Hlive.
    destruct (@Jvec_srcs_ok (receivers s1) c0 m m Hm Hm Hlen)
      as (Jv & HJv & HlJ).
    rewrite HJv. simpl rbind. rewrite (@hstack_ok Jv Hr HlJ). simpl rbind.
    rewrite V2, Hsg. simpl sign_mul.
    cbn [_f with_model log with_trace]. rewrite V5.
    exists c0. eexists. split; [reflexivity|].
    simpl. rewrite V5, V4, V1, V2, V6, V8.
    split; [reflexivity|]. split; [exact Hlen|]. split; [exact Hlive|].
    split; [exact Hs|]. split; [exact Hsg|]. split; [reflexivity|].
    split; [reflexivity|]. split.
    + exists Jv. rewrite <- V8. split; [exact HJv|reflexivity].
    + intros c1 Hc1. split; congruence.
  - destruct (after_solve_frame s1) as (A1 & A2 & A3 & A4 & A5 & A6).
    { rewrite V4. exact Hready. }
    set (s2 := after_solve E s1) in *.
    rewrite A2.
    rewrite forward_run, Jvec_adjoint_run by (simpl; congruence).
    cbn [Ainv receivers sign log with_trace].
    rewrite A1.
    assert (Hlen : length (map (Solver E (getA E)) (getRHS E)) =
                   survey_nSrc (survey E))
      by (rewrite length_map; apply (rhs_cols HC)).
    destruct (@Jvec_srcs_ok (receivers s2) _ m m Hm Hm Hlen)
      as (Jv & HJv & HlJ).
    rewrite HJv. simpl rbind. rewrite (@hstack_ok Jv Hr HlJ). simpl rbind.
    rewrite A4, V2, Hsg. simpl sign_mul.
    cbn [_f with_model log with_trace]. rewrite A2.
    eexists. eexists. split; [reflexivity|].
    simpl. rewrite A2, A1, A3, A4, A6, V1, V2, V6.
    split; [reflexivity|]. split; [exact Hlen|]. split; [reflexivity|].
    split; [exact Hs|]. split; [exact Hsg|]. split; [reflexivity|].
    split; [reflexivity|]. split.
    + exists Jv. split; [exact HJv|reflexivity].
    + intros c1 Hc1. discriminate.
Qed.

End AdjointRuns.

Section MoreRuns.

Variable E : Externals.

Lemma Jvec_adjoint_None_run (n : nat) (m v : vec) (s : Simulation) :
  storeJ s = false ->
  Jvec_ E (S n) m v None s =
  match fields_ E n m (with_model (Some m) s) with
  | (Ok f', s') =>
      (rbind (Jvec_srcs E (Ainv s') (model s') (receivers s') f' v 0
                (srcList (survey E)))
         (fun Jv => rbind (hstack Jv) (sign_mul (sign s'))), s')
  | (Err e, s') => (Err e, s')
  end.
Proof.
  intros Hs. simpl Jvec_. unfold bind at 1. rewrite set_model_run.
  unfold bind at 1, gets at 1. cbn [storeJ with_model]. rewrite Hs.
  unfold bind at 1.
  destruct (fields_ E n m (with_model (Some m) s)) as [[f'|e] s']; auto.
  unfold bind, gets, lift.
  destruct (Jvec_srcs _ _ _ _ _ _ _ _) as [Jv|e]; simpl; auto.
  destruct (hstack Jv); simpl; auto.
Qed.

Lemma Jtvec_adjoint_None_run (m w : vec) (s : Simulation) :
  storeJ s = false ->
  Jtvec E m w None s =
  match fields E m (with_model (Some m) s) with
  | (Ok f', s') => _Jtvec E m (Some w) f' s'
  | (Err e, s') => (Err e, s')
  end.
Proof.
  intros Hs. unfold Jtvec. unfold bind at 1, gets at 1. rewrite Hs.
  unfold bind at 1. rewrite set_model_run. unfold bind at 1.
  destruct (fields E m (with_model (Some m) s)) as [[f'|e] s']; auto.
Qed.

Lemma Jtvec_stored_run (m w : vec) (f : option FieldObj) (J : ndarray2)
    (s : Simulation) :
  storeJ s = true -> _Jmatrix s = Some J ->
  Jtvec E m w f s =
  (rbind (dot2 (T J) w) (sign_mul (sign s)),
   vlog "Calculating J and storing" (with_model (Some m) s)).
Proof.
  intros Hs HJ. unfold Jtvec. unfold bind at 1, gets at 1. rewrite Hs.
  unfold bind at 1. unfold getJ, depth.
  rewrite (getJ_cached_run E 7 m f (J := J)) by exact HJ.
  unfold bind, lift, gets.
  destruct (dot2 (T J) w); simpl; auto.
  unfold vlog; simpl. destruct (verbose s); reflexivity.
Qed.

Lemma dot2_stored (J : ndarray2) (nD nC : nat) (v : vec) :
  stored_J J nD nC -> length v = nC ->
  dot2 J v = Ok (map (fun c => dot c v) (buf_cols (base J))).
Proof.
  intros (Ht & Hr & Hc & _) Hv. unfold dot2, shape.
  rewrite Ht. simpl. rewrite Hr, Hv, Nat.eqb_refl. reflexivity.
Qed.

Lemma dot2_T_stored (J : ndarray2) (nD nC : nat) (w : vec) :
  stored_J J nD nC -> length w = nD ->
  dot2 (T J) w = Ok (lincomb nC (buf_cols (base J)) w).
Proof.
  intros (Ht & Hr & Hc & _) Hw. unfold dot2, shape, T. simpl.
  rewrite Ht. simpl. rewrite Hc, Hw, Nat.eqb_refl, Hr. reflexivity.
Qed.

End MoreRuns.

(** ** Assembly of the full matrix: facts *)

Section FullMatrix.

Variable E : Externals.
Variables nC nU : nat.
Hypothesis Hsolve : forall x, length x = nU ->
  length (Solver E (getA E) x) = nU.
Hypothesis HdAT : forall m u y, length m = nC -> length y = nU ->
  length (getADeriv E m u y true) = nC.
Hypothesis HP : forall src rx attrs k, in_survey E src rx -> k < rx_nD rx ->
  length (rx_getP E rx attrs k) = nU.
Hypothesis Hplain : getADeriv_delayed E = false.

Variable rxs : rx_store.
Variable m : vec.
Hypothesis Hm : length m = nC.

Lemma length_J_block (u_src : vec) (rx : Rx) :
  length (J_block E m rxs u_src rx) = rx_nD rx.
Proof. unfold J_block. rewrite length_map, length_seq. reflexivity. Qed.

Lemma length_J_src (u_src : vec) (l : list Rx) :
  length (J_src E m rxs u_src l) = rxs_nD l.
Proof.
  unfold J_src. induction l as [|rx l IH]; simpl; auto.
  rewrite length_app, length_J_block, IH. reflexivity.
Qed.

Lemma J_block_cols (src : Src) (u_src : vec) (rx : Rx) :
  in_survey E src rx ->
  Forall (fun c => length c = nC) (J_block E m rxs u_src rx).
Proof.
  intros Hin. unfold J_block. apply Forall_forall. intros c Hc.
  apply in_map_iff in Hc. destruct Hc as (k & Hk & Hks). subst c.
  apply in_seq in Hks. rewrite length_neg.
  apply HdAT; auto. apply Hsolve.
  apply (HP (src := src)); auto. lia.
Qed.

Lemma fit_cols_same (nr : nat) (b : list vec) :
  Forall (fun c => length c = nr) b -> fit_cols nr b = Ok b.
Proof.
  induction 1 as [|c b Hc _ IH]; simpl; auto.
  unfold fit_col. rewrite Hc, Nat.eqb_refl. simpl. rewrite IH. reflexivity.
Qed.

Lemma firstn_app_all {A : Type} (a b : list A) :
  firstn (length a) (a ++ b) = a.
Proof.
  rewrite firstn_app, Nat.sub_diag, firstn_all. simpl. apply app_nil_r.
Qed.

Lemma skipn_app_more {A : Type} (a b : list A) (k : nat) :
  skipn (length a + k) (a ++ b) = skipn k b.
Proof.
  rewrite skipn_app. rewrite skipn_all2 by lia. simpl. f_equal. lia.
Qed.

Lemma skipn_repeat {A : Type} (x : A) (k n : nat) :
  skipn k (repeat x n) = repeat x (n - k).
Proof.
  revert n; induction k as [|k IH]; intros [|n]; simpl; auto.
Qed.

(** One receiver: its block lands at the running offset. *)
Lemma Jtvec_rx_full (cols : list vec) (isrc : nat) (src : Src) (u_src : vec)
    (irx : nat) (rx : Rx) (done : list vec) (k : nat) :
  in_survey E src rx ->
  rx_nD rx <= k ->
  Jtvec_rx E (factorized E) (Some m) rxs cols None isrc src u_src irx rx
    ({| buf_rows := nC; buf_cols := done ++ repeat (zeros nC) k |},
     length done)
  = Ok ({| buf_rows := nC;
           buf_cols := (done ++ J_block E m rxs u_src rx)
                         ++ repeat (zeros nC) (k - rx_nD rx) |},
        length (done ++ J_block E m rxs u_src rx)).
Proof.
  intros Hin Hk. unfold Jtvec_rx.
  pose proof (@J_block_cols src u_src rx Hin) as HF.
  rewrite length_app, length_J_block.
  destruct (rx_nD rx =? 1) eqn:H1.
  - apply Nat.eqb_eq in H1.
    unfold J_block in *. rewrite H1 in *. simpl seq in *. simpl map in *.
    apply Forall_inv in HF. rename HF into Hc.
    cbn [rbind Ainv_mul Ainv_mul_cols factorized factored].
    rewrite Hplain. cbn [written_raw rbind].
    unfold set_col. simpl buf_cols. simpl buf_rows.
    replace (length done <? length (done ++ repeat (zeros nC) k)) with true.
    2:{ symmetry. apply Nat.ltb_lt. rewrite length_app, repeat_length. lia. }
    unfold fit_col. rewrite Hc, Nat.eqb_refl. cbn [rbind Ainv_mul Ainv_mul_cols factorized factored].
    rewrite firstn_app_all.
    replace (S (length done)) with (length done + 1) by lia.
    rewrite skipn_app_more, skipn_repeat.
    rewrite <- app_assoc. reflexivity.
  - cbn [rbind Ainv_mul Ainv_mul_cols factorized factored].
    rewrite Hplain. cbn [written_raw rbind].
    rewrite !map_map.
    change (map (fun x => neg (getADeriv E m u_src
                   (Solver E (getA E) (rx_getP E rx (rx_lookup rxs rx) x))
                   true))
              (seq 0 (rx_nD rx)))
      with (J_block E m rxs u_src rx).
    unfold set_block. simpl buf_cols. simpl buf_rows.
    rewrite length_J_block, length_app, repeat_length.
    replace (length done + rx_nD rx <=? length done + k) with true
      by (symmetry; apply Nat.leb_le; lia).
    rewrite Nat.eqb_refl. simpl andb. cbv iota.
    rewrite (fit_cols_same HF). cbn [rbind Ainv_mul Ainv_mul_cols factorized factored].
    rewrite firstn_app_all, skipn_app_more, skipn_repeat.
    rewrite <- app_assoc. reflexivity.
Qed.

Lemma Jtvec_rxs_full (cols : list vec) (isrc : nat) (src : Src) (u_src : vec) :
  forall (l : list Rx) (irx : nat) (done : list vec) (k : nat),
    (forall rx, In rx l -> in_survey E src rx) ->
    rxs_nD l <= k ->
    Jtvec_rxs E (factorized E) (Some m) rxs cols None isrc src u_src irx l
      ({| buf_rows := nC; buf_cols := done ++ repeat (zeros nC) k |},
       length done)
    = Ok ({| buf_rows := nC;
             buf_cols := (done ++ J_src E m rxs u_src l)
                           ++ repeat (zeros nC) (k - rxs_nD l) |},
          length (done ++ J_src E m rxs u_src l)).
Proof.
  induction l as [|rx l IH]; intros irx done k Hin Hk.
  - simpl. unfold J_src. simpl. rewrite app_nil_r, Nat.sub_0_r. reflexivity.
  - simpl in Hk. cbn [Jtvec_rxs].
    rewrite (@Jtvec_rx_full cols isrc src u_src irx rx done k)
      by (try apply Hin; try left; auto; lia).
    cbn [rbind].
    rewrite (IH (S irx) (done ++ J_block E m rxs u_src rx) (k - rx_nD rx))
      by (try (intros; apply Hin; right; auto); lia).
    unfold J_src. simpl map. simpl concat.
    rewrite <- !app_assoc.
    replace (k - rx_nD rx - rxs_nD l) with (k - (rx_nD rx + rxs_nD l)) by lia.
    reflexivity.
Qed.

Lemma length_Jt_columns (l : list Src) (us : list vec) :
  length l <= length us ->
  length (Jt_columns E m rxs l us) = srcs_nD l.
Proof.
  revert us; induction l as [|src l IH]; intros [|u us] H; simpl in *;
    try lia.
  rewrite length_app, length_J_src, IH by lia. reflexivity.
Qed.

Lemma Jtvec_srcs_full (cols : list vec) (sj : bool) :
  forall (l : list Src) (isrc : nat) (us done : list vec) (k : nat),
    (forall s, In s l -> In s (srcList (survey E))) ->
    skipn isrc cols = us ->
    length l <= length us ->
    srcs_nD l <= k ->
    exists out,
      Jtvec_srcs E (factorized E) (Some m) rxs sj (Some (Fields cols)) None
        isrc l
        ({| buf_rows := nC; buf_cols := done ++ repeat (zeros nC) k |},
         length done)
      = (out,
         Ok ({| buf_rows := nC;
                buf_cols := (done ++ Jt_columns E m rxs l us)
                              ++ repeat (zeros nC) (k - srcs_nD l) |},
             length (done ++ Jt_columns E m rxs l us))).
Proof.
  induction l as [|src l IH]; intros isrc us done k Hin Hus Hlen Hk.
  - exists []. simpl. rewrite app_nil_r, Nat.sub_0_r. reflexivity.
  - destruct us as [|u us]; simpl in Hlen; [lia|].
    destruct (skipn_cons_nth _ _ Hus) as [Hnth Hskip].
    simpl in Hk. cbn [Jtvec_srcs getitem]. rewrite Hnth.
    rewrite (@Jtvec_rxs_full cols isrc src u (rxList src) 0 done k).
    2:{ intros rx Hrx. split; auto. apply Hin; left; auto. }
    2:{ unfold src_nD in Hk; unfold rxs_nD; lia. }
    destruct (IH (S isrc) us (done ++ J_src E m rxs u (rxList src))
                (k - rxs_nD (rxList src))) as [out Hout]; auto.
    { intros; apply Hin; right; auto. }
    { lia. }
    { unfold src_nD in Hk; unfold rxs_nD; lia. }
    rewrite Hout. eexists. simpl Jt_columns.
    rewrite <- !app_assoc.
    replace (k - rxs_nD (rxList src) - srcs_nD l)
      with (k - (src_nD src + srcs_nD l))
      by (unfold src_nD, rxs_nD; lia).
    reflexivity.
Qed.

Lemma Jt_columns_cols :
  forall (l : list Src) (us : list vec),
    (forall s, In s l -> In s (srcList (survey E))) ->
    Forall (fun c => length c = nC) (Jt_columns E m rxs l us).
Proof.
  induction l as [|src l IH]; intros [|u us] Hin; simpl; auto.
  apply Forall_app. split.
  - unfold J_src. apply Forall_concat. apply Forall_forall.
    intros b Hb. apply in_map_iff in Hb. destruct Hb as (rx & <- & Hrx).
    apply (@J_block_cols src u rx).
    split; auto. apply Hin. left. reflexivity.
  - apply IH. intros s0 Hs0. apply Hin. right. exact Hs0.
Qed.

End FullMatrix.

(** ** The adjoint-state product against the assembled columns *)

Section Equivalence.

Variable E : Externals.
Variables nC nU : nat.
Variable nP : Rx -> nat.
Hypothesis HC : Contracts E nC nU nP.
Hypothesis HI : IPContracts E nC nU.

Variable rxs : rx_store.
Variable cols : list vec.
Variables m v : vec.
Hypothesis Hm : length m = nC.
Hypothesis Hv : length v = nC.

Local Open Scope Z_scope.

Lemma lin_rhs_IP (src : Src) (u_src : vec) :
  lin_rhs E m v src u_src = neg (getADeriv E m u_src v false).
Proof.
  unfold lin_rhs. rewrite (rhs_indep HI) by auto.
  apply zip_add_zeros_r. rewrite length_neg. apply (dA_len HC); auto.
Qed.

Lemma entry_dense (src : Src) (u_src : vec) (rx : Rx) (k : nat) :
  in_survey E src rx -> (k < rx_nD rx)%nat ->
  dot (rx_getP E rx (rx_lookup rxs rx) k) (du_dm E m v src u_src) =
  dot (neg (getADeriv E m u_src
              (Solver E (getA E) (rx_getP E rx (rx_lookup rxs rx) k)) true)) v.
Proof.
  intros Hin Hk.
  pose proof (getP_len HI (rx_lookup rxs rx) Hin Hk) as HP.
  unfold du_dm. rewrite lin_rhs_IP.
  rewrite dot_comm, (solve_sym HC); auto.
  2:{ rewrite length_neg. apply (dA_len HC); auto. }
  rewrite !dot_neg_l. f_equal.
  rewrite dot_comm. apply (dA_adj HC); auto.
  apply (solve_len HC); auto.
Qed.

Lemma Jvec_rxs_dense (src : Src) (u_src : vec) :
  In src (srcList (survey E)) ->
  forall l : list Rx,
    (forall rx, In rx l -> In rx (rxList src)) ->
    exists Jv,
      Jvec_rxs E rxs cols src (du_dm E m v src u_src) v l = Ok Jv /\
      length Jv = length l /\
      concat Jv = map (fun c => dot c v) (J_src E m rxs u_src l).
Proof.
  intros Hsrc. induction l as [|rx l IH]; intros Hin.
  - exists []. repeat split; auto.
  - destruct IH as (Jv & HJv & Hl & Hcat).
    { intros; apply Hin; right; auto. }
    assert (Hrx : in_survey E src rx) by (split; auto; apply Hin; left; auto).
    destruct (deriv_known HC Hrx) as (fd & Hfd & _).
    eexists. simpl. rewrite Hfd, HJv. simpl rbind.
    split; [reflexivity|]. split; [simpl; congruence|].
    simpl concat. rewrite Hcat. unfold J_src. simpl map. simpl concat.
    rewrite map_app. f_equal.
    rewrite (eval_is_P HI); auto.
    2: apply (length_du_dm HC); auto.
    unfold J_block. rewrite map_map. apply map_ext_in.
    intros k Hk. apply in_seq in Hk. apply entry_dense; auto. lia.
Qed.

Lemma Jvec_srcs_dense :
  forall (l : list Src) (isrc : nat) (us : list vec),
    (forall s, In s l -> In s (srcList (survey E))) ->
    skipn isrc cols = us ->
    (length l <= length us)%nat ->
    exists Jv,
      Jvec_srcs E (factorized E) (Some m) rxs (Some (Fields cols)) v isrc l
        = Ok Jv /\
      concat Jv = map (fun c => dot c v) (Jt_columns E m rxs l us).
Proof.
  induction l as [|src l IH]; intros isrc us Hin Hus Hlen.
  - exists []. split; auto.
  - destruct us as [|u us]; simpl in Hlen; [lia|].
    destruct (skipn_cons_nth _ _ Hus) as [Hnth Hskip].
    assert (Hsrc : In src (srcList (survey E))) by (apply Hin; left; auto).
    destruct (@Jvec_rxs_dense src u Hsrc (rxList src)) as (Jv1 & HJv1 & _ & Hc1);
      auto.
    destruct (IH (S isrc) us) as (Jv2 & HJv2 & Hc2); auto.
    { intros; apply Hin; right; auto. }
    { lia. }
    exists (Jv1 ++ Jv2). split.
    + cbn [Jvec_srcs getitem]. rewrite Hnth. cbn [rbind].
      rewrite (dA_delayed HC), (dRHS_delayed HC). cbn [from_delayed rbind].
      rewrite add_same.
      2:{ rewrite length_neg, (dA_len HC), (dRHS_len HC); auto. }
      cbn [rbind Ainv_mul factorized factored].
      fold (lin_rhs E m v src u). fold (du_dm E m v src u).
      rewrite HJv1. cbn [rbind]. rewrite HJv2. reflexivity.
    + rewrite concat_app, Hc1, Hc2. simpl Jt_columns.
      rewrite map_app. reflexivity.
Qed.

End Equivalence.

(** ** [getJ] when nothing is stored yet *)

Lemma getJ_uncached_run (E : Externals) (n : nat) (m : vec)
    (f : option FieldObj) (s : Simulation) :
  _Jmatrix s = None ->
  getJ_ E (S n) m f s =
  let s1 := vlog "Calculating J and storing" (with_model (Some m) s) in
  match (match f with
         | None => fields_ E n m s1
         | Some _ => (Ok f, s1)
         end) with
  | (Err e, s2) => (Err e, s2)
  | (Ok f', s2) =>
      match _Jtvec E m None f' s2 with
      | (Err e, s3) => (Err e, s3)
      | (Ok Jt, s3) => (Ok (T Jt), after_getJ Jt s3)
      end
  end.
Proof.
  intros HJ. cbn [getJ_]. unfold bind at 1. rewrite set_model_run.
  unfold bind at 1. rewrite verbose_print_run.
  cbv zeta.
  destruct (vlog_frame "Calculating J and storing" (with_model (Some m) s))
    as (_ & _ & _ & _ & _ & W6 & _).
  generalize dependent (vlog "Calculating J and storing" (with_model (Some m) s)).
  intros s1 W6.
  unfold bind at 1, gets at 1. rewrite W6. cbn [_Jmatrix with_model].
  rewrite HJ.
  unfold bind at 1.
  assert (Hf : (match f with
                | Some _ => ret f
                | None => fields_ E n m
                end) s1 =
               match f with
               | None => fields_ E n m s1
               | Some _ => (Ok f, s1)
               end) by (destruct f; reflexivity).
  rewrite Hf.
  destruct (match f with
            | None => fields_ E n m s1
            | Some _ => (Ok f, s1)
            end) as [[f'|e] s2]; auto.
  unfold bind at 1.
  destruct (_Jtvec E m None f' s2) as [[Jt|e] s3]; auto.
  unfold after_getJ, bind, modify, gets, emit, ret, log.
  destruct s3 as [vb sj sg dt mdl ai f0 J p rxs tr]; simpl.
  destruct ai; reflexivity.
Qed.

(** ** Where a receiver's block sits among the columns *)

Section Offsets.

Variable E : Externals.
Variable m : vec.
Variable rxs : rx_store.

Lemma J_block_length (u : vec) (rx : Rx) :
  length (J_block E m rxs u rx) = rx_nD rx.
Proof. unfold J_block. rewrite length_map, length_seq. reflexivity. Qed.

Lemma J_src_length (u : vec) (l : list Rx) :
  length (J_src E m rxs u l) = rxs_nD l.
Proof.
  unfold J_src. induction l as [|rx l IH]; simpl; auto.
  rewrite length_app, J_block_length, IH. reflexivity.
Qed.

Lemma firstn_app_len {A : Type} (a b : list A) (n : nat) :
  length a = n -> firstn n (a ++ b) = a.
Proof.
  intros <-. rewrite firstn_app, Nat.sub_diag, firstn_all. simpl.
  apply app_nil_r.
Qed.

Lemma skipn_app_len {A : Type} (a b : list A) (n k : nat) :
  length a = n -> skipn (n + k) (a ++ b) = skipn k b.
Proof.
  intros <-. rewrite skipn_app. rewrite skipn_all2 by lia. simpl.
  f_equal. lia.
Qed.

Lemma J_src_block_at (u : vec) (rest : list vec) :
  forall (l : list Rx) (j : nat) (rx : Rx),
    nth_error l j = Some rx ->
    firstn (rx_nD rx)
      (skipn (rxs_nD (firstn j l)) (J_src E m rxs u l ++ rest))
    = J_block E m rxs u rx.
Proof.
  induction l as [|rx0 l IH]; intros [|j] rx Hj; simpl in Hj;
    try discriminate.
  - inversion Hj; subst rx0. unfold J_src. simpl.
    rewrite <- app_assoc.
    apply firstn_app_len, J_block_length.
  - simpl firstn. simpl rxs_nD. unfold J_src. simpl map. simpl concat.
    rewrite <- app_assoc.
    rewrite skipn_app_len by apply J_block_length. apply (IH j rx Hj).
Qed.

Lemma Jt_columns_block_at :
  forall (l : list Src) (us : list vec) (i j : nat) (src : Src) (u : vec)
         (rx : Rx),
    nth_error l i = Some src ->
    nth_error us i = Some u ->
    nth_error (rxList src) j = Some rx ->
    firstn (rx_nD rx)
      (skipn (srcs_nD (firstn i l) + rxs_nD (firstn j (rxList src)))
         (Jt_columns E m rxs l us))
    = J_block E m rxs u rx.
Proof.
  induction l as [|s0 l IH]; intros [|u0 us] [|i] j src u rx Hi Hu Hj;
    simpl in Hi, Hu; try discriminate.
  - inversion Hi; inversion Hu; subst. simpl.
    apply J_src_block_at; auto.
  - simpl firstn. simpl srcs_nD. simpl Jt_columns.
    rewrite <- Nat.add_assoc.
    rewrite skipn_app_len by apply J_src_length.
    apply IH; auto.
Qed.

End Offsets.

Section FullMatrixRun.

Variable E : Externals.
Variables nC nU : nat.
Hypothesis HAsm : AssemblyContracts E nC nU.

Lemma Jtvec_full_ok (m0 m : vec) (cols : list vec) (s : Simulation) :
  length m = nC ->
  model s = Some m ->
  Ainv s = factorized E ->
  length cols = survey_nSrc (survey E) ->
  exists out,
    _Jtvec E m0 None (Some (Fields cols)) s =
    (Ok {| base := {| buf_rows := nC;
                      buf_cols := Jt_columns E m (receivers s)
                                    (srcList (survey E)) cols |};
           transposed := false |},
     log out s).
Proof.
  intros Hm Hmdl HA Hcols.
  rewrite Jtvec_full_run, Hmdl, HA. unfold zeros2. rewrite Hm.
  destruct (@Jtvec_srcs_full E nC nU (asm_solve_len HAsm) (asm_dAT_len HAsm)
              (asm_getP_len HAsm) (asm_plain HAsm) (receivers s) m Hm cols
              (storeJ s) (srcList (survey E)) 0 cols [] (survey_nD (survey E)))
    as [out Hout]; auto.
  { unfold survey_nSrc in Hcols; lia. }
  simpl app in Hout. simpl length in Hout. rewrite Hout.
  exists out. cbn [rbind fst]. repeat f_equal.
  rewrite survey_nD_srcs, Nat.sub_diag. simpl. apply app_nil_r.
Qed.

End FullMatrixRun.

(** ** The small survey honours the contracts *)

Ltac vec2 x H :=
  destruct x as [|? [|? [|? ?]]]; try discriminate H.

Ltac toy_rx H :=
  let Hs := fresh "Hs" in
  let Hr := fresh "Hr" in
  destruct H as [Hs Hr]; simpl in Hs; destruct Hs as [<-|[]];
  simpl in Hr; destruct Hr as [<-|[<-|[]]].

Lemma Toy_contracts (b : bool) : Contracts (Toy.env b) 2 2 (fun _ => 2).
Proof.
  constructor.
  - reflexivity.
  - intros x H; vec2 x H; reflexivity.
  - intros x y Hx Hy; vec2 x Hx; vec2 y Hy; cbv - [Z.mul Z.add Z.opp]; ring.
  - intros m u v Hm Hv; vec2 m Hm; vec2 v Hv; reflexivity.
  - intros m u y Hm Hy; vec2 m Hm; vec2 y Hy; reflexivity.
  - intros m u v y Hm Hv Hy; vec2 m Hm; vec2 v Hv; vec2 y Hy; cbv - [Z.mul Z.add Z.opp]; ring.
  - intros m src v Hm Hv; vec2 v Hv; destruct b; reflexivity.
  - intros m src y Hm Hy; vec2 y Hy; destruct b; reflexivity.
  - intros m src v y Hm Hv Hy; vec2 v Hv; vec2 y Hy; destruct b; cbv - [Z.mul Z.add Z.opp]; ring.
  - intros src rx H; toy_rx H; exists Toy.phiDeriv;
      (split; [reflexivity|]);
      (split; [intros; assumption|]);
      (split; [intros s cols p Hp; split; [exact Hp|reflexivity]|]);
      intros s cols du v p Hdu Hv Hp;
      cbn [Toy.phiDeriv deriv derivT fst snd];
      rewrite dot_zeros_l; lia.
  - intros src rx attrs cols x H Hx; toy_rx H; reflexivity.
  - intros src rx attrs cols w H Hw; toy_rx H; cbn in Hw;
      destruct w as [|? [|? [|? ?]]]; try discriminate Hw; reflexivity.
  - intros src rx attrs cols x w H Hx Hw; toy_rx H; vec2 x Hx; cbn in Hw;
      destruct w as [|? [|? [|? ?]]]; try discriminate Hw; cbv - [Z.mul Z.add Z.opp]; ring.
  - reflexivity.
  - reflexivity.
Qed.

Lemma Toy_assembly (b : bool) : AssemblyContracts (Toy.plain b) 2 2.
Proof.
  constructor.
  - reflexivity.
  - intros x H; vec2 x H; reflexivity.
  - intros m u y Hm Hy; vec2 m Hm; vec2 y Hy; reflexivity.
  - intros src rx attrs k H Hk; toy_rx H; cbn in Hk;
      destruct k as [|[|k]]; try lia; reflexivity.
  - reflexivity.
Qed.

Lemma Toy_IPcontracts : IPContracts (Toy.env false) 2 2.
Proof.
  constructor.
  - reflexivity.
  - intros src rx attrs k H Hk; toy_rx H; cbn in Hk;
      destruct k as [|[|k]]; try lia; reflexivity.
  - intros src rx attrs cols du v fd H Hfd Hdu Hv; toy_rx H;
      cbn in Hfd; inversion Hfd; subst fd; reflexivity.
Qed.

Lemma Toy_has_receiver (b : bool) : has_receiver (survey (Toy.env b)).
Proof. unfold has_receiver; simpl; discriminate. Qed.

(** ** The depth of the calls

    Six levels are enough for every call; more depth changes nothing. *)

Section Depth.

Variable E : Externals.

Lemma Jvec_stored_mode_run (n : nat) (m v : vec) (f : option FieldObj)
    (s : Simulation) :
  storeJ s = true ->
  Jvec_ E (S n) m v f s =
  match getJ_ E n m f (with_model (Some m) s) with
  | (Ok J, s3) => (rbind (dot2 J v) (sign_mul (sign s3)), s3)
  | (Err e, s3) => (Err e, s3)
  end.
Proof.
  intros Hs. cbn [Jvec_]. unfold bind at 1. rewrite set_model_run.
  unfold bind at 1, gets at 1. cbn [storeJ with_model]. rewrite Hs.
  unfold bind at 1.
  destruct (getJ_ E n m f (with_model (Some m) s)) as [[J|e] s3]; auto.
  unfold bind, lift, gets. destruct (dot2 J v); reflexivity.
Qed.

Lemma getJ_Some_depth (n : nat) (m : vec) (fo : FieldObj) (s : Simulation) :
  getJ_ E (S n) m (Some fo) s = getJ_ E 1 m (Some fo) s.
Proof. reflexivity. Qed.

Lemma Jvec_Some_depth (n : nat) (m v : vec) (fo : FieldObj) (s : Simulation) :
  Jvec_ E (S (S n)) m v (Some fo) s = Jvec_ E 2 m v (Some fo) s.
Proof. reflexivity. Qed.

Lemma forward_Some_depth (n : nat) (m : vec) (fo : FieldObj) (s : Simulation) :
  forward_ E (S (S (S n))) m (Some fo) s = forward_ E 3 m (Some fo) s.
Proof. reflexivity. Qed.

Lemma after_solve_f (s : Simulation) :
  exists u, _f (after_solve E s) = Some (Fields u).
Proof.
  unfold after_solve, vlog.
  destruct s as [vb sj sg dt mdl ai f J p rxs tr]; simpl.
  destruct ai; simpl; destruct (String.eqb dt "apparent_chargeability");
    simpl; try destruct vb; eexists; reflexivity.
Qed.

Lemma fields_depth (n : nat) (m : vec) (s : Simulation) :
  fields_ E (S (S (S (S n)))) m s = fields_ E 4 m s.
Proof.
  rewrite !fields_run. cbv zeta.
  destruct (_f (vlog ">> Compute fields" s)) as [fo|] eqn:Hf.
  - rewrite Hf, forward_Some_depth. reflexivity.
  - destruct (after_solve_f (vlog ">> Compute fields" s)) as [u Hu].
    rewrite Hu, forward_Some_depth. reflexivity.
Qed.

Lemma getJ_depth (n : nat) (m : vec) (f : option FieldObj) (s : Simulation) :
  getJ_ E (S (S (S (S (S n))))) m f s = getJ_ E 5 m f s.
Proof.
  destruct (_Jmatrix s) as [J|] eqn:HJ.
  - rewrite !(getJ_cached_run E _ m f (J := J)) by exact HJ. reflexivity.
  - rewrite !getJ_uncached_run by exact HJ. cbv zeta.
    destruct f as [fo|]; [reflexivity|].
    rewrite fields_depth. reflexivity.
Qed.

Lemma Jvec_depth (n : nat) (m v : vec) (f : option FieldObj) (s : Simulation) :
  Jvec_ E (S (S (S (S (S (S n)))))) m v f s = Jvec_ E 6 m v f s.
Proof.
  destruct (storeJ s) eqn:Hs.
  - rewrite !Jvec_stored_mode_run by exact Hs. rewrite getJ_depth.
    reflexivity.
  - destruct f as [fo|].
    + reflexivity.
    + rewrite !Jvec_adjoint_None_run by exact Hs.
      rewrite (fields_depth (S n)), (fields_depth 1). reflexivity.
Qed.

Lemma forward_is_Jvec (m : vec) (f : option FieldObj) (s : Simulation) :
  forward E m f s = Jvec E m m f (log [CallForward] s).
Proof.
  unfold forward, Jvec, depth. rewrite forward_run.
  rewrite (Jvec_depth 1), (Jvec_depth 2). reflexivity.
Qed.

End Depth.

(** ** What the methods add to the trace *)

Lemma silent_forward : silent is_forward.
Proof. repeat split. Qed.

Lemma silent_factorize : silent is_factorize.
Proof. repeat split. Qed.

Lemma count_app (p : event -> bool) (a b : list event) :
  count p (a ++ b) = count p a + count p b.
Proof. unfold count. rewrite filter_app, length_app. reflexivity. Qed.

Lemma log_count (p : event -> bool) (evs : list event) (s : Simulation) :
  count p (trace (log evs s)) = count p (trace s) + count p evs.
Proof. unfold log. cbn [trace with_trace]. apply count_app. Qed.

Lemma vlog_count (p : event -> bool) (msg : string) (s : Simulation) :
  silent p -> count p (trace (vlog msg s)) = count p (trace s).
Proof.
  intros (Hp & _). unfold vlog. destruct (verbose s); auto.
  rewrite log_count. unfold count. simpl. rewrite Hp. simpl. lia.
Qed.

Lemma count_progress (p : event -> bool) (out : list event) :
  silent p -> Forall is_progress out -> count p out = 0.
Proof.
  intros (_ & Hp & _). induction 1 as [|e out (i & n & ->) _ IH]; auto.
  unfold count in *. simpl. rewrite Hp. exact IH.
Qed.

Section TraceFacts.

Variable E : Externals.

Lemma Jtvec_srcs_out (a : option Factorization) (mdl : option vec)
    (rxs : rx_store) (sj : bool) (f : option FieldObj)
    (v : option (list (list vec))) :
  forall (l : list Src) (isrc : nat) (acc : Jt_acc v),
    Forall is_progress (fst (Jtvec_srcs E a mdl rxs sj f v isrc l acc)).
Proof.
  induction l as [|src l IH]; intros isrc acc; cbn [Jtvec_srcs].
  - constructor.
  - destruct (getitem f isrc) as [[cols u]|e]; [|constructor].
    destruct (Jtvec_rxs E a mdl rxs cols v isrc src u 0 (rxList src) acc)
      as [acc'|e].
    + specialize (IH (S isrc) acc').
      destruct (Jtvec_srcs E a mdl rxs sj f v (S isrc) l acc') as [out' r].
      cbn [fst] in *. apply Forall_app. split; auto.
      destruct sj; repeat constructor. eexists; eexists; reflexivity.
    + cbn [fst]. destruct sj; repeat constructor.
      eexists; eexists; reflexivity.
Qed.

(** [_Jtvec] only writes progress lines. *)
Lemma Jtvec_frame (m : vec) (v : option vec) (f : option FieldObj)
    (s : Simulation) :
  exists out,
    Forall is_progress out /\
    (snd (_Jtvec E m v f s) = log out s \/ snd (_Jtvec E m v f s) = s).
Proof.
  destruct v as [w|].
  - rewrite Jtvec_dir_run.
    destruct (Data (survey E) w) as [d|e].
    + pose proof (Jtvec_srcs_out (Ainv s) (model s) (receivers s) (storeJ s)
                    f (Some d) (srcList (survey E)) 0 (zeros (length m)))
        as Hout.
      destruct (Jtvec_srcs _ _ _ _ _ _ _ _ _ _) as [out r].
      exists out. split; auto.
    + exists []. split; auto.
  - rewrite Jtvec_full_run.
    destruct (model s) as [m'|] eqn:Hm.
    + rewrite <- Hm.
      pose proof (Jtvec_srcs_out (Ainv s) (model s) (receivers s) (storeJ s)
                    f None (srcList (survey E)) 0
                    (zeros2 (length m') (survey_nD (survey E)), 0)) as Hout.
      destruct (Jtvec_srcs _ _ _ _ _ _ _ _ _ _) as [out r].
      exists out. split; auto.
    + exists []. split; auto.
Qed.

Lemma after_getJ_frame (p : event -> bool) (Jt : ndarray2) (s : Simulation) :
  silent p ->
  count p (trace (after_getJ Jt s)) = count p (trace s) /\
  storeJ (after_getJ Jt s) = storeJ s /\
  sign (after_getJ Jt s) = sign s /\
  _Jmatrix (after_getJ Jt s) = Some (T Jt) /\
  _f (after_getJ Jt s) = Some EmptyList.
Proof.
  intros (_ & _ & Hp). unfold after_getJ.
  destruct s as [vb sj sg dt mdl ai f J pr rxs tr]; simpl.
  destruct ai; simpl; repeat split; auto.
  rewrite count_app. unfold count at 2. simpl. rewrite Hp. simpl. lia.
Qed.

(** [getJ] with a field at hand. *)
Lemma getJ_Some_post (p : event -> bool) (n : nat) (m : vec) (fo : FieldObj)
    (s s' : Simulation) (r : result ndarray2) :
  silent p ->
  getJ_ E (S n) m (Some fo) s = (r, s') ->
  count p (trace s') = count p (trace s) /\
  storeJ s' = storeJ s /\ sign s' = sign s /\
  (forall J, r = Ok J -> _Jmatrix s' = Some J) /\
  (_f s <> None -> _f s' <> None).
Proof.
  intros Hp Hrun.
  destruct (vlog_frame "Calculating J and storing" (with_model (Some m) s))
    as (W1 & W2 & W3 & W4 & W5 & W6 & _).
  pose proof (vlog_count "Calculating J and storing"
                (with_model (Some m) s) Hp) as Wc.
  cbn [storeJ sign model _f _Jmatrix with_model trace] in W1, W2, W3, W5, W6, Wc.
  destruct (_Jmatrix s) as [J0|] eqn:HJ.
  - rewrite (getJ_cached_run E n m (Some fo) (J := J0)) in Hrun by exact HJ.
    inversion Hrun; subst r s'. rewrite Wc, W1, W2, W5, W6.
    split; [reflexivity|]. split; [reflexivity|]. split; [reflexivity|].
    split; [intros J1 HJ1; congruence|auto].
  - rewrite getJ_uncached_run in Hrun by exact HJ. cbv zeta in Hrun.
    set (s1 := vlog "Calculating J and storing" (with_model (Some m) s)) in *.
    destruct (Jtvec_frame m None (Some fo) s1) as (out & Hout & Hs3).
    pose proof (count_progress Hp Hout) as Hc.
    destruct (_Jtvec E m None (Some fo) s1) as [[Jt|e] s3] eqn:HJt;
      cbn [snd] in Hs3; inversion Hrun; subst r s'.
    + destruct (after_getJ_frame Jt s3 Hp) as (A1 & A2 & A3 & A4 & A5).
      rewrite A1, A2, A3, A4, A5.
      assert (Hfr : count p (trace s3) = count p (trace s) /\
                    storeJ s3 = storeJ s /\ sign s3 = sign s).
      { destruct Hs3 as [-> | ->];
          rewrite ?log_count, ?Hc; cbn [storeJ sign log with_trace];
          rewrite Wc, W1, W2; repeat split; lia. }
      destruct Hfr as (F1 & F2 & F3).
      split; [exact F1|]. split; [exact F2|]. split; [exact F3|].
      split; [intros J1 HJ1; congruence|intros _; discriminate].
    + assert (Hfr : count p (trace s3) = count p (trace s) /\
                    storeJ s3 = storeJ s /\ sign s3 = sign s /\
                    _f s3 = _f s).
      { destruct Hs3 as [-> | ->];
          rewrite ?log_count, ?Hc; cbn [storeJ sign _f log with_trace];
          rewrite Wc, W1, W2, W5; repeat split; lia. }
      destruct Hfr as (F1 & F2 & F3 & F4).
      split; [exact F1|]. split; [exact F2|]. split; [exact F3|].
      split; [intros J1 HJ1; discriminate|rewrite F4; auto].
Qed.

(** [Jvec] with a field at hand. *)
Lemma Jvec_Some_post (p : event -> bool) (n : nat) (m v : vec) (fo : FieldObj)
    (s s' : Simulation) (r : result vec) :
  silent p ->
  Jvec_ E (S (S n)) m v (Some fo) s = (r, s') ->
  count p (trace s') = count p (trace s) /\
  storeJ s' = storeJ s /\ sign s' = sign s /\
  (_f s <> None -> _f s' <> None).
Proof.
  intros Hp Hrun. destruct (storeJ s) eqn:Hs.
  - rewrite Jvec_stored_mode_run in Hrun by exact Hs.
    destruct (getJ_ E (S n) m (Some fo) (with_model (Some m) s))
      as [[J|e] s3] eqn:HJ;
      destruct (@getJ_Some_post p _ _ _ _ _ _ Hp HJ) as (G1 & G2 & G3 & _ & G5);
      inversion Hrun; subst s'; cbn [storeJ sign trace _f with_model] in *;
      repeat split; try congruence; auto.
  - rewrite Jvec_adjoint_run in Hrun by exact Hs.
    inversion Hrun; subst s'. repeat split; auto.
Qed.

(** A [Jvec] call that returned returns the same again on any instance
    that agrees with the one it left on what the call reads. *)
Lemma Jvec_Some_again (n : nat) (m v : vec) (fo fo' : FieldObj)
    (s s3 sB : Simulation) (p : vec) :
  Jvec_ E (S (S n)) m v (Some fo) s = (Ok p, s3) ->
  storeJ sB = storeJ s3 -> sign sB = sign s3 -> Ainv sB = Ainv s3 ->
  receivers sB = receivers s3 -> _Jmatrix sB = _Jmatrix s3 ->
  (storeJ s = false -> fo' = fo) ->
  exists s4,
    Jvec_ E (S (S n)) m v (Some fo') sB = (Ok p, s4) /\
    _f s4 = _f sB /\ Ainv s4 = Ainv sB /\
    count is_factorize (trace s4) = count is_factorize (trace sB).
Proof.
  intros Hrun B1 B2 B3 B4 B5 Hfo. destruct (storeJ s) eqn:Hs.
  - rewrite Jvec_stored_mode_run in Hrun by exact Hs.
    destruct (getJ_ E (S n) m (Some fo) (with_model (Some m) s))
      as [[J|e] s4] eqn:HJ; [|discriminate].
    destruct (@getJ_Some_post is_factorize _ _ _ _ _ _ silent_factorize HJ)
      as (_ & G2 & _ & G4 & _).
    cbn [storeJ with_model] in G2.
    inversion Hrun as [[Hp Hs4]]. subst s4.
    rewrite (@Jvec_stored_run E n m v (Some fo') J sB)
      by (rewrite ?B1, ?B5; auto; congruence).
    rewrite B2, Hp. eexists. split; [reflexivity|].
    destruct (vlog_frame "Calculating J and storing" (with_model (Some m) sB))
      as (_ & _ & _ & W4 & W5 & _).
    rewrite W4, W5, vlog_count by exact silent_factorize.
    repeat split.
  - rewrite Jvec_adjoint_run in Hrun by exact Hs.
    inversion Hrun as [[Hp Hs3]].
    rewrite <- Hs3 in B1, B2, B3, B4.
    cbn [storeJ sign Ainv receivers with_model] in B1, B2, B3, B4.
    rewrite (Hfo eq_refl).
    rewrite Jvec_adjoint_run by congruence.
    rewrite B2, B3, B4, Hp. eexists. split; [reflexivity|].
    repeat split; cbn [Ainv with_model]; congruence.
Qed.

End TraceFacts.

(** ** Anatomy of a successful [fields] call *)

Section FieldsFacts.

Variable E : Externals.

Lemma after_solve_keeps (s : Simulation) :
  storeJ (after_solve E s) = storeJ s /\
  sign (after_solve E s) = sign s /\
  model (after_solve E s) = model s /\
  _Jmatrix (after_solve E s) = _Jmatrix s /\
  _pred (after_solve E s) = _pred s /\
  count is_forward (trace (after_solve E s)) = count is_forward (trace s).
Proof.
  unfold after_solve, vlog.
  destruct s as [vb sj sg dt mdl ai f J p rxs tr]; simpl.
  destruct ai; simpl; destruct (String.eqb dt "apparent_chargeability");
    simpl; try destruct vb; simpl; repeat split;
    rewrite <- ?app_assoc, ?count_app; unfold count; simpl; lia.
Qed.

Lemma before_forward_keeps (s : Simulation) :
  storeJ (before_forward E s) = storeJ s /\
  sign (before_forward E s) = sign s /\
  _Jmatrix (before_forward E s) = _Jmatrix s /\
  count is_forward (trace (before_forward E s)) = count is_forward (trace s) /\
  (exists fo, _f (before_forward E s) = Some fo).
Proof.
  unfold before_forward. cbv zeta.
  destruct (vlog_frame ">> Compute fields" s)
    as (V1 & V2 & V3 & V4 & V5 & V6 & _).
  pose proof (vlog_count ">> Compute fields" s silent_forward) as Vc.
  destruct (_f (vlog ">> Compute fields" s)) as [fo|] eqn:Hf.
  - repeat split; auto. exists fo; auto.
  - destruct (after_solve_keeps (vlog ">> Compute fields" s))
      as (A1 & A2 & A3 & A4 & A5 & A6).
    destruct (after_solve_f E (vlog ">> Compute fields" s)) as [u Hu].
    repeat split; try congruence. exists (Fields u); auto.
Qed.

Lemma fields_inv (n : nat) (m : vec) (s s' : Simulation)
    (f' : option FieldObj) :
  fields_ E (S n) m s = (Ok f', s') ->
  exists fo p s3,
    _f (before_forward E s) = Some fo /\
    forward_ E n m (Some fo) (before_forward E s) = (Ok p, s3) /\
    s' = with_pred (Some p) s3 /\ f' = _f s3.
Proof.
  rewrite fields_run. cbv zeta. fold (before_forward E s).
  destruct (before_forward_keeps s) as (_ & _ & _ & _ & fo & Hfo).
  rewrite Hfo. intros Hrun.
  destruct (forward_ E n m (Some fo) (before_forward E s)) as [[p|e] s3]
    eqn:Hfw; inversion Hrun; subst.
  exists fo, p, s3. repeat split; auto.
Qed.

End FieldsFacts.

(** ** The depth is never exhausted *)

Section NoRecursionError.

Variable E : Externals.

Lemma rbind_finishes {A B : Type} (r : result A) (k : A -> result B) :
  finishes r -> (forall a, finishes (k a)) -> finishes (rbind r k).
Proof.
  unfold finishes. destruct r; simpl; intros Hr Hk; [apply Hk|].
  intros H; apply Hr; congruence.
Qed.

Lemma finishes_retype {A B : Type} (e : error) :
  finishes (@Err A e) -> finishes (@Err B e).
Proof. unfold finishes. intros H H'. apply H. congruence. Qed.

Ltac err_of H := cbn [fst snd]; exact (finishes_retype H).

Ltac break_match :=
  match goal with
  | |- context [match ?x with _ => _ end] => destruct x
  end.

Ltac finish_op := unfold finishes; repeat break_match; discriminate.

Lemma add_finishes (a b : vec) : finishes (add a b).
Proof. unfold add. finish_op. Qed.

Lemma iadd_finishes (a b : vec) : finishes (iadd a b).
Proof. unfold iadd. finish_op. Qed.

Lemma hstack_finishes (l : list vec) : finishes (hstack l).
Proof. unfold hstack. finish_op. Qed.

Lemma sign_mul_finishes (sg : option Z) (x : vec) : finishes (sign_mul sg x).
Proof. unfold sign_mul. finish_op. Qed.

Lemma dot2_finishes (J : ndarray2) (v : vec) : finishes (dot2 J v).
Proof. unfold dot2. finish_op. Qed.

Lemma Ainv_mul_finishes (a : option Factorization) (x : vec) :
  finishes (Ainv_mul E a x).
Proof. unfold Ainv_mul. finish_op. Qed.

Lemma Ainv_mul_cols_finishes (a : option Factorization) (xs : list vec) :
  finishes (Ainv_mul_cols E a xs).
Proof. unfold Ainv_mul_cols. finish_op. Qed.

Lemma from_delayed_finishes (b : bool) (x : vec) :
  finishes (from_delayed b x).
Proof. unfold from_delayed. finish_op. Qed.

Lemma written_raw_finishes {A : Type} (b : bool) (x : A) :
  finishes (written_raw b x).
Proof. unfold written_raw. finish_op. Qed.

Lemma getitem_finishes (f : option FieldObj) (i : nat) : finishes (getitem f i).
Proof. unfold getitem. finish_op. Qed.

Lemma Data_finishes (w : vec) : finishes (Data (survey E) w).
Proof. unfold Data. finish_op. Qed.

Lemma Data_getitem_finishes (d : list (list vec)) (i j : nat) :
  finishes (Data_getitem d i j).
Proof. unfold Data_getitem. finish_op. Qed.

Lemma fit_col_finishes (nr : nat) (x : vec) : finishes (fit_col nr x).
Proof. unfold fit_col. finish_op. Qed.

Lemma fit_cols_finishes (nr : nat) (b : list vec) : finishes (fit_cols nr b).
Proof.
  induction b as [|x b IH]; simpl; [discriminate|].
  apply rbind_finishes; [apply fit_col_finishes|]. intros x'.
  apply rbind_finishes; [exact IH|]. intros; discriminate.
Qed.

Lemma set_col_finishes (b : buffer) (i : nat) (x : vec) :
  finishes (set_col b i x).
Proof.
  unfold set_col. destruct (_ <? _); [|discriminate].
  apply rbind_finishes; [apply fit_col_finishes|]. intros; discriminate.
Qed.

Lemma set_block_finishes (b : buffer) (i j : nat) (bl : list vec) :
  finishes (set_block b i j bl).
Proof.
  unfold set_block. destruct (_ && _); [|discriminate].
  apply rbind_finishes; [apply fit_cols_finishes|]. intros; discriminate.
Qed.

Lemma Jvec_rxs_finishes (rxs : rx_store) (cols : list vec) (src : Src)
    (du v : vec) (l : list Rx) :
  finishes (Jvec_rxs E rxs cols src du v l).
Proof.
  induction l as [|rx l IH]; simpl; [discriminate|].
  destruct (Fields_getattr E (Deriv_name rx)); [|discriminate].
  apply rbind_finishes; [exact IH|]. intros; discriminate.
Qed.

Lemma Jvec_srcs_finishes (a : option Factorization) (mdl : option vec)
    (rxs : rx_store) (f : option FieldObj) (v : vec) :
  forall (l : list Src) (isrc : nat),
    finishes (Jvec_srcs E a mdl rxs f v isrc l).
Proof.
  induction l as [|src l IH]; intros isrc; simpl; [discriminate|].
  apply rbind_finishes; [apply getitem_finishes|]. intros [cols u].
  destruct mdl as [m|]; [|discriminate].
  apply rbind_finishes; [apply from_delayed_finishes|]. intros dA.
  apply rbind_finishes; [apply from_delayed_finishes|]. intros dRHS.
  apply rbind_finishes; [apply add_finishes|]. intros rhs.
  apply rbind_finishes; [apply Ainv_mul_finishes|]. intros du.
  apply rbind_finishes; [apply Jvec_rxs_finishes|]. intros Jv1.
  apply rbind_finishes; [apply IH|]. intros; discriminate.
Qed.

Lemma Jtvec_rx_finishes (a : option Factorization) (mdl : option vec)
    (rxs : rx_store) (cols : list vec) (v : option (list (list vec)))
    (isrc : nat) (src : Src) (u : vec) (irx : nat) (rx : Rx) (acc : Jt_acc v) :
  finishes (Jtvec_rx E a mdl rxs cols v isrc src u irx rx acc).
Proof.
  destruct v as [d|]; cbn [Jtvec_rx].
  - apply rbind_finishes; [apply Data_getitem_finishes|]. intros w.
    destruct (Fields_getattr E (Deriv_name rx)) as [fd|]; [|discriminate].
    destruct (derivT fd src cols _) as [df_duT df_dmT].
    apply rbind_finishes; [apply Ainv_mul_finishes|]. intros z.
    destruct mdl as [m|]; [|discriminate].
    apply rbind_finishes; [apply from_delayed_finishes|]. intros dA.
    apply rbind_finishes; [apply from_delayed_finishes|]. intros dRHS.
    apply rbind_finishes; [apply add_finishes|]. intros x.
    apply rbind_finishes; [apply add_finishes|]. intros y.
    apply iadd_finishes.
  - destruct acc as [Jtv istrt]. destruct (rx_nD rx =? 1).
    + apply rbind_finishes; [apply Ainv_mul_finishes|]. intros z.
      destruct mdl as [m|]; [|discriminate].
      apply rbind_finishes; [apply written_raw_finishes|]. intros x.
      apply rbind_finishes; [apply set_col_finishes|]. intros; discriminate.
    + apply rbind_finishes; [apply Ainv_mul_cols_finishes|]. intros z.
      destruct mdl as [m|]; [|discriminate].
      apply rbind_finishes; [apply written_raw_finishes|]. intros x.
      apply rbind_finishes; [apply set_block_finishes|]. intros; discriminate.
Qed.

Lemma Jtvec_rxs_finishes (a : option Factorization) (mdl : option vec)
    (rxs : rx_store) (cols : list vec) (v : option (list (list vec)))
    (isrc : nat) (src : Src) (u : vec) :
  forall (l : list Rx) (irx : nat) (acc : Jt_acc v),
    finishes (Jtvec_rxs E a mdl rxs cols v isrc src u irx l acc).
Proof.
  induction l as [|rx l IH]; intros irx acc; simpl; [discriminate|].
  apply rbind_finishes; [apply Jtvec_rx_finishes|]. intros acc'. apply IH.
Qed.

Lemma Jtvec_srcs_finishes (a : option Factorization) (mdl : option vec)
    (rxs : rx_store) (sj : bool) (f : option FieldObj)
    (v : option (list (list vec))) :
  forall (l : list Src) (isrc : nat) (acc : Jt_acc v),
    finishes (snd (Jtvec_srcs E a mdl rxs sj f v isrc l acc)).
Proof.
  induction l as [|src l IH]; intros isrc acc; cbn [Jtvec_srcs];
    [discriminate|].
  pose proof (getitem_finishes f isrc) as Hg.
  destruct (getitem f isrc) as [[cols u]|e]; [|err_of Hg].
  pose proof (Jtvec_rxs_finishes a mdl rxs cols v isrc src u (rxList src) 0 acc)
    as Hr.
  destruct (Jtvec_rxs E a mdl rxs cols v isrc src u 0 (rxList src) acc)
    as [acc'|e]; [|err_of Hr].
  specialize (IH (S isrc) acc').
  destruct (Jtvec_srcs E a mdl rxs sj f v (S isrc) l acc') as [out r].
  exact IH.
Qed.

Lemma Jtvec_finishes (m : vec) (v : option vec) (f : option FieldObj)
    (s : Simulation) :
  finishes (fst (_Jtvec E m v f s)).
Proof.
  destruct v as [w|].
  - rewrite Jtvec_dir_run.
    pose proof (Data_finishes w) as Hd.
    destruct (Data (survey E) w) as [d|e]; [|err_of Hd].
    pose proof (Jtvec_srcs_finishes (Ainv s) (model s) (receivers s)
                  (storeJ s) f (Some d) (srcList (survey E)) 0
                  (zeros (length m))) as Hl.
    destruct (Jtvec_srcs _ _ _ _ _ _ _ _ _ _) as [out r]. cbn [fst snd] in *.
    apply rbind_finishes; [exact Hl|]. intros; apply sign_mul_finishes.
  - rewrite Jtvec_full_run.
    destruct (model s) as [m'|] eqn:Hm; [|discriminate].
    rewrite <- Hm.
    pose proof (Jtvec_srcs_finishes (Ainv s) (model s) (receivers s)
                  (storeJ s) f None (srcList (survey E)) 0
                  (zeros2 (length m') (survey_nD (survey E)), 0)) as Hl.
    destruct (Jtvec_srcs _ _ _ _ _ _ _ _ _ _) as [out r]. cbn [fst snd] in *.
    apply rbind_finishes; [exact Hl|]. intros; discriminate.
Qed.

Lemma getJ_Some_finishes (n : nat) (m : vec) (fo : FieldObj) (s : Simulation) :
  finishes (fst (getJ_ E (S n) m (Some fo) s)).
Proof.
  destruct (_Jmatrix s) as [J|] eqn:HJ.
  - rewrite (getJ_cached_run E n m (Some fo) (J := J)) by exact HJ.
    discriminate.
  - rewrite getJ_uncached_run by exact HJ. cbv zeta.
    pose proof (Jtvec_finishes m None (Some fo)
                  (vlog "Calculating J and storing" (with_model (Some m) s)))
      as Hj.
    destruct (_Jtvec E m None (Some fo) _) as [[Jt|e] s3]; [discriminate|].
    err_of Hj.
Qed.

Lemma Jvec_Some_finishes (n : nat) (m v : vec) (fo : FieldObj)
    (s : Simulation) :
  finishes (fst (Jvec_ E (S (S n)) m v (Some fo) s)).
Proof.
  destruct (storeJ s) eqn:Hs.
  - rewrite Jvec_stored_mode_run by exact Hs.
    pose proof (getJ_Some_finishes n m fo (with_model (Some m) s)) as Hg.
    destruct (getJ_ E (S n) m (Some fo) (with_model (Some m) s))
      as [[J|e] s3]; [|err_of Hg].
    cbn [fst]. apply rbind_finishes; [apply dot2_finishes|].
    intros; apply sign_mul_finishes.
  - rewrite Jvec_adjoint_run by exact Hs. cbn [fst].
    apply rbind_finishes; [apply Jvec_srcs_finishes|]. intros Jv.
    apply rbind_finishes; [apply hstack_finishes|].
    intros; apply sign_mul_finishes.
Qed.

Lemma fields_finishes (n : nat) (m : vec) (s : Simulation) :
  finishes (fst (fields_ E (S (S (S (S n)))) m s)).
Proof.
  rewrite fields_run. cbv zeta. fold (before_forward E s).
  destruct (before_forward_keeps E s) as (_ & _ & _ & _ & fo & Hfo).
  rewrite Hfo, forward_run.
  pose proof (Jvec_Some_finishes n m m fo
                (log [CallForward] (before_forward E s))) as Hj.
  destruct (Jvec_ E (S (S n)) m m (Some fo) _) as [[p|e] s3];
    [discriminate|err_of Hj].
Qed.

Lemma getJ_finishes (n : nat) (m : vec) (f : option FieldObj)
    (s : Simulation) :
  finishes (fst (getJ_ E (S (S (S (S (S n))))) m f s)).
Proof.
  destruct f as [fo|]; [apply getJ_Some_finishes|].
  destruct (_Jmatrix s) as [J|] eqn:HJ.
  - rewrite (getJ_cached_run E _ m None (J := J)) by exact HJ. discriminate.
  - rewrite getJ_uncached_run by exact HJ. cbv zeta.
    pose proof (fields_finishes n m
                  (vlog "Calculating J and storing" (with_model (Some m) s)))
      as Hf.
    destruct (fields_ E (S (S (S (S n)))) m _) as [[f'|e] s2]; [|err_of Hf].
    pose proof (Jtvec_finishes m None f' s2) as Hj.
    destruct (_Jtvec E m None f' s2) as [[Jt|e] s3]; [discriminate|err_of Hj].
Qed.

Lemma Jvec_finishes (m v : vec) (f : option FieldObj) (s : Simulation) :
  finishes (fst (Jvec E m v f s)).
Proof.
  unfold Jvec, depth. destruct f as [fo|]; [apply Jvec_Some_finishes|].
  destruct (storeJ s) eqn:Hs.
  - rewrite Jvec_stored_mode_run by exact Hs.
    pose proof (getJ_finishes 2 m None (with_model (Some m) s)) as Hg.
    destruct (getJ_ E 7 m None (with_model (Some m) s)) as [[J|e] s3];
      [|err_of Hg].
    cbn [fst]. apply rbind_finishes; [apply dot2_finishes|].
    intros; apply sign_mul_finishes.
  - rewrite Jvec_adjoint_None_run by exact Hs.
    pose proof (fields_finishes 3 m (with_model (Some m) s)) as Hf.
    destruct (fields_ E 7 m (with_model (Some m) s)) as [[f'|e] s2];
      [|err_of Hf].
    cbn [fst]. apply rbind_finishes; [apply Jvec_srcs_finishes|]. intros Jv.
    apply rbind_finishes; [apply hstack_finishes|].
    intros; apply sign_mul_finishes.
Qed.

Lemma Jtvec_public_finishes (m w : vec) (f : option FieldObj)
    (s : Simulation) :
  finishes (fst (Jtvec E m w f s)).
Proof.
  unfold Jtvec. unfold bind at 1, gets at 1.
  destruct (storeJ s) eqn:Hs.
  - unfold bind at 1. unfold getJ, depth.
    pose proof (getJ_finishes 3 m f s) as Hg.
    destruct (getJ_ E 8 m f s) as [[J|e] s3]; [|err_of Hg].
    unfold bind, lift, gets.
    pose proof (dot2_finishes (T J) w) as Hd.
    destruct (dot2 (T J) w); [|err_of Hd]. cbn [fst].
    apply sign_mul_finishes.
  - unfold bind at 1. rewrite set_model_run. unfold bind at 1.
    destruct f as [fo|].
    + unfold ret.
      exact (Jtvec_finishes m (Some w) (Some fo) (with_model (Some m) s)).
    + unfold fields, depth.
      pose proof (fields_finishes 4 m (with_model (Some m) s)) as Hf.
      destruct (fields_ E 8 m (with_model (Some m) s)) as [[f'|e] s2];
        [|err_of Hf].
      exact (Jtvec_finishes m (Some w) f' s2).
Qed.

Lemma dpred_finishes (m : vec) (f : option FieldObj) (s : Simulation) :
  finishes (fst (dpred E m f s)).
Proof.
  unfold dpred. destruct f as [fo|]; [discriminate|].
  unfold bind, gets, fields, depth.
  pose proof (fields_finishes 4 m s) as Hf.
  destruct (fields_ E 8 m s) as [[f'|e] s2]; [discriminate|err_of Hf].
Qed.

End NoRecursionError.

(** ** Explicit storage on a fresh instance

    With [storeJ] set and nothing cached, [getJ(m)] asks [fields] for the
    field object; [fields] runs [forward], which computes and stores the
    matrix and empties the field object; the outer [getJ] then assembles
    a second time from the empty list and fails. *)
Example fresh_storeJ_getJ_raises :
  fst (getJ (Toy.plain false) Toy.m0 None
         (Problem3D_CC_init false true "volt"))
  = Err TypeError /\
  fst (Jvec (Toy.plain false) Toy.m0 [1; 2]%Z None
         (Problem3D_CC_init false true "volt")) = Err TypeError.
Proof. split; vm_compute; reflexivity. Qed.

(** ** What the methods keep *)

Section Kept.

Variable E : Externals.

Lemma kept_refl (s : Simulation) : kept s s.
Proof. repeat split. Qed.

Lemma kept_trans (s1 s2 s3 : Simulation) :
  kept s1 s2 -> kept s2 s3 -> kept s1 s3.
Proof.
  unfold kept. intros (A1 & A2 & A3 & A4 & A5) (B1 & B2 & B3 & B4 & B5).
  repeat split; congruence.
Qed.

Lemma kept_vlog (msg : string) (s : Simulation) : kept s (vlog msg s).
Proof.
  unfold kept, vlog. destruct (verbose s) eqn:Hv; repeat split; exact Hv.
Qed.

Lemma kept_log (evs : list event) (s : Simulation) : kept s (log evs s).
Proof. repeat split. Qed.

Lemma kept_with_model (x : option vec) (s : Simulation) :
  kept s (with_model x s).
Proof. repeat split. Qed.

Lemma kept_with_pred (x : option vec) (s : Simulation) :
  kept s (with_pred x s).
Proof. repeat split. Qed.

Lemma kept_after_getJ (Jt : ndarray2) (s : Simulation) :
  kept s (after_getJ Jt s).
Proof.
  unfold after_getJ, kept.
  destruct s as [vb sj sg dt mdl ai f J pr rxs tr]; simpl.
  destruct ai; repeat split.
Qed.

(** [_Jtvec] assigns nothing but console output. *)
Lemma Jtvec_keeps (m : vec) (v : option vec) (f : option FieldObj)
    (s : Simulation) :
  kept s (snd (_Jtvec E m v f s)) /\
  model (snd (_Jtvec E m v f s)) = model s /\
  Ainv (snd (_Jtvec E m v f s)) = Ainv s /\
  _f (snd (_Jtvec E m v f s)) = _f s /\
  _Jmatrix (snd (_Jtvec E m v f s)) = _Jmatrix s /\
  _pred (snd (_Jtvec E m v f s)) = _pred s.
Proof.
  destruct (Jtvec_frame E m v f s) as (out & _ & [H | H]); rewrite H;
    repeat split.
Qed.

Lemma getJ_Some_kept (n : nat) (m : vec) (fo : FieldObj) (s s' : Simulation)
    (r : result ndarray2) :
  getJ_ E (S n) m (Some fo) s = (r, s') -> kept s s'.
Proof.
  intros Hrun.
  pose proof (kept_trans (kept_with_model (Some m) s)
                (kept_vlog "Calculating J and storing" (with_model (Some m) s)))
    as K1.
  destruct (_Jmatrix s) as [J0|] eqn:HJ.
  - rewrite (getJ_cached_run E n m (Some fo) (J := J0)) in Hrun by exact HJ.
    inversion Hrun; subst. exact K1.
  - rewrite getJ_uncached_run in Hrun by exact HJ. cbv zeta in Hrun.
    destruct (Jtvec_keeps m None (Some fo)
                (vlog "Calculating J and storing" (with_model (Some m) s)))
      as (K2 & _).
    destruct (_Jtvec E m None (Some fo) _) as [[Jt|e] s3];
      cbn [snd] in K2; inversion Hrun; subst.
    + exact (kept_trans (kept_trans K1 K2) (kept_after_getJ Jt s3)).
    + exact (kept_trans K1 K2).
Qed.

Lemma Jvec_Some_kept (n : nat) (m v : vec) (fo : FieldObj) (s s' : Simulation)
    (r : result vec) :
  Jvec_ E (S (S n)) m v (Some fo) s = (r, s') -> kept s s'.
Proof.
  intros Hrun. destruct (storeJ s) eqn:Hs.
  - rewrite Jvec_stored_mode_run in Hrun by exact Hs.
    destruct (getJ_ E (S n) m (Some fo) (with_model (Some m) s))
      as [[J|e] s3] eqn:HJ;
      pose proof (getJ_Some_kept _ _ _ _ HJ) as K;
      inversion Hrun; subst;
      exact (kept_trans (kept_with_model (Some m) s) K).
  - rewrite Jvec_adjoint_run in Hrun by exact Hs.
    inversion Hrun; subst. apply kept_with_model.
Qed.

Lemma kept_after_solve (s : Simulation) :
  verbose (after_solve E s) = verbose s /\
  storeJ (after_solve E s) = storeJ s /\
  sign (after_solve E s) = sign s /\
  data_type (after_solve E s) = data_type s.
Proof.
  unfold after_solve, vlog.
  destruct s as [vb sj sg dt mdl ai f J p rxs tr]; simpl.
  destruct ai; simpl; destruct (String.eqb dt "apparent_chargeability");
    simpl; try destruct vb; repeat split.
Qed.

(** [fields] keeps the configuration, and the receivers too when the
    field object is already there. *)
Lemma fields_keeps (n : nat) (m : vec) (s s' : Simulation)
    (r : result (option FieldObj)) :
  fields_ E (S (S (S (S n)))) m s = (r, s') ->
  verbose s' = verbose s /\ storeJ s' = storeJ s /\ sign s' = sign s /\
  data_type s' = data_type s /\
  (_f s <> None -> receivers s' = receivers s).
Proof.
  rewrite fields_run. cbv zeta. fold (before_forward E s).
  destruct (before_forward_keeps E s) as (_ & _ & _ & _ & fo & Hfo).
  rewrite Hfo, forward_run. intros Hrun.
  assert (Kb : verbose (before_forward E s) = verbose s /\
               storeJ (before_forward E s) = storeJ s /\
               sign (before_forward E s) = sign s /\
               data_type (before_forward E s) = data_type s /\
               (_f s <> None ->
                receivers (before_forward E s) = receivers s)).
  { unfold before_forward. cbv zeta.
    destruct (kept_vlog ">> Compute fields" s) as (V1 & V2 & V3 & V4 & V5).
    destruct (vlog_frame ">> Compute fields" s) as (_ & _ & _ & _ & W5 & _).
    destruct (_f (vlog ">> Compute fields" s)) eqn:Hf.
    - repeat split; auto.
    - destruct (kept_after_solve (vlog ">> Compute fields" s))
        as (A1 & A2 & A3 & A4).
      repeat split; try congruence. }
  destruct Kb as (B1 & B2 & B3 & B4 & B5).
  destruct (Jvec_ E (S (S n)) m m (Some fo)
              (log [CallForward] (before_forward E s)))
    as [[p|e] s3] eqn:HJ;
    destruct (Jvec_Some_kept _ _ _ _ _ HJ) as (K1 & K2 & K3 & K4 & K5);
    cbn [verbose storeJ sign data_type receivers log with_trace] in *;
    inversion Hrun; subst;
    cbn [verbose storeJ sign data_type receivers with_pred];
    repeat split; try congruence;
    intros Hnn; rewrite K5; auto.
Qed.

End Kept.

(** ** [getJ] in general *)

Section GetJFacts.

Variable E : Externals.

Lemma getJ_keeps (n : nat) (m : vec) (f : option FieldObj) (s s' : Simulation)
    (r : result ndarray2) :
  getJ_ E (S (S (S (S (S n))))) m f s = (r, s') ->
  verbose s' = verbose s /\ storeJ s' = storeJ s /\ sign s' = sign s /\
  data_type s' = data_type s.
Proof.
  intros Hrun. destruct f as [fo|].
  - destruct (getJ_Some_kept E _ _ _ _ Hrun) as (K1 & K2 & K3 & K4 & _).
    repeat split; assumption.
  - pose proof (kept_trans (kept_with_model (Some m) s)
                  (kept_vlog "Calculating J and storing"
                     (with_model (Some m) s))) as (V1 & V2 & V3 & V4 & _).
    destruct (_Jmatrix s) as [J0|] eqn:HJ.
    + rewrite (getJ_cached_run E _ m None (J := J0)) in Hrun by exact HJ.
      inversion Hrun; subst. repeat split; assumption.
    + rewrite getJ_uncached_run in Hrun by exact HJ. cbv zeta in Hrun.
      destruct (fields_ E (S (S (S (S n)))) m _) as [[f'|e] s2] eqn:Hf;
        destruct (fields_keeps E _ _ _ Hf) as (F1 & F2 & F3 & F4 & _).
      * destruct (Jtvec_keeps E m None f' s2) as ((K1 & K2 & K3 & K4 & _) & _).
        destruct (_Jtvec E m None f' s2) as [[Jt|e] s3]; cbn [snd] in *;
          inversion Hrun; subst.
        -- destruct (kept_after_getJ Jt s3) as (A1 & A2 & A3 & A4 & _).
           repeat split; congruence.
        -- repeat split; congruence.
      * inversion Hrun; subst. repeat split; congruence.
Qed.

(** A [getJ] that returns has stored what it returns; if it had to
    assemble, it has emptied the field object and released the
    factorisation. *)
Lemma getJ_post (n : nat) (m : vec) (f : option FieldObj) (s s1 : Simulation)
    (J : ndarray2) :
  getJ_ E (S n) m f s = (Ok J, s1) ->
  _Jmatrix s1 = Some J /\
  (_Jmatrix s = None ->
   _f s1 = Some EmptyList /\
   (Ainv s1 = None \/ exists fa, Ainv s1 = Some fa /\ cleaned fa = true)).
Proof.
  intros Hrun. destruct (_Jmatrix s) as [J0|] eqn:HJ.
  - rewrite (getJ_cached_run E n m f (J := J0)) in Hrun by exact HJ.
    inversion Hrun; subst.
    destruct (vlog_frame "Calculating J and storing" (with_model (Some m) s))
      as (_ & _ & _ & _ & _ & W6 & _).
    rewrite W6. split; [exact HJ|discriminate].
  - rewrite getJ_uncached_run in Hrun by exact HJ. cbv zeta in Hrun.
    destruct (match f with
              | Some _ => _
              | None => _
              end) as [[f'|e] s2]; [|discriminate].
    destruct (_Jtvec E m None f' s2) as [[Jt|e] s3]; [|discriminate].
    inversion Hrun; subst. unfold after_getJ.
    destruct s3 as [vb sj sg dt mdl ai f0 J0 pr rxs tr]; simpl.
    destruct ai as [fa|]; simpl; split; auto; intros _; split; auto.
    right. exists (clean fa). split; reflexivity.
Qed.

End GetJFacts.

(** ** Loops over an emptied field object *)

Lemma Jvec_srcs_EmptyList (E : Externals) (a : option Factorization)
    (mdl : option vec) (rxs : rx_store) (v : vec) (isrc : nat) (l : list Src) :
  l <> [] ->
  Jvec_srcs E a mdl rxs (Some EmptyList) v isrc l = Err TypeError.
Proof. destruct l; [congruence|reflexivity]. Qed.

Lemma Jtvec_srcs_EmptyList (E : Externals) (a : option Factorization)
    (mdl : option vec) (rxs : rx_store) (sj : bool)
    (v : option (list (list vec))) (isrc : nat) (l : list Src)
    (acc : Jt_acc v) :
  l <> [] ->
  Jtvec_srcs E a mdl rxs sj (Some EmptyList) v isrc l acc = ([], Err TypeError).
Proof. destruct l; [congruence|reflexivity]. Qed.

(** The progress lines of a loop over the sources that came to its end. *)
Lemma Jtvec_srcs_progress (E : Externals) (a : option Factorization)
    (mdl : option vec) (rxs : rx_store) (sj : bool) (f : option FieldObj)
    (v : option (list (list vec))) :
  forall (l : list Src) (isrc : nat) (acc acc' : Jt_acc v) (out : list event),
    Jtvec_srcs E a mdl rxs sj f v isrc l acc = (out, Ok acc') ->
    out = if sj
          then map (fun i => Progress (i + 1) (survey_nSrc (survey E)))
                 (seq isrc (length l))
          else [].
Proof.
  induction l as [|src l IH]; intros isrc acc acc' out Hrun;
    cbn [Jtvec_srcs] in Hrun.
  - inversion Hrun; subst. destruct sj; reflexivity.
  - destruct (getitem f isrc) as [[cols u]|e]; [|discriminate].
    destruct (Jtvec_rxs E a mdl rxs cols v isrc src u 0 (rxList src) acc)
      as [acc1|e]; [|discriminate].
    destruct (Jtvec_srcs E a mdl rxs sj f v (S isrc) l acc1) as [out' r]
      eqn:Hrest.
    inversion Hrun; subst.
    rewrite (IH _ _ _ _ Hrest). destruct sj; reflexivity.
Qed.

(** ** Calls on an instance whose field object was emptied, or without sign *)

Section EdgeRuns.

Variable E : Externals.

Lemma fields_emptied (n : nat) (m : vec) (s : Simulation) :
  storeJ s = false -> _f s = Some EmptyList ->
  srcList (survey E) <> [] ->
  fst (fields_ E (S (S (S n))) m s) = Err TypeError.
Proof.
  intros Hs Hf Hne. rewrite fields_run. cbv zeta.
  destruct (vlog_frame ">> Compute fields" s) as (V1 & _ & _ & _ & V5 & _).
  rewrite V5, Hf. rewrite V5, Hf.
  rewrite forward_run, Jvec_adjoint_run
    by (cbn [storeJ log with_trace]; congruence).
  rewrite Jvec_srcs_EmptyList by exact Hne. reflexivity.
Qed.

Lemma sign_mul_None (x y : vec) : sign_mul None x = Ok y -> y = [].
Proof. destruct x; cbn; intros H; inversion H; reflexivity. Qed.

Lemma rbind_sign_mul_None (r : result vec) (y : vec) :
  rbind r (sign_mul None) = Ok y -> y = [].
Proof. destruct r as [x|e]; cbn [rbind]; [apply sign_mul_None|discriminate]. Qed.

Lemma Jvec_Some_no_sign (n : nat) (m v : vec) (fo : FieldObj)
    (s s' : Simulation) (x : vec) :
  sign s = None -> Jvec_ E (S (S n)) m v (Some fo) s = (Ok x, s') -> x = [].
Proof.
  intros Hsg Hrun. destruct (storeJ s) eqn:Hs.
  - rewrite Jvec_stored_mode_run in Hrun by exact Hs.
    destruct (getJ_ E (S n) m (Some fo) (with_model (Some m) s))
      as [[J|e] s3] eqn:HJ; [|discriminate].
    destruct (getJ_Some_kept E _ _ _ _ HJ) as (_ & _ & K3 & _).
    cbn [sign with_model] in K3. rewrite K3, Hsg in Hrun.
    inversion Hrun as [[Hr Hst]]. exact (rbind_sign_mul_None _ Hr).
  - rewrite Jvec_adjoint_run in Hrun by exact Hs.
    rewrite Hsg in Hrun. inversion Hrun as [[Hr Hst]].
    destruct (Jvec_srcs _ _ _ _ _ _ _ _) as [Jv|e]; [|discriminate].
    cbn [rbind] in Hr. exact (rbind_sign_mul_None _ Hr).
Qed.

Lemma fields_no_sign (n : nat) (m : vec) (s s' : Simulation)
    (f' : option FieldObj) :
  sign s = None -> fields_ E (S (S (S (S n)))) m s = (Ok f', s') ->
  _pred s' = Some [].
Proof.
  intros Hsg Hrun.
  destruct (@fields_inv E _ _ _ _ _ Hrun) as (fo & p & s3 & _ & Hfw & -> & _).
  rewrite forward_run in Hfw.
  destruct (before_forward_keeps E s) as (_ & B2 & _).
  apply Jvec_Some_no_sign in Hfw.
  - subst p. reflexivity.
  - cbn [sign log with_trace]. congruence.
Qed.

End EdgeRuns.

(** ** Linearity of the two sensitivity products *)

Section LinearAlgebra.

Local Open Scope Z_scope.

Lemma vec_ext_dot :
  forall p q : vec,
    length p = length q ->
    (forall w, length w = length p -> dot w p = dot w q) ->
    p = q.
Proof.
  induction p as [|x p IH]; intros [|y q] Hl H; simpl in Hl;
    try discriminate; auto.
  f_equal.
  - specialize (H (1 :: zeros (length p))). cbn [dot length] in H.
    rewrite length_zeros in H. rewrite !dot_zeros_l in H.
    specialize (H eq_refl). lia.
  - apply IH; [lia|]. intros w Hw.
    specialize (H (0 :: w)). cbn [dot length] in H.
    rewrite Hw in H. specialize (H eq_refl). lia.
Qed.

Lemma length_lin2 (a b : Z) (x y : vec) :
  length x = length y -> length (lin2 a x b y) = length x.
Proof.
  intros H. unfold lin2. rewrite length_zip_add; rewrite !length_scale; auto.
Qed.

Lemma dot_lin2_l (a b : Z) (x y z : vec) :
  length x = length y ->
  dot (lin2 a x b y) z = a * dot x z + b * dot y z.
Proof.
  intros H. unfold lin2.
  rewrite dot_zip_add_l by (rewrite !length_scale; auto).
  rewrite !dot_scale_l. reflexivity.
Qed.

Lemma dot_lin2_r (a b : Z) (x y z : vec) :
  length x = length y ->
  dot z (lin2 a x b y) = a * dot z x + b * dot z y.
Proof.
  intros H. rewrite dot_comm, dot_lin2_l by auto.
  rewrite (dot_comm x), (dot_comm y). reflexivity.
Qed.

Lemma scale_lin2 (sg a b : Z) :
  forall p q : vec,
    scale sg (lin2 a p b q) = lin2 a (scale sg p) b (scale sg q).
Proof.
  induction p as [|x p IH]; intros [|y q]; try reflexivity.
  unfold lin2, scale in *. simpl. f_equal; [lia|]. apply IH.
Qed.

Lemma map_dot_lin2 (cols : list vec) (a b : Z) (x y : vec) :
  length x = length y ->
  map (fun c => dot c (lin2 a x b y)) cols =
  lin2 a (map (fun c => dot c x) cols) b (map (fun c => dot c y) cols).
Proof.
  intros H. induction cols as [|c cols IH]; [reflexivity|].
  unfold lin2, scale in *. simpl. rewrite <- IH. f_equal.
  fold (scale a x). fold (scale b y). fold (lin2 a x b y).
  apply dot_lin2_r. exact H.
Qed.

Lemma lincomb_lin2 (nr : nat) (cols : list vec) (a b : Z) (x y : vec) :
  Forall (fun c => length c = nr) cols ->
  length x = length y ->
  lincomb nr cols (lin2 a x b y) =
  lin2 a (lincomb nr cols x) b (lincomb nr cols y).
Proof.
  intros HF H. apply vec_ext_dot.
  - rewrite length_lin2; rewrite !length_lincomb; auto.
  - intros w Hw. rewrite dot_lin2_r by (rewrite !length_lincomb; auto).
    rewrite !(dot_comm w), !dot_lincomb by auto.
    apply dot_lin2_l. exact H.
Qed.

End LinearAlgebra.

Section LinearLoops.

Variable E : Externals.
Variables nC nU : nat.
Variable nP : Rx -> nat.
Hypothesis HC : Contracts E nC nU nP.

Variable rxs : rx_store.
Variable cols : list vec.
Variable m : vec.
Hypothesis Hm : length m = nC.
Hypothesis Hcols : length cols = survey_nSrc (survey E).

Local Open Scope Z_scope.

Lemma loops_adjoint_nD (sj : bool) (v w : vec) :
  length v = nC ->
  length w = survey_nD (survey E) ->
  exists Jv d out acc,
    Data (survey E) w = Ok d /\
    Jvec_srcs E (factorized E) (Some m) rxs (Some (Fields cols)) v 0
      (srcList (survey E)) = Ok Jv /\
    Jtvec_srcs E (factorized E) (Some m) rxs sj (Some (Fields cols)) (Some d)
      0 (srcList (survey E)) (zeros (length m)) = (out, Ok acc) /\
    length Jv = length (concat (map rxList (srcList (survey E)))) /\
    length (concat Jv) = survey_nD (survey E) /\
    length acc = nC /\
    dot w (concat Jv) = dot v acc.
Proof.
  intros Hv Hw.
  destruct (Data_srcs_spec (srcList (survey E)) w Hw) as [HF Hcat].
  destruct (@src_loop_adjoint E nC nU nP HC rxs cols m v Hm Hv sj
              (Data_srcs (srcList (survey E)) w)
              (srcList (survey E)) 0 (Data_srcs (srcList (survey E)) w)
              (zeros nC))
    as (Jv & out & acc & HJv & HJt & Hl & HlJ & Hc & Hdot); auto.
  { unfold survey_nSrc in Hcols; simpl; lia. }
  { apply length_zeros. }
  exists Jv, (Data_srcs (srcList (survey E)) w), out, acc.
  repeat split; auto.
  - unfold Data. rewrite Hw, Nat.eqb_refl. reflexivity.
  - rewrite Hm. exact HJt.
  - rewrite Hc, Hcat. exact Hw.
  - rewrite dot_zeros_l, Hcat in Hdot. rewrite (dot_comm v acc). lia.
Qed.

Lemma Jvec_srcs_linear (a b : Z) (x y : vec) :
  length x = nC -> length y = nC ->
  exists Jx Jy Jxy,
    Jvec_srcs E (factorized E) (Some m) rxs (Some (Fields cols)) x 0
      (srcList (survey E)) = Ok Jx /\
    Jvec_srcs E (factorized E) (Some m) rxs (Some (Fields cols)) y 0
      (srcList (survey E)) = Ok Jy /\
    Jvec_srcs E (factorized E) (Some m) rxs (Some (Fields cols))
      (lin2 a x b y) 0 (srcList (survey E)) = Ok Jxy /\
    length Jx = length (concat (map rxList (srcList (survey E)))) /\
    length Jy = length (concat (map rxList (srcList (survey E)))) /\
    length Jxy = length (concat (map rxList (srcList (survey E)))) /\
    concat Jxy = lin2 a (concat Jx) b (concat Jy).
Proof.
  intros Hx Hy.
  assert (Hxy : length (lin2 a x b y) = nC)
    by (rewrite length_lin2; congruence).
  pose (w0 := zeros (survey_nD (survey E))).
  assert (Hw0 : length w0 = survey_nD (survey E)) by apply length_zeros.
  destruct (loops_adjoint_nD false x w0 Hx Hw0)
    as (Jx & _ & _ & _ & _ & HJx & _ & HlJx & Hcx & _).
  destruct (loops_adjoint_nD false y w0 Hy Hw0)
    as (Jy & _ & _ & _ & _ & HJy & _ & HlJy & Hcy & _).
  destruct (loops_adjoint_nD false (lin2 a x b y) w0 Hxy Hw0)
    as (Jxy & _ & _ & _ & _ & HJxy & _ & HlJxy & Hcxy & _).
  exists Jx, Jy, Jxy. repeat split; auto.
  apply vec_ext_dot.
  - rewrite length_lin2; congruence.
  - intros w Hw. rewrite Hcxy in Hw.
    destruct (loops_adjoint_nD false x w Hx Hw)
      as (Jx' & d & out & acc & Hd & HJx' & HJt & _ & _ & Hacc & Hdx).
    destruct (loops_adjoint_nD false y w Hy Hw)
      as (Jy' & d2 & out2 & acc2 & Hd2 & HJy' & HJt2 & _ & _ & _ & Hdy).
    destruct (loops_adjoint_nD false (lin2 a x b y) w Hxy Hw)
      as (Jxy' & d3 & out3 & acc3 & Hd3 & HJxy' & HJt3 & _ & _ & _ & Hdxy).
    assert (d2 = d) by congruence. subst d2.
    assert (d3 = d) by congruence. subst d3.
    assert (acc2 = acc) by congruence. subst acc2.
    assert (acc3 = acc) by congruence. subst acc3.
    assert (Jx' = Jx) by congruence. subst Jx'.
    assert (Jy' = Jy) by congruence. subst Jy'.
    assert (Jxy' = Jxy) by congruence. subst Jxy'.
    rewrite Hdxy, dot_lin2_l by congruence.
    rewrite dot_lin2_r by congruence. rewrite Hdx, Hdy. reflexivity.
Qed.

Lemma Jtvec_srcs_linear (sj : bool) (a b : Z) (w1 w2 : vec) :
  length w1 = survey_nD (survey E) -> length w2 = survey_nD (survey E) ->
  exists d1 d2 d12 out1 out2 out12 a1 a2 a12,
    Data (survey E) w1 = Ok d1 /\
    Data (survey E) w2 = Ok d2 /\
    Data (survey E) (lin2 a w1 b w2) = Ok d12 /\
    Jtvec_srcs E (factorized E) (Some m) rxs sj (Some (Fields cols)) (Some d1)
      0 (srcList (survey E)) (zeros (length m)) = (out1, Ok a1) /\
    Jtvec_srcs E (factorized E) (Some m) rxs sj (Some (Fields cols)) (Some d2)
      0 (srcList (survey E)) (zeros (length m)) = (out2, Ok a2) /\
    Jtvec_srcs E (factorized E) (Some m) rxs sj (Some (Fields cols))
      (Some d12) 0 (srcList (survey E)) (zeros (length m)) = (out12, Ok a12) /\
    a12 = lin2 a a1 b a2.
Proof.
  intros H1 H2.
  assert (H12 : length (lin2 a w1 b w2) = survey_nD (survey E))
    by (rewrite length_lin2; congruence).
  pose (v0 := zeros nC).
  assert (Hv0 : length v0 = nC) by apply length_zeros.
  destruct (loops_adjoint_nD sj v0 w1 Hv0 H1)
    as (_ & d1 & out1 & a1 & Hd1 & _ & HJ1 & _ & _ & Hl1 & _).
  destruct (loops_adjoint_nD sj v0 w2 Hv0 H2)
    as (_ & d2 & out2 & a2 & Hd2 & _ & HJ2 & _ & _ & Hl2 & _).
  destruct (loops_adjoint_nD sj v0 (lin2 a w1 b w2) Hv0 H12)
    as (_ & d12 & out12 & a12 & Hd12 & _ & HJ12 & _ & _ & Hl12 & _).
  exists d1, d2, d12, out1, out2, out12, a1, a2, a12. repeat split; auto.
  apply vec_ext_dot.
  - rewrite length_lin2; congruence.
  - intros v Hv. rewrite Hl12 in Hv.
    destruct (loops_adjoint_nD sj v w1 Hv H1)
      as (Jv & d1' & o1 & a1' & Hd1' & HJv & HJ1' & _ & Hc & _ & Hdot1).
    destruct (loops_adjoint_nD sj v w2 Hv H2)
      as (Jv2 & d2' & o2 & a2' & Hd2' & HJv2 & HJ2' & _ & _ & _ & Hdot2).
    destruct (loops_adjoint_nD sj v (lin2 a w1 b w2) Hv H12)
      as (Jv3 & d3' & o3 & a3' & Hd3' & HJv3 & HJ3' & _ & _ & _ & Hdot3).
    assert (d1' = d1) by congruence. subst d1'.
    assert (d2' = d2) by congruence. subst d2'.
    assert (d3' = d12) by congruence. subst d3'.
    assert (a1' = a1) by congruence. subst a1'.
    assert (a2' = a2) by congruence. subst a2'.
    assert (a3' = a12) by congruence. subst a3'.
    assert (Jv2 = Jv) by congruence. subst Jv2.
    assert (Jv3 = Jv) by congruence. subst Jv3.
    rewrite <- Hdot3, dot_lin2_l by congruence.
    rewrite dot_lin2_r by congruence. rewrite Hdot1, Hdot2. reflexivity.
Qed.

End LinearLoops.

Section AdjointResults.

Variable E : Externals.
Variables nC nU : nat.
Variable nP : Rx -> nat.
Hypothesis HC : Contracts E nC nU nP.
Hypothesis Hr : has_receiver (survey E).

Variable m : vec.
Hypothesis Hm : length m = nC.
Variable sg : Z.
Variable s : Simulation.
Hypothesis Hs : storeJ s = false.
Hypothesis Hsg : sign s = Some sg.
Hypothesis Hready : ready E s.

Lemma Jvec_adjoint_result :
  exists cols s1,
    length cols = survey_nSrc (survey E) /\
    forall v, length v = nC ->
      exists Jv,
        Jvec_srcs E (factorized E) (Some m) (receivers s1)
          (Some (Fields cols)) v 0 (srcList (survey E)) = Ok Jv /\
        length Jv = length (concat (map rxList (srcList (survey E)))) /\
        Jvec E m v None s = (Ok (scale sg (concat Jv)), s1).
Proof.
  destruct (@fields_adjoint_run E nC nU nP HC 4 m sg (with_model (Some m) s))
    as (cols & s1 & Hf1 & Hfs1 & Hlen & HA1 & Hs1 & Hsg1 & Hm1 & _ & _);
    auto.
  exists cols, s1. split; [exact Hlen|]. intros v Hv.
  destruct (@Jvec_srcs_ok E nC nU nP HC (receivers s1) cols m v Hm Hv Hlen)
    as (Jv & HJv & HlJ).
  exists Jv. split; [exact HJv|]. split; [exact HlJ|].
  unfold Jvec, depth. rewrite Jvec_adjoint_None_run by exact Hs.
  rewrite Hf1, HA1, Hm1, HJv. cbn [rbind].
  rewrite (@hstack_ok E Jv Hr HlJ). cbn [rbind]. rewrite Hsg1. reflexivity.
Qed.

Lemma Jtvec_adjoint_result :
  exists cols s1,
    length cols = survey_nSrc (survey E) /\
    forall w, length w = survey_nD (survey E) ->
      exists d out acc,
        Data (survey E) w = Ok d /\
        Jtvec_srcs E (factorized E) (Some m) (receivers s1) false
          (Some (Fields cols)) (Some d) 0 (srcList (survey E))
          (zeros (length m)) = (out, Ok acc) /\
        length acc = nC /\
        Jtvec E m w None s = (Ok (scale sg acc), log out s1).
Proof.
  destruct (@fields_adjoint_run E nC nU nP HC 5 m sg (with_model (Some m) s))
    as (cols & s1 & Hf1 & Hfs1 & Hlen & HA1 & Hs1 & Hsg1 & Hm1 & _ & _);
    auto.
  exists cols, s1. split; [exact Hlen|]. intros w Hw.
  destruct (@loops_adjoint_nD E nC nU nP HC (receivers s1) cols m Hm Hlen
              false (zeros nC) w (length_zeros nC) Hw)
    as (_ & d & out & acc & Hd & _ & HJt & _ & _ & Hacc & _).
  exists d, out, acc. repeat split; auto.
  rewrite Jtvec_adjoint_None_run by exact Hs.
  unfold fields, depth. rewrite Hf1. rewrite Jtvec_dir_run, Hd.
  rewrite HA1, Hm1, Hs1, HJt. cbn [rbind]. rewrite Hsg1. reflexivity.
Qed.

End AdjointResults.

(** ** The adjoint loop against the columns of the full matrix *)

Section TransposeDense.

Variable E : Externals.
Variables nC nU : nat.
Variable nP : Rx -> nat.
Hypothesis HC : Contracts E nC nU nP.
Hypothesis HI : IPContracts E nC nU.

Variable rxs : rx_store.
Variable cols : list vec.
Variable m : vec.
Hypothesis Hm : length m = nC.
Hypothesis Hcols : length cols = survey_nSrc (survey E).

Lemma Jtvec_srcs_dense (sj : bool) (w : vec) :
  length w = survey_nD (survey E) ->
  exists d out,
    Data (survey E) w = Ok d /\
    Jtvec_srcs E (factorized E) (Some m) rxs sj (Some (Fields cols)) (Some d)
      0 (srcList (survey E)) (zeros (length m))
    = (out, Ok (lincomb nC (Jt_columns E m rxs (srcList (survey E)) cols) w)).
Proof.
  intros Hw.
  assert (HF : Forall (fun c => length c = nC)
                 (Jt_columns E m rxs (srcList (survey E)) cols))
    by (apply (@Jt_columns_cols E nC nU (solve_len HC) (dAT_len HC)
                 (getP_len HI) rxs m Hm); auto).
  destruct (@loops_adjoint_nD E nC nU nP HC rxs cols m Hm Hcols sj
              (zeros nC) w (length_zeros nC) Hw)
    as (_ & d & out & acc & Hd & _ & HJt & _ & _ & Hacc & _).
  exists d, out. split; [exact Hd|]. rewrite HJt. do 2 f_equal.
  apply vec_ext_dot.
  - rewrite length_lincomb; auto.
  - intros v Hv. rewrite Hacc in Hv.
    destruct (@loops_adjoint_nD E nC nU nP HC rxs cols m Hm Hcols sj v w Hv Hw)
      as (Jv & d' & out' & acc' & Hd' & HJv & HJt' & _ & _ & _ & Hdot).
    assert (d' = d) by congruence. subst d'.
    assert (acc' = acc) by congruence. subst acc'.
    destruct (@Jvec_srcs_dense E nC nU nP HC HI rxs cols m v Hm Hv
                (srcList (survey E)) 0 cols) as (Jv' & HJv' & Hcat); auto.
    { unfold survey_nSrc in Hcols. lia. }
    assert (Jv' = Jv) by congruence. subst Jv'.
    rewrite <- Hdot, Hcat.
    rewrite (dot_comm v), dot_lincomb by exact HF. reflexivity.
Qed.

End TransposeDense.

(** ** The first call in explicit-storage mode *)

Lemma before_forward_ready (E : Externals) (s : Simulation) :
  length (getRHS E) = survey_nSrc (survey E) ->
  ready E s ->
  exists cols,
    _f (before_forward E s) = Some (Fields cols) /\
    length cols = survey_nSrc (survey E) /\
    Ainv (before_forward E s) = factorized E /\
    model (before_forward E s) = model s.
Proof.
  intros Hrhs Hready. unfold before_forward. cbv zeta.
  destruct (vlog_frame ">> Compute fields" s)
    as (_ & _ & W3 & W4 & W5 & _).
  unfold ready in Hready. rewrite W5.
  destruct (_f s) as [[cols|]|] eqn:Hf.
  - destruct Hready as [Hl Ha]. exists cols. rewrite W5, W3, W4.
    repeat split; auto.
  - contradiction.
  - destruct (@after_solve_frame E (vlog ">> Compute fields" s))
      as (A1 & A2 & _ & _ & A5 & _).
    { rewrite W4. exact Hready. }
    exists (map (Solver E (getA E)) (getRHS E)).
    rewrite A1, A2, A5, W3. repeat split.
    rewrite length_map. exact Hrhs.
Qed.

Section StoredFirst.

Variable E : Externals.
Variables nC nU : nat.
Hypothesis HAsm : AssemblyContracts E nC nU.

Variable m : vec.
Hypothesis Hm : length m = nC.
Variable sg : Z.

Lemma after_getJ_model (Jt : ndarray2) (s : Simulation) :
  model (after_getJ Jt s) = model s /\
  _pred (after_getJ Jt s) = _pred s /\
  receivers (after_getJ Jt s) = receivers s.
Proof.
  unfold after_getJ. cbv zeta. cbn [Ainv with_f with_Jmatrix].
  destruct (Ainv s); repeat split; reflexivity.
Qed.

Lemma stored_J_columns (rxs : rx_store) (cols : list vec) :
  length cols = survey_nSrc (survey E) ->
  stored_J
    (T {| base := {| buf_rows := nC;
                     buf_cols := Jt_columns E m rxs (srcList (survey E))
                                   cols |};
          transposed := false |})
    (survey_nD (survey E)) nC.
Proof.
  intros Hlen. unfold stored_J, T. cbn [base transposed negb buf_rows buf_cols].
  repeat split.
  - rewrite (length_Jt_columns E rxs m Hm); [reflexivity|].
    unfold survey_nSrc in Hlen. lia.
  - apply (@Jt_columns_cols E nC nU (asm_solve_len HAsm) (asm_dAT_len HAsm)
             (asm_getP_len HAsm) rxs m Hm). auto.
Qed.

Lemma Jvec_Some_stored_first (n : nat) (v : vec) (cols : list vec)
    (s : Simulation) :
  length v = nC ->
  storeJ s = true -> sign s = Some sg -> _Jmatrix s = None ->
  Ainv s = factorized E ->
  length cols = survey_nSrc (survey E) ->
  exists Jv s3 J,
    Jvec_ E (S (S n)) m v (Some (Fields cols)) s = (Ok Jv, s3) /\
    _Jmatrix s3 = Some J /\ stored_J J (survey_nD (survey E)) nC /\
    _f s3 = Some EmptyList /\
    storeJ s3 = true /\ sign s3 = Some sg /\ model s3 = Some m.
Proof.
  intros Hv Hs Hsg HJ HA Hlen.
  rewrite Jvec_stored_mode_run by exact Hs.
  rewrite getJ_uncached_run by exact HJ. cbv zeta.
  destruct (vlog_frame "Calculating J and storing"
              (with_model (Some m) (with_model (Some m) s)))
    as (W1 & W2 & W3 & W4 & W5 & W6 & W7 & W8 & _).
  cbn [storeJ sign model Ainv _f receivers with_model] in W1, W2, W3, W4.
  destruct (@Jtvec_full_ok E nC nU HAsm m m cols
              (vlog "Calculating J and storing"
                 (with_model (Some m) (with_model (Some m) s)))
              Hm W3 (eq_trans W4 HA) Hlen) as [out Hout].
  rewrite Hout.
  match goal with
  | |- context [after_getJ ?Jt ?s0] =>
      destruct (@after_getJ_frame is_forward Jt s0 silent_forward)
        as (_ & G2 & G3 & G4 & G5);
      destruct (after_getJ_model Jt s0) as (G6 & _)
  end.
  cbn [storeJ sign model log with_trace] in G2, G3, G6.
  rewrite G3, W2, Hsg.
  unfold dot2 at 1, shape, T.
  cbn [base transposed negb buf_rows buf_cols snd].
  rewrite Hv, Nat.eqb_refl. cbn [rbind sign_mul].
  eexists. eexists. eexists. split; [reflexivity|].
  split; [exact G4|]. split; [apply stored_J_columns; exact Hlen|].
  split; [exact G5|]. repeat split; congruence.
Qed.

Lemma fields_stored_first (n : nat) (s : Simulation) :
  storeJ s = true -> sign s = Some sg -> _Jmatrix s = None ->
  ready E s ->
  exists p s3 J,
    fields_ E (S (S (S (S n)))) m s = (Ok (Some EmptyList), s3) /\
    _pred s3 = Some p /\
    _Jmatrix s3 = Some J /\ stored_J J (survey_nD (survey E)) nC /\
    _f s3 = Some EmptyList /\
    storeJ s3 = true /\ sign s3 = Some sg /\ model s3 = Some m.
Proof.
  intros Hs Hsg HJ Hready.
  rewrite fields_run. cbv zeta. fold (before_forward E s).
  destruct (@before_forward_ready E s (asm_rhs_cols HAsm) Hready)
    as (cols & Hf & Hlen & HA & _).
  destruct (before_forward_keeps E s) as (B1 & B2 & B3 & _).
  rewrite Hf, forward_run.
  destruct (@Jvec_Some_stored_first n m cols
              (log [CallForward] (before_forward E s)))
    as (Jv & s3 & J & Hrun & G1 & G2 & G3 & G4 & G5 & G6); auto;
    try (cbn [storeJ sign _Jmatrix Ainv log with_trace]; congruence).
  rewrite Hrun. exists Jv, (with_pred (Some Jv) s3), J.
  rewrite G3. destruct G2 as (Q1 & Q2 & Q3 & Q4). repeat split; auto.
Qed.

Lemma getJ_stored_first (n : nat) (s : Simulation) :
  srcList (survey E) <> [] ->
  storeJ s = true -> sign s = Some sg -> _Jmatrix s = None ->
  ready E s ->
  exists s1 J,
    getJ_ E (S (S (S (S (S n))))) m None s = (Err TypeError, s1) /\
    _Jmatrix s1 = Some J /\ stored_J J (survey_nD (survey E)) nC /\
    storeJ s1 = true /\ sign s1 = Some sg.
Proof.
  intros Hne Hs Hsg HJ Hready.
  rewrite getJ_uncached_run by exact HJ. cbv zeta.
  destruct (vlog_frame "Calculating J and storing" (with_model (Some m) s))
    as (W1 & W2 & W3 & W4 & W5 & W6 & _).
  cbn [storeJ sign model Ainv _f _Jmatrix with_model] in W1, W2, W4, W5, W6.
  destruct (@fields_stored_first n
              (vlog "Calculating J and storing" (with_model (Some m) s)))
    as (p & s3 & J & Hrun & G0 & G1 & G2 & G3 & G4 & G5 & G6);
    try congruence.
  { unfold ready in *. rewrite W5, W4. exact Hready. }
  rewrite Hrun. rewrite Jtvec_full_run, G6.
  rewrite Jtvec_srcs_EmptyList by exact Hne. cbn [rbind].
  exists (log [] s3), J.
  destruct G2 as (Q1 & Q2 & Q3 & Q4). repeat split; auto.
Qed.

End StoredFirst.

(** ** The receivers after [fields] *)

Section Priming.

Variable E : Externals.

Lemma prime_rx_keeps (dt : string) (cols : list vec) (src : Src)
    (rxs : rx_store) (rx' rx : Rx) :
  primed dt (rx_lookup rxs rx) ->
  primed dt (rx_lookup (prime_rx E dt cols src rxs rx') rx).
Proof.
  intros H. unfold prime_rx, rx_update. cbn [rx_lookup].
  destruct (rx_id rx' =? rx_id rx); [|exact H].
  unfold primed. cbn. repeat split. discriminate.
Qed.

Lemma prime_rx_sets (dt : string) (cols : list vec) (src : Src)
    (rxs : rx_store) (rx : Rx) :
  primed dt (rx_lookup (prime_rx E dt cols src rxs rx) rx).
Proof.
  unfold prime_rx, rx_update. cbn [rx_lookup]. rewrite Nat.eqb_refl.
  unfold primed. cbn. repeat split. discriminate.
Qed.

Lemma prime_rxs_keeps (dt : string) (cols : list vec) (src : Src) (rx : Rx) :
  forall (l : list Rx) (rxs : rx_store),
    primed dt (rx_lookup rxs rx) ->
    primed dt (rx_lookup (fold_left (prime_rx E dt cols src) l rxs) rx).
Proof.
  induction l as [|rx' l IH]; intros rxs H; cbn [fold_left]; auto.
  apply IH, prime_rx_keeps, H.
Qed.

Lemma prime_rxs_sets (dt : string) (cols : list vec) (src : Src) (rx : Rx) :
  forall (l : list Rx) (rxs : rx_store),
    In rx l ->
    primed dt (rx_lookup (fold_left (prime_rx E dt cols src) l rxs) rx).
Proof.
  induction l as [|rx' l IH]; intros rxs Hin; [contradiction|].
  cbn [fold_left]. destruct Hin as [->|Hin].
  - apply prime_rxs_keeps, prime_rx_sets.
  - apply IH, Hin.
Qed.

Lemma prime_srcs_keeps (dt : string) (cols : list vec) (rx : Rx) :
  forall (l : list Src) (rxs : rx_store),
    primed dt (rx_lookup rxs rx) ->
    primed dt (rx_lookup (fold_left (prime_src E dt cols) l rxs) rx).
Proof.
  induction l as [|src l IH]; intros rxs H; cbn [fold_left]; auto.
  apply IH. unfold prime_src. apply prime_rxs_keeps, H.
Qed.

Lemma prime_srcs_sets (dt : string) (cols : list vec) (src : Src) (rx : Rx) :
  In rx (rxList src) ->
  forall (l : list Src) (rxs : rx_store),
    In src l ->
    primed dt (rx_lookup (fold_left (prime_src E dt cols) l rxs) rx).
Proof.
  intros Hrx. induction l as [|src' l IH]; intros rxs Hin; [contradiction|].
  cbn [fold_left]. destruct Hin as [->|Hin].
  - apply prime_srcs_keeps. unfold prime_src. apply prime_rxs_sets, Hrx.
  - apply IH, Hin.
Qed.

Lemma prime_receivers_sets (dt : string) (cols : list vec) (rxs : rx_store)
    (src : Src) (rx : Rx) :
  in_survey E src rx ->
  primed dt (rx_lookup (prime_receivers E dt cols rxs) rx).
Proof.
  intros [Hsrc Hrx]. unfold prime_receivers.
  apply (prime_srcs_sets dt cols src rx Hrx). exact Hsrc.
Qed.

Lemma after_solve_receivers (s : Simulation) :
  exists u,
    receivers (after_solve E s) =
    if String.eqb (data_type s) "apparent_chargeability"
    then prime_receivers E (data_type s) u (receivers s)
    else receivers s.
Proof.
  exists (match Ainv s with
          | Some fa => map (Solver E (factored fa)) (getRHS E)
          | None => map (Solver E (getA E)) (getRHS E)
          end).
  unfold after_solve, vlog.
  destruct s as [vb sj sg dt mdl ai f J p rxs tr]; simpl.
  destruct ai; simpl; destruct (String.eqb dt "apparent_chargeability");
    simpl; try destruct vb; reflexivity.
Qed.

Lemma fields_receivers (n : nat) (m : vec) (s s' : Simulation)
    (r : result (option FieldObj)) :
  fields_ E (S (S (S (S n)))) m s = (r, s') ->
  receivers s' = receivers (before_forward E s).
Proof.
  rewrite fields_run. cbv zeta. fold (before_forward E s).
  destruct (before_forward_keeps E s) as (_ & _ & _ & _ & fo & Hfo).
  rewrite Hfo, forward_run. intros Hrun.
  destruct (Jvec_ E (S (S n)) m m (Some fo)
              (log [CallForward] (before_forward E s)))
    as [[p|e] s3] eqn:HJ;
    destruct (@Jvec_Some_kept E _ _ _ _ _ _ _ HJ) as (_ & _ & _ & _ & K5);
    cbn [receivers log with_trace] in K5;
    inversion Hrun; subst; cbn [receivers with_pred]; exact K5.
Qed.

End Priming.

(** ** Sparse products and their transposes *)

Section SparseFacts.

Local Open Scope Z_scope.

Lemma fdot_ext (v : vec) :
  forall f g : nat -> Z,
    (forall j, (j < length v)%nat -> f j = g j) ->
    Sp.fdot f v = Sp.fdot g v.
Proof.
  induction v as [|x v IH]; intros f g H; cbn [Sp.fdot]; [reflexivity|].
  rewrite (H 0%nat) by (simpl; lia). f_equal.
  apply IH. intros j Hj. apply H. simpl. lia.
Qed.

Lemma fdot_zero (v : vec) : Sp.fdot (fun _ => 0) v = 0.
Proof. induction v as [|x v IH]; cbn [Sp.fdot]; [reflexivity|]. rewrite IH. lia. Qed.

Lemma fdot_lin (v : vec) :
  forall (a : Z) (f g : nat -> Z),
    Sp.fdot (fun j => a * f j + g j) v = a * Sp.fdot f v + Sp.fdot g v.
Proof.
  induction v as [|x v IH]; intros a f g; cbn [Sp.fdot]; [lia|].
  rewrite (IH a (fun j => f (S j)) (fun j => g (S j))). lia.
Qed.

Lemma dot_map_seq (y : vec) :
  forall (g : nat -> Z) (k : nat),
    dot (map g (seq k (length y))) y = Sp.fdot (fun i => g (k + i)%nat) y.
Proof.
  induction y as [|b y IH]; intros g k; [reflexivity|].
  cbn [length seq map dot Sp.fdot]. rewrite IH. rewrite Nat.add_0_r.
  f_equal. apply fdot_ext. intros j _. f_equal. lia.
Qed.

Lemma fdot_swap (y : vec) :
  forall (v : vec) (A : nat -> nat -> Z),
    Sp.fdot (fun i => Sp.fdot (A i) v) y =
    Sp.fdot (fun j => Sp.fdot (fun i => A i j) y) v.
Proof.
  induction y as [|b y IH]; intros v A.
  - cbn [Sp.fdot]. symmetry. apply fdot_zero.
  - cbn [Sp.fdot].
    transitivity (b * Sp.fdot (A 0%nat) v +
                  Sp.fdot (fun j => Sp.fdot (fun i => A (S i) j) y) v).
    + rewrite <- (IH v (fun i j => A (S i) j)).
      rewrite Z.mul_comm. reflexivity.
    + rewrite <- (fdot_lin v b (A 0%nat)
                    (fun j => Sp.fdot (fun i => A (S i) j) y)).
      apply fdot_ext. intros j _. lia.
Qed.

Lemma matvec_ok (A : Sp.matrix) (v : vec) :
  length v = Sp.n_cols A ->
  Sp.matvec A v =
  Ok (map (fun i => Sp.fdot (Sp.entry A i) v) (seq 0 (Sp.n_rows A))).
Proof. intros H. unfold Sp.matvec. rewrite H, Nat.eqb_refl. reflexivity. Qed.

Lemma matvec_inv (A : Sp.matrix) (v r : vec) :
  Sp.matvec A v = Ok r ->
  length v = Sp.n_cols A /\ length r = Sp.n_rows A /\
  r = map (fun i => Sp.fdot (Sp.entry A i) v) (seq 0 (Sp.n_rows A)).
Proof.
  unfold Sp.matvec. destruct (length v =? Sp.n_cols A)%nat eqn:Hl;
    [|discriminate].
  intros H. inversion H. apply Nat.eqb_eq in Hl.
  rewrite length_map, length_seq. repeat split; auto.
Qed.

(** [(A v) . y = v . (A^T y)] *)
Lemma matvec_adjoint (A : Sp.matrix) (v y r rT : vec) :
  Sp.matvec A v = Ok r ->
  Sp.matvec (Sp.T A) y = Ok rT ->
  dot y r = dot rT v.
Proof.
  intros Hr HrT.
  destruct (matvec_inv _ _ Hr) as (Hv & _ & ->).
  destruct (matvec_inv _ _ HrT) as (Hy & _ & ->).
  cbn [Sp.T Sp.n_rows Sp.n_cols Sp.entry] in *.
  rewrite dot_comm. rewrite <- Hy, <- Hv.
  rewrite !dot_map_seq. cbn [Nat.add].
  apply (fdot_swap y v (Sp.entry A)).
Qed.

Lemma matvec_sdiag_T (u x : vec) :
  Sp.matvec (Sp.T (Sp.sdiag u)) x = Sp.matvec (Sp.sdiag u) x.
Proof.
  unfold Sp.matvec. cbn [Sp.T Sp.sdiag Sp.n_rows Sp.n_cols Sp.entry].
  destruct (length x =? length u)%nat; [|reflexivity].
  f_equal. apply map_ext. intros i. apply fdot_ext. intros j _.
  rewrite (Nat.eqb_sym j i).
  destruct (i =? j)%nat eqn:Hij; [|reflexivity].
  apply Nat.eqb_eq in Hij. subst j. reflexivity.
Qed.

Lemma matvec_sdiag_sym (u x y r1 r2 : vec) :
  Sp.matvec (Sp.sdiag u) x = Ok r1 ->
  Sp.matvec (Sp.sdiag u) y = Ok r2 ->
  dot y r1 = dot r2 x.
Proof.
  intros H1 H2. rewrite <- matvec_sdiag_T in H2.
  exact (matvec_adjoint _ _ _ H1 H2).
Qed.

Lemma T_involutive_matvec (A : Sp.matrix) (v : vec) :
  Sp.matvec (Sp.T (Sp.T A)) v = Sp.matvec A v.
Proof. reflexivity. Qed.

End SparseFacts.

(** ** The loop of [getSourceTerm] *)

Section SourceTerm.

Variable src_eval : Src -> vec.
Variable n : nat.

Lemma getSourceTerm_fill_spec :
  forall (Srcs : list Src) (done rest : list vec),
    length rest = length Srcs ->
    getSourceTerm_fill src_eval
      {| buf_rows := n; buf_cols := done ++ rest |} (length done) Srcs
    = rbind (fit_cols n (map src_eval Srcs)) (fun cs =>
      Ok {| buf_rows := n; buf_cols := done ++ cs |}).
Proof.
  induction Srcs as [|src Srcs IH]; intros done rest Hl.
  - destruct rest; [|discriminate]. reflexivity.
  - destruct rest as [|z rest]; [discriminate|].
    cbn [getSourceTerm_fill map fit_cols]. unfold set_col.
    cbn [buf_cols buf_rows]. rewrite length_app. cbn [length].
    replace (length done <? length done + S (length rest)) with true
      by (symmetry; apply Nat.ltb_lt; lia).
    destruct (fit_col n (src_eval src)) as [x|e]; [|reflexivity].
    cbn [rbind].
    replace (firstn (length done) (done ++ z :: rest)) with done.
    2:{ clear. induction done as [|d done IHd]; [reflexivity|].
        cbn [length app firstn]. f_equal. exact IHd. }
    replace (skipn (S (length done)) (done ++ z :: rest)) with rest.
    2:{ clear. induction done as [|d done IHd]; [reflexivity|].
        exact IHd. }
    replace (done ++ x :: rest) with ((done ++ [x]) ++ rest)
      by (rewrite <- app_assoc; reflexivity).
    replace (S (length done)) with (length (done ++ [x]))
      by (rewrite length_app; simpl; lia).
    rewrite IH by (simpl in Hl; lia).
    destruct (fit_cols n (map src_eval Srcs)) as [cs|e]; [|reflexivity].
    cbn [rbind]. rewrite <- app_assoc. reflexivity.
Qed.

Lemma fit_cols_bad (l : list vec) (x : vec) :
  In x l -> length x <> n -> length x <> 1 ->
  fit_cols n l = Err ValueError.
Proof.
  induction l as [|y l IH]; intros Hin Hn H1; [contradiction|].
  cbn [fit_cols]. destruct Hin as [->|Hin].
  - unfold fit_col. destruct (length x =? n) eqn:E.
    + apply Nat.eqb_eq in E. contradiction.
    + destruct x as [|a [|b x]]; try reflexivity. simpl in H1. lia.
  - destruct (fit_col n y) as [y'|e] eqn:Ey.
    + cbn [rbind]. rewrite (IH Hin Hn H1). reflexivity.
    + unfold fit_col in Ey. destruct (length y =? n); [discriminate|].
      destruct y as [|a [|b y]]; inversion Ey; reflexivity.
Qed.

End SourceTerm.

(** ** Products of products *)

Section SparseChains.

Local Open Scope Z_scope.

Lemma fdot_app (a b : vec) :
  forall f : nat -> Z,
    Sp.fdot f (a ++ b) =
    Sp.fdot f a + Sp.fdot (fun j => f (length a + j)%nat) b.
Proof.
  induction a as [|x a IH]; intros f; cbn [app Sp.fdot length].
  - rewrite Z.add_0_l. reflexivity.
  - rewrite IH. rewrite Z.add_assoc. reflexivity.
Qed.

Lemma fdot_map_seq (f g : nat -> Z) (n : nat) :
  Sp.fdot f (map g (seq 0 n)) = Sp.fsum (fun j => f j * g j) n.
Proof.
  induction n as [|n IH]; [reflexivity|].
  rewrite seq_S, map_app, fdot_app, IH. cbn [Nat.add map Sp.fdot Sp.fsum].
  rewrite length_map, length_seq, Nat.add_0_r. lia.
Qed.

Lemma fsum_ext (n : nat) (f g : nat -> Z) :
  (forall j, (j < n)%nat -> f j = g j) -> Sp.fsum f n = Sp.fsum g n.
Proof.
  induction n as [|n IH]; intros H; cbn [Sp.fsum]; [reflexivity|].
  rewrite IH by (intros; apply H; lia). rewrite (H n) by lia. reflexivity.
Qed.

Lemma fdot_fsum (a : nat -> Z) (d : nat -> nat -> Z) (v : vec) (n : nat) :
  Sp.fdot (fun k => Sp.fsum (fun j => a j * d j k) n) v =
  Sp.fsum (fun j => a j * Sp.fdot (d j) v) n.
Proof.
  induction n as [|n IH]; cbn [Sp.fsum].
  - apply fdot_zero.
  - rewrite <- IH.
    rewrite (fdot_ext v
               (fun k => Sp.fsum (fun j => a j * d j k) n + a n * d n k)
               (fun k => a n * d n k +
                         Sp.fsum (fun j => a j * d j k) n))
      by (intros; lia).
    rewrite (fdot_lin v (a n) (d n)
               (fun k => Sp.fsum (fun j => a j * d j k) n)).
    lia.
Qed.

Lemma fdot_scale (v : vec) (a : Z) (f : nat -> Z) :
  Sp.fdot (fun j => a * f j) v = a * Sp.fdot f v.
Proof.
  rewrite (fdot_ext v (fun j => a * f j) (fun j => a * f j + 0))
    by (intros; lia).
  rewrite (fdot_lin v a f (fun _ => 0)), fdot_zero. lia.
Qed.

Lemma fdot_delta (z : vec) :
  forall (i : nat) (a : Z),
    Sp.fdot (fun j => if (i =? j)%nat then a else 0) z = a * nth i z 0.
Proof.
  induction z as [|x z IH]; intros i a; cbn [Sp.fdot].
  - destruct i; cbn; lia.
  - destruct i as [|i].
    + cbn [Nat.eqb nth]. rewrite fdot_zero. lia.
    + cbn [Nat.eqb nth]. rewrite IH. lia.
Qed.

Lemma map_nth_seq_id (y : vec) :
  map (fun i => nth i y 0) (seq 0 (length y)) = y.
Proof.
  induction y as [|b y IH]; [reflexivity|].
  cbn [length seq map nth]. f_equal.
  rewrite <- seq_shift, map_map. exact IH.
Qed.

Lemma fdot_as_fsum (g : nat -> Z) (y : vec) :
  Sp.fdot g y = Sp.fsum (fun i => g i * nth i y 0) (length y).
Proof.
  rewrite <- (map_nth_seq_id y) at 1. apply fdot_map_seq.
Qed.

Lemma nth_map_seq (g : nat -> Z) (n i : nat) :
  (i < n)%nat -> nth i (map g (seq 0 n)) 0 = g i.
Proof.
  intros H. rewrite (nth_indep _ 0 (g 0%nat))
    by (rewrite length_map, length_seq; exact H).
  rewrite map_nth, seq_nth by exact H. reflexivity.
Qed.

Lemma matvec_err (A : Sp.matrix) (v : vec) (e : error) :
  Sp.matvec A v = Err e -> e = ValueError.
Proof.
  unfold Sp.matvec. destruct (length v =? Sp.n_cols A)%nat; congruence.
Qed.

Lemma matvec_bad (A : Sp.matrix) (v : vec) :
  length v <> Sp.n_cols A -> Sp.matvec A v = Err ValueError.
Proof.
  intros H. unfold Sp.matvec. apply Nat.eqb_neq in H. rewrite H. reflexivity.
Qed.

Lemma matmul_inv (A B M : Sp.matrix) :
  Sp.matmul A B = Ok M ->
  Sp.n_cols A = Sp.n_rows B /\
  M = {| Sp.n_rows := Sp.n_rows A; Sp.n_cols := Sp.n_cols B;
         Sp.entry := fun i k =>
           Sp.fsum (fun j => Sp.entry A i j * Sp.entry B j k)
             (Sp.n_cols A) |}.
Proof.
  unfold Sp.matmul. destruct (Sp.n_cols A =? Sp.n_rows B)%nat eqn:E;
    [|discriminate].
  intros H. inversion H. apply Nat.eqb_eq in E. split; auto.
Qed.

Lemma matmul_err (A B : Sp.matrix) (e : error) :
  Sp.matmul A B = Err e -> e = ValueError /\ Sp.n_cols A <> Sp.n_rows B.
Proof.
  unfold Sp.matmul. destruct (Sp.n_cols A =? Sp.n_rows B)%nat eqn:E;
    [discriminate|].
  intros H. inversion H. apply Nat.eqb_neq in E. split; auto.
Qed.

(** [(A B) v = A (B v)] *)
Lemma matmul_matvec (A B M : Sp.matrix) (v : vec) :
  Sp.matmul A B = Ok M ->
  Sp.matvec M v = rbind (Sp.matvec B v) (Sp.matvec A).
Proof.
  intros HM. destruct (matmul_inv _ _ HM) as [Hs ->].
  unfold Sp.matvec at 1 2. cbn [Sp.n_rows Sp.n_cols Sp.entry].
  destruct (length v =? Sp.n_cols B)%nat; [|reflexivity].
  cbn [rbind]. rewrite matvec_ok
    by (rewrite length_map, length_seq; auto).
  f_equal. apply map_ext. intros i.
  rewrite fdot_map_seq, fdot_fsum, Hs. reflexivity.
Qed.

(** [(A B)^T z = B^T (A^T z)] *)
Lemma matmul_T_matvec (A B M : Sp.matrix) (z : vec) :
  Sp.matmul A B = Ok M ->
  Sp.matvec (Sp.T M) z = rbind (Sp.matvec (Sp.T A) z) (Sp.matvec (Sp.T B)).
Proof.
  intros HM. destruct (matmul_inv _ _ HM) as [Hs ->].
  unfold Sp.matvec at 1 2. cbn [Sp.T Sp.n_rows Sp.n_cols Sp.entry].
  destruct (length z =? Sp.n_rows A)%nat; [|reflexivity].
  cbn [rbind]. rewrite matvec_ok
    by (rewrite length_map, length_seq; cbn; auto).
  cbn [Sp.T Sp.n_rows Sp.n_cols Sp.entry].
  f_equal. apply map_ext. intros k.
  rewrite fdot_map_seq.
  rewrite (fdot_ext z
             (fun i => Sp.fsum (fun j => Sp.entry A i j * Sp.entry B j k)
                         (Sp.n_cols A))
             (fun i => Sp.fsum (fun j => Sp.entry B j k * Sp.entry A i j)
                         (Sp.n_cols A)))
    by (intros; apply fsum_ext; intros; lia).
  rewrite (fdot_fsum (fun j => Sp.entry B j k)
             (fun j i => Sp.entry A i j) z (Sp.n_cols A)).
  reflexivity.
Qed.

Lemma sdiag_matvec (u z : vec) :
  length z = length u ->
  Sp.matvec (Sp.sdiag u) z =
  Ok (map (fun i => nth i u 0 * nth i z 0) (seq 0 (length u))).
Proof.
  intros H. rewrite matvec_ok by exact H.
  cbn [Sp.sdiag Sp.n_rows Sp.entry]. f_equal. apply map_ext. intros i.
  apply fdot_delta.
Qed.

Section RowScaled.

Variable u : vec.
Variables G1 Gu : Sp.matrix.
Hypothesis HG : row_scaled u G1 Gu.

(** [Gu x = sdiag(u) (G1 x)] *)
Lemma row_scaled_matvec (x : vec) :
  Sp.matvec Gu x = rbind (Sp.matvec G1 x) (Sp.matvec (Sp.sdiag u)).
Proof.
  destruct HG as (H1 & H2 & H3 & H4).
  unfold Sp.matvec at 1 2. rewrite H3.
  destruct (length x =? Sp.n_cols G1)%nat eqn:E; [|reflexivity].
  apply Nat.eqb_eq in E. cbn [rbind].
  rewrite sdiag_matvec by (rewrite length_map, length_seq; exact H1).
  rewrite H2, <- H1. f_equal. apply map_ext_in. intros i Hi.
  apply in_seq in Hi.
  rewrite nth_map_seq by lia.
  rewrite <- fdot_scale. apply fdot_ext. intros j Hj.
  apply H4; lia.
Qed.

(** [Gu^T y = G1^T (sdiag(u) y)] *)
Lemma row_scaled_T_matvec (y : vec) :
  Sp.matvec (Sp.T Gu) y =
  rbind (Sp.matvec (Sp.sdiag u) y) (Sp.matvec (Sp.T G1)).
Proof.
  destruct HG as (H1 & H2 & H3 & H4).
  unfold Sp.matvec at 1 2.
  cbn [Sp.T Sp.sdiag Sp.n_rows Sp.n_cols Sp.entry]. rewrite H2, H1.
  destruct (length y =? length u)%nat eqn:E; [|reflexivity].
  apply Nat.eqb_eq in E. cbn [rbind].
  rewrite matvec_ok
    by (rewrite length_map, length_seq; cbn; congruence).
  cbn [Sp.T Sp.n_rows Sp.n_cols Sp.entry]. rewrite H3.
  f_equal. apply map_ext_in. intros j Hj. apply in_seq in Hj.
  rewrite fdot_map_seq.
  rewrite (fdot_as_fsum _ y), E.
  apply fsum_ext. intros i Hi.
  rewrite fdot_delta. rewrite H4 by lia. lia.
Qed.

Variables d M : Sp.matrix.

Lemma chain_direct (v : vec) :
  Sp.matmul G1 d = Ok M ->
  rbind (Sp.matvec M v) (Sp.matvec (Sp.sdiag u)) =
  rbind (Sp.matvec d v) (Sp.matvec Gu).
Proof.
  intros HM. rewrite (@matmul_matvec _ _ _ v HM).
  destruct (Sp.matvec d v) as [x|e]; [|reflexivity].
  cbn [rbind]. symmetry. apply row_scaled_matvec.
Qed.

Lemma chain_adjoint (y : vec) :
  Sp.matmul G1 d = Ok M ->
  rbind (Sp.matvec (Sp.sdiag u) y) (Sp.matvec (Sp.T M)) =
  rbind (Sp.matvec (Sp.T Gu) y) (Sp.matvec (Sp.T d)).
Proof.
  intros HM. rewrite row_scaled_T_matvec.
  destruct (Sp.matvec (Sp.sdiag u) y) as [x|e]; [|reflexivity].
  cbn [rbind]. apply (@matmul_T_matvec _ _ _ x HM).
Qed.

Lemma chain_direct_err (v : vec) (e : error) :
  Sp.matmul G1 d = Err e ->
  e = ValueError /\
  rbind (Sp.matvec d v) (Sp.matvec Gu) = Err ValueError.
Proof.
  intros HM. destruct (matmul_err _ _ HM) as [-> Hne].
  split; [reflexivity|].
  destruct HG as (H1 & H2 & H3 & H4).
  destruct (Sp.matvec d v) as [x|e'] eqn:Ex.
  - cbn [rbind]. apply matvec_bad.
    destruct (matvec_inv _ _ Ex) as (_ & Hl & _). congruence.
  - cbn [rbind]. rewrite (matvec_err _ _ Ex). reflexivity.
Qed.

Lemma chain_adjoint_err (y : vec) (e : error) :
  Sp.matmul G1 d = Err e ->
  e = ValueError /\
  rbind (Sp.matvec (Sp.T Gu) y) (Sp.matvec (Sp.T d)) = Err ValueError.
Proof.
  intros HM. destruct (matmul_err _ _ HM) as [-> Hne].
  split; [reflexivity|].
  destruct HG as (H1 & H2 & H3 & H4).
  destruct (Sp.matvec (Sp.T Gu) y) as [x|e'] eqn:Ex.
  - cbn [rbind]. apply matvec_bad.
    destruct (matvec_inv _ _ Ex) as (_ & Hl & _).
    cbn [Sp.T Sp.n_rows Sp.n_cols] in *. congruence.
  - cbn [rbind]. rewrite (matvec_err _ _ Ex). reflexivity.
Qed.

End RowScaled.

End SparseChains.

Lemma rbind_assoc {A B C : Type} (r : result A) (f : A -> result B)
    (g : B -> result C) :
  rbind (rbind r f) g = rbind r (fun x => rbind (f x) g).
Proof. destruct r; reflexivity. Qed.

Lemma ToyPDE_row_scaled (prop : vec) (a b : Z) :
  row_scaled [a; b] (ToyPDE.innerDeriv (ones 2) (ones 2))
    (ToyPDE.innerDeriv prop [a; b]).
Proof.
  unfold row_scaled. cbn [ToyPDE.innerDeriv Sp.n_rows Sp.n_cols Sp.entry].
  repeat split. intros i j Hi Hj.
  destruct i as [|[|i]]; [| |lia]; cbn [ones repeat nth]; lia.
Qed.

Lemma after_solve_factorize_count (E : Externals) (s : Simulation) :
  count is_factorize (trace (after_solve E s)) =
  count is_factorize (trace s) +
  match Ainv s with None => 2 | Some _ => 0 end.
Proof.
  unfold after_solve, vlog, log.
  destruct s as [vb sj sg dt mdl ai f J p rxs tr]; simpl.
  destruct ai; simpl; destruct (String.eqb dt "apparent_chargeability");
    simpl; try destruct vb; simpl;
    repeat rewrite count_app; unfold count; simpl; lia.
Qed.

Lemma before_forward_factorize_count (E : Externals) (s : Simulation) :
  count is_factorize (trace (before_forward E s)) =
  count is_factorize (trace s) +
  match _f s, Ainv s with None, None => 2 | _, _ => 0 end.
Proof.
  unfold before_forward. cbv zeta.
  destruct (vlog_frame ">> Compute fields" s)
    as (_ & _ & _ & W4 & W5 & _).
  pose proof (vlog_count ">> Compute fields" s silent_factorize) as Vc.
  rewrite W5. destruct (_f s).
  - rewrite Vc. lia.
  - rewrite after_solve_factorize_count, W4, Vc. reflexivity.
Qed.

Lemma fields_Jmatrix_adjoint (E : Externals) (n : nat) (m : vec)
    (s s' : Simulation) (r : result (option FieldObj)) :
  storeJ s = false ->
  fields_ E (S (S (S n))) m s = (r, s') ->
  _Jmatrix s' = _Jmatrix s /\ storeJ s' = false.
Proof.
  intros Hs. rewrite fields_run. cbv zeta. fold (before_forward E s).
  destruct (before_forward_keeps E s) as (B1 & _ & B3 & _ & fo & Hfo).
  rewrite Hfo, forward_run.
  rewrite Jvec_adjoint_run by (cbn [storeJ log with_trace]; congruence).
  destruct (rbind _ _) as [p|e]; intros Hrun; inversion Hrun; subst;
    cbn [_Jmatrix storeJ with_pred with_model log with_trace];
    split; congruence.
Qed.

(** ** The sign and the survey without receivers *)

Lemma bare_contracts : Contracts bare_env 2 2 (fun _ => 2).
Proof.
  constructor.
  - reflexivity.
  - intros x H; vec2 x H; reflexivity.
  - intros x y Hx Hy; vec2 x Hx; vec2 y Hy; cbv - [Z.mul Z.add Z.opp]; ring.
  - intros m u v Hm Hv; vec2 m Hm; vec2 v Hv; reflexivity.
  - intros m u y Hm Hy; vec2 m Hm; vec2 y Hy; reflexivity.
  - intros m u v y Hm Hv Hy; vec2 m Hm; vec2 v Hv; vec2 y Hy;
      cbv - [Z.mul Z.add Z.opp]; ring.
  - intros m src v Hm Hv; vec2 v Hv; reflexivity.
  - intros m src y Hm Hy; vec2 y Hy; reflexivity.
  - intros m src v y Hm Hv Hy; vec2 v Hv; vec2 y Hy;
      cbv - [Z.mul Z.add Z.opp]; ring.
  - intros src rx [Hs Hr]; simpl in Hs; destruct Hs as [<-|[]]; destruct Hr.
  - intros src rx attrs cols x [Hs Hr]; simpl in Hs;
      destruct Hs as [<-|[]]; destruct Hr.
  - intros src rx attrs cols w [Hs Hr]; simpl in Hs;
      destruct Hs as [<-|[]]; destruct Hr.
  - intros src rx attrs cols x w [Hs Hr]; simpl in Hs;
      destruct Hs as [<-|[]]; destruct Hr.
  - reflexivity.
  - reflexivity.
Qed.

Section SignFactor.

Variable E : Externals.

Lemma fields_adjoint_f (n : nat) (m : vec) (s s' : Simulation)
    (r : result (option FieldObj)) :
  storeJ s = false ->
  fields_ E (S (S (S n))) m s = (r, s') ->
  _f s' = _f (before_forward E s) /\
  receivers s' = receivers (before_forward E s).
Proof.
  intros Hs. rewrite fields_run. cbv zeta. fold (before_forward E s).
  destruct (before_forward_keeps E s) as (B1 & _ & _ & _ & fo & Hfo).
  rewrite Hfo, forward_run.
  rewrite Jvec_adjoint_run by (cbn [storeJ log with_trace]; congruence).
  destruct (rbind _ _) as [p|e]; intros Hrun; inversion Hrun; subst;
    cbn [_f receivers with_pred with_model log with_trace];
    rewrite ?Hfo; split; reflexivity.
Qed.

Lemma before_forward_with_sign (x : option Z) (s : Simulation) :
  _f (before_forward E (with_sign x s)) = _f (before_forward E s) /\
  receivers (before_forward E (with_sign x s)) =
    receivers (before_forward E s).
Proof.
  unfold before_forward, after_solve, vlog, log.
  destruct s as [vb sj sg dt mdl ai f J p rxs tr]; simpl.
  destruct vb, f as [fo|], ai as [fa|]; simpl;
    try (destruct (String.eqb dt "apparent_chargeability"); simpl);
    split; reflexivity.
Qed.

End SignFactor.

(** ** Deferred values on the two kinds of path *)

Section DeferredValues.

Variable E : Externals.

(** The assembly stores what [getADeriv] hands back: a [Delayed] object
    stops it at the first receiver. *)
Lemma Jtvec_srcs_delayed_raises (fa : Factorization) (m : vec)
    (rxs : rx_store) (sj : bool) (cols : list vec) :
  getADeriv_delayed E = true ->
  forall (l : list Src) (isrc : nat) (acc : buffer * nat),
    isrc + length l <= length cols ->
    concat (map rxList l) <> [] ->
    exists out,
      Jtvec_srcs E (Some fa) (Some m) rxs sj (Some (Fields cols)) None isrc l
        acc = (out, Err ValueError).
Proof.
  intros Hd. induction l as [|src l IH]; intros isrc acc Hlen Hne.
  - exfalso. apply Hne. reflexivity.
  - cbn [Jtvec_srcs getitem]. cbn [length] in Hlen.
    destruct (nth_error cols isrc) as [u|] eqn:Hu.
    2:{ apply nth_error_None in Hu. lia. }
    destruct (rxList src) as [|rx rest] eqn:Hrx.
    + cbn [Jtvec_rxs]. cbn [map concat] in Hne. rewrite Hrx in Hne.
      destruct (IH (S isrc) acc) as [out Hout]; [lia|exact Hne|].
      rewrite Hout. eexists. reflexivity.
    + cbn [Jtvec_rxs]. unfold Jtvec_rx. destruct acc as [Jtv istrt].
      destruct (rx_nD rx =? 1);
        cbn [Ainv_mul Ainv_mul_cols rbind]; rewrite Hd;
        cbn [written_raw rbind]; eexists; reflexivity.
Qed.

(** The adjoint-state loop builds a dask array from what [getADeriv]
    hands back: a plain array stops it at the first source. *)
Lemma Jvec_srcs_plain_raises (a : option Factorization) (m v : vec)
    (rxs : rx_store) (cols : list vec) (isrc : nat) (l : list Src) :
  getADeriv_delayed E = false ->
  l <> [] -> isrc < length cols ->
  Jvec_srcs E a (Some m) rxs (Some (Fields cols)) v isrc l
  = Err AttributeError.
Proof.
  intros Hd Hne Hlt. destruct l as [|src l]; [congruence|].
  cbn [Jvec_srcs getitem].
  destruct (nth_error cols isrc) as [u|] eqn:Hu.
  2:{ apply nth_error_None in Hu. lia. }
  cbn [rbind]. rewrite Hd. reflexivity.
Qed.

End DeferredValues.

Lemma has_receiver_sources (sv : Survey) :
  has_receiver sv -> srcList sv <> [].
Proof.
  unfold has_receiver. destruct (srcList sv); [|discriminate].
  intros H _. apply H. reflexivity.
Qed.

Lemma fields_plain_raises (E : Externals) (n : nat) (m : vec)
    (s : Simulation) :
  getADeriv_delayed E = false ->
  length (getRHS E) = survey_nSrc (survey E) ->
  srcList (survey E) <> [] ->
  storeJ s = false -> ready E s ->
  fst (fields_ E (S (S (S n))) m s) = Err AttributeError.
Proof.
  intros Hd Hrhs Hne Hs Hready. rewrite fields_run. cbv zeta.
  fold (before_forward E s).
  destruct (@before_forward_ready E s Hrhs Hready)
    as (cols & Hf & Hlen & HA & _).
  destruct (before_forward_keeps E s) as (B1 & _).
  rewrite Hf, forward_run.
  rewrite Jvec_adjoint_run by (cbn [storeJ log with_trace]; congruence).
  rewrite Jvec_srcs_plain_raises; [reflexivity|exact Hd|exact Hne|].
  rewrite Hlen. unfold survey_nSrc.
  destruct (srcList (survey E)); [congruence|simpl; lia].
Qed.

(** The collaborators that hand back arrays meet what the assembly
    needs as soon as the deferred ones meet the contracts. *)
Lemma eager_assembly (E : Externals) (nC nU : nat) (nP : Rx -> nat) :
  Contracts E nC nU nP -> IPContracts E nC nU ->
  AssemblyContracts (eager E) nC nU.
Proof.
  intros HC HI. constructor.
  - exact (rhs_cols HC).
  - exact (solve_len HC).
  - exact (dAT_len HC).
  - exact (getP_len HI).
  - reflexivity.
Qed.

Lemma Jt_columns_eager (E : Externals) (m : vec) (rxs : rx_store)
    (l : list Src) (cols : list vec) :
  Jt_columns (eager E) m rxs l cols = Jt_columns E m rxs l cols.
Proof.
  revert cols. induction l as [|src l IH]; intros [|u us];
    cbn [Jt_columns]; try reflexivity.
  rewrite IH. reflexivity.
Qed.

(** ** The matrix that explicit-storage mode stores *)

Section StoredMatrix.

Variable E : Externals.
Variables nC nU : nat.
Hypothesis HAsm : AssemblyContracts E nC nU.

Variable m : vec.
Hypothesis Hm : length m = nC.
Variable sg : Z.

Lemma Jvec_Some_stored_matrix (n : nat) (v : vec) (cols : list vec)
    (s : Simulation) :
  length v = nC ->
  storeJ s = true -> sign s = Some sg -> _Jmatrix s = None ->
  Ainv s = factorized E ->
  length cols = survey_nSrc (survey E) ->
  exists Jv s3,
    Jvec_ E (S (S n)) m v (Some (Fields cols)) s = (Ok Jv, s3) /\
    _Jmatrix s3 =
      Some (T {| base := {| buf_rows := nC;
                            buf_cols := Jt_columns E m (receivers s)
                                          (srcList (survey E)) cols |};
                 transposed := false |}).
Proof.
  intros Hv Hs Hsg HJ HA Hlen.
  rewrite Jvec_stored_mode_run by exact Hs.
  rewrite getJ_uncached_run by exact HJ. cbv zeta.
  destruct (vlog_frame "Calculating J and storing"
              (with_model (Some m) (with_model (Some m) s)))
    as (W1 & W2 & W3 & W4 & W5 & W6 & W7 & W8 & _).
  cbn [storeJ sign model Ainv _f receivers with_model] in W1, W2, W3, W4, W8.
  destruct (@Jtvec_full_ok E nC nU HAsm m m cols
              (vlog "Calculating J and storing"
                 (with_model (Some m) (with_model (Some m) s)))
              Hm W3 (eq_trans W4 HA) Hlen) as [out Hout].
  rewrite Hout, W8.
  match goal with
  | |- context [after_getJ ?Jt ?s0] =>
      destruct (@after_getJ_frame is_forward Jt s0 silent_forward)
        as (_ & G2 & G3 & G4 & G5)
  end.
  cbn [storeJ sign model log with_trace] in G2, G3.
  rewrite G3, W2, Hsg.
  unfold dot2 at 1, shape, T.
  cbn [base transposed negb buf_rows buf_cols snd].
  rewrite Hv, Nat.eqb_refl. cbn [rbind sign_mul].
  eexists. eexists. split; [reflexivity|]. exact G4.
Qed.

Lemma fields_stored_matrix (n : nat) (s : Simulation) :
  storeJ s = true -> sign s = Some sg -> _Jmatrix s = None ->
  ready E s ->
  exists cols f' s3,
    _f (before_forward E s) = Some (Fields cols) /\
    fields_ E (S (S (S (S n)))) m s = (Ok f', s3) /\
    _Jmatrix s3 =
      Some (T {| base := {| buf_rows := nC;
                            buf_cols :=
                              Jt_columns E m (receivers (before_forward E s))
                                (srcList (survey E)) cols |};
                 transposed := false |}).
Proof.
  intros Hs Hsg HJ Hready.
  rewrite fields_run. cbv zeta. fold (before_forward E s).
  destruct (@before_forward_ready E s (asm_rhs_cols HAsm) Hready)
    as (cols & Hf & Hlen & HA & _).
  destruct (before_forward_keeps E s) as (B1 & B2 & B3 & _).
  rewrite Hf, forward_run.
  destruct (@Jvec_Some_stored_matrix n m cols
              (log [CallForward] (before_forward E s)))
    as (Jv & s3 & Hrun & G1); auto;
    try (cbn [storeJ sign _Jmatrix Ainv log with_trace]; congruence).
  rewrite Hrun. exists cols. eexists. eexists.
  split; [reflexivity|]. split; [reflexivity|].
  cbn [_Jmatrix with_pred]. exact G1.
Qed.

End StoredMatrix.

(** What [fields] computes before the forward evaluation does not depend
    on whether the derivatives are deferred. *)
Lemma before_forward_eager (E : Externals) (s t : Simulation) :
  _f t = _f s -> Ainv t = Ainv s -> receivers t = receivers s ->
  data_type t = data_type s ->
  _f (before_forward (eager E) t) = _f (before_forward E s) /\
  receivers (before_forward (eager E) t) = receivers (before_forward E s).
Proof.
  destruct s as [vb sj sg dt mdl ai f J p rxs tr].
  destruct t as [vb' sj' sg' dt' mdl' ai' f' J' p' rxs' tr'].
  cbn [_f Ainv receivers data_type]. intros -> -> -> ->.
  unfold before_forward, after_solve, vlog. cbv zeta.
  destruct vb, vb', f as [fo|], ai as [fa|]; simpl;
    destruct (String.eqb dt "apparent_chargeability"); simpl;
    try destruct vb; try destruct vb'; split; reflexivity.
Qed.

Section AdjointColumns.

Variable E : Externals.
Variables nC nU : nat.
Variable nP : Rx -> nat.
Hypothesis HC : Contracts E nC nU nP.
Hypothesis HI : IPContracts E nC nU.

Lemma Jtvec_adjoint_columns (m w : vec) (sg : Z) (s : Simulation) :
  has_receiver (survey E) ->
  length m = nC -> length w = survey_nD (survey E) ->
  sign s = Some sg -> storeJ s = false -> ready E s ->
  exists cols s1,
    _f (before_forward E (with_model (Some m) s)) = Some (Fields cols) /\
    length cols = survey_nSrc (survey E) /\
    Jtvec E m w None s =
    (Ok (scale sg
           (lincomb nC
              (Jt_columns E m
                 (receivers (before_forward E (with_model (Some m) s)))
                 (srcList (survey E)) cols) w)), s1).
Proof.
  intros Hr Hm Hw Hsg Hs Hready.
  rewrite Jtvec_adjoint_None_run by exact Hs.
  destruct (@fields_adjoint_run E nC nU nP HC 5 m sg (with_model (Some m) s))
    as (cols & s1 & Hf1 & Hfs1 & Hlen & HA1 & Hs1 & Hsg1 & Hm1 & HJ1 & _);
    auto.
  pose proof (fields_receivers E 4 m (with_model (Some m) s) Hf1) as Hrx.
  destruct (@fields_inv E _ _ _ _ _ Hf1)
    as (fo & p & s3 & Hfo & Hfw & Hs1' & Hf').
  rewrite forward_run, Jvec_adjoint_run in Hfw.
  2:{ destruct (before_forward_keeps E (with_model (Some m) s)) as (B1 & _).
      cbn [storeJ log with_trace]. rewrite B1. exact Hs. }
  inversion Hfw as [[Hp Hs3]]. rewrite <- Hs3 in Hf'.
  cbn [_f with_model log with_trace] in Hf'. rewrite Hfo in Hf'.
  inversion Hf'; subst fo.
  unfold fields at 1, depth. rewrite Hf1. rewrite Jtvec_dir_run.
  destruct (@Jtvec_srcs_dense E nC nU nP HC HI (receivers s1) cols m Hm Hlen
              false w Hw) as (d & out & Hd & HJt).
  rewrite Hd, HA1, Hm1, Hs1, HJt. cbn [rbind]. rewrite Hsg1. cbn [sign_mul].
  exists cols. eexists. split; [exact Hfo|]. split; [exact Hlen|].
  rewrite Hrx. reflexivity.
Qed.

End AdjointColumns.

(** * The claims *)

(** C1 -- adjoint identity.  On an instance that is ready for the
    adjoint-state branch, or that holds a stored Jacobian in explicit
    storage mode, and with collaborators that honour their shape and
    adjoint contracts, [Jvec(m, v)] followed by [Jtvec(m, w)] both return,
    and [dot(w, Jvec(m, v)) = dot(v, Jtvec(m, w))] for every model [m] of
    length [nC], every [v] of length [nC] and every [w] of length [nD]. *)
Theorem C1_adjoint_identity (E : Externals) (nC nU : nat) (nP : Rx -> nat)
    (m v w : vec) (sg : Z) (s : Simulation) :
  Contracts E nC nU nP ->
  has_receiver (survey E) ->
  length m = nC -> length v = nC -> length w = survey_nD (survey E) ->
  sign s = Some sg ->
  (storeJ s = false /\ ready E s) \/
  (storeJ s = true /\
   exists J, _Jmatrix s = Some J /\ stored_J J (survey_nD (survey E)) nC) ->
  exists Jv s1 Jtv s2,
    Jvec E m v None s = (Ok Jv, s1) /\
    Jtvec E m w None s1 = (Ok Jtv, s2) /\
    dot w Jv = dot v Jtv.
Proof.
  intros HC Hr Hm Hv Hw Hsg [[Hs Hready]|[Hs (J & HJ & HJs)]].
  - (* adjoint-state branch *)
    unfold Jvec, depth. rewrite Jvec_adjoint_None_run by exact Hs.
    destruct (@fields_adjoint_run E nC nU nP HC 4 m sg (with_model (Some m) s))
      as (cols & s1 & Hf1 & Hfs1 & Hlen & HA1 & Hs1 & Hsg1 & Hm1 & _ & _);
      auto.
    rewrite Hf1, HA1, Hm1.
    destruct (@loops_adjoint E nC nU nP HC (receivers s1) cols false m v w)
      as (Jv & d & out & acc & Hd & HJv & HJt & HlJ & Hacc & Hdot); auto.
    rewrite HJv. simpl rbind. rewrite (@hstack_ok E Jv Hr HlJ). simpl rbind.
    rewrite Hsg1. simpl sign_mul.
    exists (scale sg (concat Jv)), s1.
    rewrite Jtvec_adjoint_None_run by exact Hs1.
    destruct (@fields_adjoint_run E nC nU nP HC 5 m sg (with_model (Some m) s1))
      as (cols2 & s2 & Hf2 & Hfs2 & Hlen2 & HA2 & Hs2 & Hsg2 & Hm2 & _ & _ & Hsame);
      auto.
    { unfold ready. cbn [_f with_model Ainv]. rewrite Hfs1. split; auto. }
    destruct (Hsame cols Hfs1) as [Hc Hrx]. subst cols2.
    cbn [receivers with_model] in Hrx.
    unfold fields, depth. rewrite Hf2. rewrite Jtvec_dir_run, Hd.
    rewrite HA2, Hm2, Hrx, Hs2, HJt. simpl rbind. rewrite Hsg2. simpl.
    exists (scale sg acc). eexists. repeat split.
    rewrite dot_scale_r, dot_scale_r, Hdot. reflexivity.
  - (* explicit storage *)
    unfold Jvec, depth. rewrite (@Jvec_stored_run E 6 m v None J s Hs HJ).
    rewrite (@dot2_stored J _ nC v HJs Hv). simpl rbind. rewrite Hsg. simpl sign_mul.
    destruct (vlog_frame "Calculating J and storing" (with_model (Some m) s))
      as (W1 & W2 & _ & _ & _ & W6 & _).
    eexists. eexists.
    rewrite (@Jtvec_stored_run E m w None J) by (rewrite ?W1, ?W6; auto).
    rewrite (@dot2_T_stored J _ nC w HJs Hw). simpl rbind.
    rewrite W2. cbn [sign with_model]. rewrite Hsg. simpl sign_mul.
    eexists. eexists. repeat split.
    rewrite !dot_scale_r. f_equal.
    rewrite (dot_comm v). symmetry. apply dot_lincomb.
    destruct HJs as (_ & _ & _ & HF). exact HF.
Qed.

Lemma C1_adjoint_identity_witness :
  exists Jv s1 Jtv s2,
    Jvec (Toy.env true) Toy.m0 [1; 2]%Z None
      (Problem3D_N_init false false "volt") = (Ok Jv, s1) /\
    Jtvec (Toy.env true) Toy.m0 [1; 2; 3]%Z None s1 = (Ok Jtv, s2) /\
    dot [1; 2; 3]%Z Jv = dot [1; 2]%Z Jtv.
Proof.
  apply (@C1_adjoint_identity (Toy.env true) 2 2 (fun _ => 2) Toy.m0
           [1; 2]%Z [1; 2; 3]%Z (-1)%Z (Problem3D_N_init false false "volt")).
  - apply Toy_contracts.
  - apply Toy_has_receiver.
  - reflexivity.
  - reflexivity.
  - reflexivity.
  - reflexivity.
  - left. split; [reflexivity|]. simpl. left. reflexivity.
Defined.

(** C2 -- explicit-storage equivalence.  With deferred derivatives, as
    the adjoint-state path takes them, [Jvec(m, v)] returns on a ready
    instance, but [getJ(m)] then raises [ValueError]: the assembly stores
    what [getADeriv] hands back without forcing it.  With the same
    derivatives handed back as arrays it is [Jvec] that raises, with
    [AttributeError].  So the adjoint-state product and [getJ(m) . v] are
    never both there to be compared.  In explicit-storage mode with a
    stored matrix [J], [Jvec] and [Jtvec] do return [sign * (J . v)] and
    [sign * (J^T . w)]. *)
Theorem C2_getJ_raises_where_Jvec_returns (E : Externals) (nC nU : nat)
    (nP : Rx -> nat) (m v w : vec) (sg : Z) (s : Simulation) :
  Contracts E nC nU nP ->
  has_receiver (survey E) ->
  length m = nC -> length v = nC ->
  sign s = Some sg ->
  (storeJ s = false -> ready E s -> _Jmatrix s = None ->
   exists Jv s1,
     Jvec E m v None s = (Ok Jv, s1) /\
     run_result (getJ E m None s1) = Err ValueError /\
     run_result (Jvec (eager E) m v None s) = Err AttributeError) /\
  (storeJ s = true -> forall J f, _Jmatrix s = Some J ->
   run_result (Jvec E m v f s) = rbind (dot2 J v) (fun x => Ok (scale sg x)) /\
   run_result (Jtvec E m w f s) =
     rbind (dot2 (T J) w) (fun x => Ok (scale sg x))).
Proof.
  intros HC Hr Hm Hv Hsg. split.
  - intros Hs Hready HJ.
    unfold Jvec at 1, depth. rewrite Jvec_adjoint_None_run by exact Hs.
    destruct (@fields_adjoint_run E nC nU nP HC 4 m sg (with_model (Some m) s))
      as (cols & s1 & Hf1 & Hfs1 & Hlen & HA1 & Hs1 & Hsg1 & Hm1 & HJ1 & _);
      auto.
    rewrite Hf1, HA1, Hm1.
    destruct (@Jvec_srcs_ok E nC nU nP HC (receivers s1) cols m v Hm Hv Hlen)
      as (Jv & HJv & HlJ).
    rewrite HJv. cbn [rbind]. rewrite (@hstack_ok E Jv Hr HlJ). cbn [rbind].
    rewrite Hsg1. cbn [sign_mul].
    exists (scale sg (concat Jv)), s1. split; [reflexivity|]. split.
    + unfold run_result, getJ, depth. rewrite getJ_uncached_run.
      2:{ rewrite HJ1. exact HJ. }
      cbv zeta.
      destruct (vlog_frame "Calculating J and storing"
                  (with_model (Some m) s1))
        as (W1 & W2 & W3 & W4 & W5 & _).
      cbn [storeJ sign model Ainv _f with_model] in W1, W2, W4, W5.
      destruct (@fields_adjoint_run E nC nU nP HC 4 m sg
                  (vlog "Calculating J and storing" (with_model (Some m) s1)))
        as (cols2 & s2 & Hf2 & Hfs2 & Hlen2 & HA2 & Hs2 & Hsg2 & Hm2 & _);
        auto; try congruence.
      { unfold ready. rewrite W5, Hfs1, W4. split; auto. }
      rewrite Hf2. rewrite Jtvec_full_run, Hm2, HA2. unfold factorized.
      destruct (@Jtvec_srcs_delayed_raises E
                  {| factored := getA E; cleaned := false |} m
                  (receivers s2) (storeJ s2) cols2 (dA_delayed HC)
                  (srcList (survey E)) 0
                  (zeros2 (length m) (survey_nD (survey E)), 0))
        as [out Hout].
      { unfold survey_nSrc in Hlen2. lia. }
      { exact Hr. }
      rewrite Hout. reflexivity.
    + unfold run_result, Jvec, depth.
      rewrite Jvec_adjoint_None_run by exact Hs.
      pose proof (@fields_plain_raises (eager E) 4 m (with_model (Some m) s)
                    eq_refl (rhs_cols HC) (has_receiver_sources Hr) Hs
                    Hready) as H.
      destruct (fields_ (eager E) 7 m (with_model (Some m) s))
        as [[f'|e] s2]; cbn [fst] in H; [discriminate|].
      cbn [fst]. congruence.
  - intros Hs J f HJ. split.
    + unfold Jvec, depth. rewrite (@Jvec_stored_run E 6 m v f J s Hs HJ).
      unfold run_result. cbn [fst]. rewrite Hsg. reflexivity.
    + rewrite (@Jtvec_stored_run E m w f J s Hs HJ).
      unfold run_result. cbn [fst]. rewrite Hsg. reflexivity.
Qed.

Lemma C2_getJ_raises_where_Jvec_returns_witness :
  exists Jv s1,
    Jvec (Toy.env false) Toy.m0 [1; 2]%Z None
      (Problem3D_N_init false false "volt") = (Ok Jv, s1) /\
    run_result (getJ (Toy.env false) Toy.m0 None s1) = Err ValueError /\
    run_result (Jvec (eager (Toy.env false)) Toy.m0 [1; 2]%Z None
                  (Problem3D_N_init false false "volt"))
    = Err AttributeError.
Proof.
  apply (proj1 (@C2_getJ_raises_where_Jvec_returns (Toy.env false) 2 2
                  (fun _ => 2) Toy.m0 [1; 2]%Z [1; 2; 3]%Z (-1)%Z
                  (Problem3D_N_init false false "volt")
                  (@Toy_contracts false) (@Toy_has_receiver false)
                  eq_refl eq_refl eq_refl)).
  - reflexivity.
  - simpl. left. reflexivity.
  - reflexivity.
Defined.

(** C3 -- the sign is applied only when a direction is supplied.  Called
    with a direction, [_Jtvec] under sign [sg] returns [sg] times what it
    returns under sign [+1]; called with [v = None] it returns the same
    matrix whatever the sign is, even when no sign is set. *)
Theorem C3_sign_only_with_direction (E : Externals) (m : vec)
    (f : option FieldObj) (s : Simulation) :
  (forall v sg,
     run_result (_Jtvec E m (Some v) f (with_sign (Some sg) s)) =
     rbind (run_result (_Jtvec E m (Some v) f (with_sign (Some 1%Z) s)))
       (fun x => Ok (scale sg x))) /\
  (forall sg,
     run_result (_Jtvec E m None f (with_sign sg s)) =
     run_result (_Jtvec E m None f s)).
Proof.
  split.
  - intros v sg. rewrite !Jtvec_dir_run.
    cbn [with_sign Ainv model receivers storeJ sign].
    destruct (Data (survey E) v) as [d|e]; [|reflexivity].
    destruct (Jtvec_srcs _ _ _ _ _ _ _ _ _ _) as [out [acc|e]];
      unfold run_result; cbn [fst rbind sign_mul]; [|reflexivity].
    rewrite scale_1. reflexivity.
  - intros sg. rewrite !Jtvec_full_run.
    cbn [with_sign Ainv model receivers storeJ sign].
    destruct (model s) as [m'|]; [|reflexivity].
    destruct (Jtvec_srcs _ _ _ _ _ _ _ _ _ _) as [out [acc|e]]; reflexivity.
Qed.

(** C10 -- [dpred] with a supplied field ignores the field and returns
    the cached prediction unchanged; on an instance that never computed
    one, of the base class or of either variant, that is [None]. *)
Theorem C10_dpred_with_field (E : Externals) (m : vec) (fo : FieldObj) :
  (forall s, dpred E m (Some fo) s = (Ok (_pred s), s)) /\
  (forall vb sj dt,
     run_result (dpred E m (Some fo) (BaseIPSimulation_init vb sj dt)) = Ok None /\
     run_result (dpred E m (Some fo) (Problem3D_CC_init vb sj dt)) = Ok None /\
     run_result (dpred E m (Some fo) (Problem3D_N_init vb sj dt)) = Ok None).
Proof.
  split.
  - intros s. reflexivity.
  - intros vb sj dt. repeat split.
Qed.

(** C4 -- assembling the full Jacobian ([v = None]).  The assembly calls
    [getADeriv] only: no right-hand-side derivative is computed or summed,
    unlike in the branch for a data vector.  On the toy problem whose
    right-hand side depends on the model, with derivatives handed back as
    arrays, the matrix stored by the first [fields(m0)] in explicit-storage
    mode has the columns [[-3; -5]], [[3; 10]], [[0; 5]], and the [Jvec]
    that follows multiplies by it.  With the same derivatives deferred, the
    adjoint-state [Jtvec] of the three unit data vectors gives the columns
    [[-2; -6]], [[2; 12]], [[0; 6]] of [J^T], in agreement with the
    adjoint-state [Jvec] of the two unit directions, whereas the assembly
    raises [ValueError]. *)
Theorem C4_assembly_omits_rhs_derivative :
  let stored := Problem3D_CC_init false true "volt" in
  let adjoint := Problem3D_CC_init false false "volt" in
  let assembled := snd (fields (Toy.plain true) Toy.m0 stored) in
  (run_result (fields (Toy.plain true) Toy.m0 stored) = Ok (Some EmptyList) /\
   _Jmatrix assembled =
     Some {| base := {| buf_rows := 2;
                        buf_cols := [[-3; -5]; [3; 10]; [0; 5]]%Z |};
             transposed := true |} /\
   run_result (Jvec (Toy.plain true) Toy.m0 [1; 0]%Z None assembled)
     = Ok [-3; 3; 0]%Z /\
   run_result (Jvec (Toy.plain true) Toy.m0 [0; 1]%Z None assembled)
     = Ok [-5; 10; 5]%Z) /\
  (run_result (Jtvec (Toy.env true) Toy.m0 [1; 0; 0]%Z None adjoint)
     = Ok [-2; -6]%Z /\
   run_result (Jtvec (Toy.env true) Toy.m0 [0; 1; 0]%Z None adjoint)
     = Ok [2; 12]%Z /\
   run_result (Jtvec (Toy.env true) Toy.m0 [0; 0; 1]%Z None adjoint)
     = Ok [0; 6]%Z /\
   run_result (Jvec (Toy.env true) Toy.m0 [1; 0]%Z None adjoint)
     = Ok [-2; 2; 0]%Z /\
   run_result (Jvec (Toy.env true) Toy.m0 [0; 1]%Z None adjoint)
     = Ok [-6; 12; 6]%Z) /\
  run_result (fields (Toy.env true) Toy.m0 stored) = Err ValueError.
Proof.
  cbv zeta.
  repeat match goal with |- _ /\ _ => split end; vm_compute; reflexivity.
Qed.

(** C9 -- predicted data are a Jacobian-vector product.  [forward(m, f)]
    is [Jvec(m, m, f)], the model being its own direction; the vector that
    a successful [fields(m)] caches is what that call returned.  In
    explicit-storage mode it is [sign] times the stored [J] applied to
    [m]; while [sign] is [None] the call returns only when [J . m] is
    empty. *)
Theorem C9_forward_is_Jvec (E : Externals) (m : vec) :
  (forall f s, forward E m f s = Jvec E m m f (log [CallForward] s)) /\
  (forall s f' s',
     fields E m s = (Ok f', s') ->
     exists p s3,
       Jvec E m m (_f (before_forward E s))
         (log [CallForward] (before_forward E s)) = (Ok p, s3) /\
       _pred s' = Some p) /\
  (forall s f' s',
     storeJ s = true ->
     fields E m s = (Ok f', s') ->
     exists J Jd,
       _Jmatrix s' = Some J /\ dot2 J m = Ok Jd /\
       (forall sg, sign s' = Some sg -> _pred s' = Some (scale sg Jd)) /\
       (sign s' = None -> Jd = [] /\ _pred s' = Some [])).
Proof.
  split; [|split].
  - intros f s. apply forward_is_Jvec.
  - intros s f' s' Hrun. unfold fields, depth in Hrun.
    destruct (@fields_inv E _ _ _ _ _ Hrun) as (fo & p & s3 & Hfo & Hfw & -> & _).
    exists p, s3. split; [|reflexivity].
    rewrite Hfo. unfold Jvec, depth. rewrite (Jvec_depth E 2).
    rewrite forward_run in Hfw. exact Hfw.
  - intros s f' s' Hs Hrun. unfold fields, depth in Hrun.
    destruct (@fields_inv E _ _ _ _ _ Hrun) as (fo & p & s3 & Hfo & Hfw & -> & _).
    destruct (before_forward_keeps E s) as (B1 & B2 & B3 & _).
    rewrite forward_run, Jvec_stored_mode_run in Hfw
      by (cbn [storeJ log with_trace]; congruence).
    destruct (getJ_ E 5 m (Some fo)
                (with_model (Some m) (log [CallForward] (before_forward E s))))
      as [[J|e] s4] eqn:HJ; [|discriminate].
    destruct (@getJ_Some_post E is_forward _ _ _ _ _ _ silent_forward HJ)
      as (_ & _ & _ & G4 & _).
    destruct (dot2 J m) as [Jd|e] eqn:Hd; [|discriminate].
    cbn [rbind] in Hfw.
    exists J, Jd. cbn [_Jmatrix sign _pred with_pred].
    destruct (sign s4) as [sg|] eqn:Hsg; cbn [sign_mul] in Hfw.
    + inversion Hfw; subst. split; [auto|]. split; [exact Hd|].
      split; [|congruence].
      intros sg' Hsg'. rewrite Hsg in Hsg'. inversion Hsg'. reflexivity.
    + destruct Jd as [|d Jd]; [|discriminate].
      inversion Hfw; subst. split; [auto|]. split; [exact Hd|].
      split; [|auto].
      intros sg' Hsg'. rewrite Hsg in Hsg'. discriminate.
Qed.

Lemma C9_forward_is_Jvec_witness :
  exists J Jd,
    _Jmatrix (snd (fields (Toy.plain false) Toy.m0
                     (Problem3D_N_init false true "volt"))) = Some J /\
    dot2 J Toy.m0 = Ok Jd /\
    (forall sg,
       sign (snd (fields (Toy.plain false) Toy.m0
                    (Problem3D_N_init false true "volt"))) = Some sg ->
       _pred (snd (fields (Toy.plain false) Toy.m0
                     (Problem3D_N_init false true "volt")))
       = Some (scale sg Jd)) /\
    (sign (snd (fields (Toy.plain false) Toy.m0
                  (Problem3D_N_init false true "volt"))) = None ->
     Jd = [] /\
     _pred (snd (fields (Toy.plain false) Toy.m0
                   (Problem3D_N_init false true "volt"))) = Some []).
Proof.
  apply (proj2 (proj2 (C9_forward_is_Jvec (Toy.plain false) Toy.m0))
           (Problem3D_N_init false true "volt") (Some EmptyList)
           (snd (fields (Toy.plain false) Toy.m0
                   (Problem3D_N_init false true "volt")))).
  - reflexivity.
  - vm_compute. reflexivity.
Defined.

(** C7 -- [fields] is idempotent.  After a [fields(m)] call that
    returned, a second [fields(m)] returns the same cached field object,
    leaves it and the factorisation in place, and neither assembles nor
    factorises the system operator again. *)
Theorem C7_fields_idempotent (E : Externals) (m : vec) (s s1 : Simulation)
    (f1 : option FieldObj) :
  fields E m s = (Ok f1, s1) ->
  exists s2,
    fields E m s1 = (Ok f1, s2) /\
    f1 = _f s1 /\ _f s2 = _f s1 /\ Ainv s2 = Ainv s1 /\
    count is_factorize (trace s2) = count is_factorize (trace s1).
Proof.
  intros Hrun. unfold fields, depth in *.
  destruct (@fields_inv E _ _ _ _ _ Hrun) as (fo & p & s3 & Hfo & Hfw & -> & ->).
  rewrite forward_run in Hfw.
  destruct (@Jvec_Some_post E is_factorize _ _ _ _ _ _ _ silent_factorize Hfw)
    as (_ & _ & _ & Hnn).
  destruct (_f s3) as [fo'|] eqn:Hf3.
  2:{ exfalso. apply Hnn; auto. cbn [_f log with_trace]. congruence. }
  destruct (vlog_frame ">> Compute fields" (with_pred (Some p) s3))
    as (V1 & V2 & V3 & V4 & V5 & V6 & V7 & V8 & _).
  pose proof (vlog_count ">> Compute fields" (with_pred (Some p) s3)
                silent_factorize) as Vc.
  cbn [storeJ sign model Ainv _f _Jmatrix receivers trace with_pred]
    in V1, V2, V3, V4, V5, V6, V8, Vc.
  rewrite fields_run. cbv zeta. rewrite V5, Hf3. rewrite forward_run.
  rewrite V5, Hf3.
  destruct (@Jvec_Some_again E 4 m m fo fo'
              (log [CallForward] (before_forward E s)) s3
              (log [CallForward] (vlog ">> Compute fields"
                                    (with_pred (Some p) s3))) p Hfw)
    as (s4 & Hagain & A1 & A2 & A3); auto.
  { intros Hs. cbn [storeJ log with_trace] in Hs.
    rewrite Jvec_adjoint_run in Hfw by (cbn [storeJ log with_trace]; exact Hs).
    inversion Hfw as [[Hp Hs3]]. rewrite <- Hs3 in Hf3.
    cbn [_f with_model log with_trace] in Hf3. congruence. }
  rewrite Hagain. eexists. split.
  - rewrite A1. cbn [_f log with_trace]. rewrite V5, Hf3. reflexivity.
  - cbn [_f Ainv trace with_pred].
    rewrite A1, A2, A3. cbn [_f Ainv log with_trace]. rewrite log_count.
    rewrite V5, V4, Vc. unfold count at 2. simpl. repeat split; auto.
Qed.

Lemma C7_fields_idempotent_witness :
  exists s2,
    fields (Toy.plain false) Toy.m0
      (snd (fields (Toy.plain false) Toy.m0
              (Problem3D_CC_init true true "apparent_chargeability")))
    = (Ok (Some EmptyList), s2) /\
    Some EmptyList =
      _f (snd (fields (Toy.plain false) Toy.m0
                 (Problem3D_CC_init true true "apparent_chargeability"))) /\
    _f s2 =
      _f (snd (fields (Toy.plain false) Toy.m0
                 (Problem3D_CC_init true true "apparent_chargeability"))) /\
    Ainv s2 =
      Ainv (snd (fields (Toy.plain false) Toy.m0
                   (Problem3D_CC_init true true "apparent_chargeability"))) /\
    count is_factorize (trace s2) =
      count is_factorize
        (trace (snd (fields (Toy.plain false) Toy.m0
                       (Problem3D_CC_init true true
                          "apparent_chargeability")))).
Proof.
  apply (@C7_fields_idempotent (Toy.plain false) Toy.m0
           (Problem3D_CC_init true true "apparent_chargeability")).
  vm_compute. reflexivity.
Defined.

(** C6 (as amended) -- [dpred(m)] called without a field always goes
    through [fields(m)], which runs exactly one new forward evaluation
    and overwrites the cached vector; [dpred] returns that fresh vector.
    Only the solve for the fields is skipped when they are cached. *)
Theorem C6_dpred_recomputes (E : Externals) (m : vec) (s s' : Simulation)
    (p : option vec) :
  dpred E m None s = (Ok p, s') ->
  count is_forward (trace s') = S (count is_forward (trace s)) /\
  p = _pred s' /\
  exists fo d s3,
    _f (before_forward E s) = Some fo /\
    forward E m (Some fo) (before_forward E s) = (Ok d, s3) /\
    p = Some d.
Proof.
  unfold dpred, bind, gets. intros Hrun.
  destruct (fields E m s) as [[f'|e] s1] eqn:Hf; [|discriminate].
  inversion Hrun; subst p s'. clear Hrun.
  unfold fields, depth in Hf.
  destruct (@fields_inv E _ _ _ _ _ Hf) as (fo & p & s3 & Hfo & Hfw & -> & _).
  pose proof Hfw as Hfw'.
  rewrite forward_run in Hfw.
  destruct (@Jvec_Some_post E is_forward _ _ _ _ _ _ _ silent_forward Hfw)
    as (Hc & _).
  destruct (before_forward_keeps E s) as (_ & _ & _ & Bc & _).
  rewrite log_count, Bc in Hc. unfold count at 3 in Hc. simpl in Hc.
  cbn [trace _pred with_pred]. split; [lia|]. split; [reflexivity|].
  exists fo, p, s3. split; [exact Hfo|]. split; [|reflexivity].
  unfold forward, depth. rewrite forward_Some_depth.
  rewrite forward_Some_depth in Hfw'. exact Hfw'.
Qed.

Lemma C6_dpred_recomputes_witness :
  count is_forward
    (trace (snd (dpred (Toy.env false) Toy.m0 None
                   (Problem3D_CC_init false false "volt"))))
  = S (count is_forward (trace (Problem3D_CC_init false false "volt"))) /\
  Some [-34; 59; 25]%Z =
    _pred (snd (dpred (Toy.env false) Toy.m0 None
                  (Problem3D_CC_init false false "volt"))) /\
  exists fo d s3,
    _f (before_forward (Toy.env false) (Problem3D_CC_init false false "volt"))
      = Some fo /\
    forward (Toy.env false) Toy.m0 (Some fo)
      (before_forward (Toy.env false) (Problem3D_CC_init false false "volt"))
      = (Ok d, s3) /\
    Some [-34; 59; 25]%Z = Some d.
Proof.
  apply (@C6_dpred_recomputes (Toy.env false) Toy.m0
           (Problem3D_CC_init false false "volt")).
  vm_compute. reflexivity.
Defined.

(** C6, as stated, fails: with the prediction for [m0] already cached, a
    second [dpred(m0)] returns the same vector but runs a second forward
    evaluation. *)
Lemma C6_counterexample :
  exists p s1 s2,
    dpred (Toy.env false) Toy.m0 None (Problem3D_CC_init false false "volt")
      = (Ok (Some p), s1) /\
    _pred s1 = Some p /\
    dpred (Toy.env false) Toy.m0 None s1 = (Ok (Some p), s2) /\
    count is_forward (trace s1) = 1 /\
    count is_forward (trace s2) = 2.
Proof.
  eexists. eexists. eexists.
  split; [vm_compute; reflexivity|].
  split; [reflexivity|].
  split; [vm_compute; reflexivity|].
  split; reflexivity.
Qed.

(** C5 (as amended) -- a model change invalidates nothing.  Assigning the
    model leaves the field object, the factorisation, the stored Jacobian
    and the cached prediction in place, and [getJ] returns the stored
    Jacobian whenever there is one, whatever model it is called with. *)
Theorem C5_model_change_keeps_caches (E : Externals) (m : vec)
    (f : option FieldObj) (s : Simulation) :
  (model (snd (set_model m s)) = Some m /\
   Ainv (snd (set_model m s)) = Ainv s /\
   _f (snd (set_model m s)) = _f s /\
   _Jmatrix (snd (set_model m s)) = _Jmatrix s /\
   _pred (snd (set_model m s)) = _pred s) /\
  (forall J, _Jmatrix s = Some J ->
     run_result (getJ E m f s) = Ok J /\
     _Jmatrix (run_state (getJ E m f s)) = Some J /\
     _f (run_state (getJ E m f s)) = _f s /\
     Ainv (run_state (getJ E m f s)) = Ainv s).
Proof.
  split.
  - repeat split.
  - intros J HJ. unfold getJ, depth.
    rewrite (getJ_cached_run E 7 m f (J := J)) by exact HJ.
    destruct (vlog_frame "Calculating J and storing" (with_model (Some m) s))
      as (_ & _ & _ & W4 & W5 & W6 & _).
    unfold run_result, run_state. cbn [fst snd].
    rewrite W4, W5, W6. repeat split; auto.
Qed.

Lemma C5_model_change_keeps_caches_witness :
  run_result (getJ (Toy.plain false) Toy.m1 None stored_instance) =
    Ok {| base := {| buf_rows := 2;
                     buf_cols := [[-3; -5]; [3; 10]; [0; 5]]%Z |};
          transposed := true |} /\
  _Jmatrix (run_state (getJ (Toy.plain false) Toy.m1 None stored_instance)) =
    Some {| base := {| buf_rows := 2;
                       buf_cols := [[-3; -5]; [3; 10]; [0; 5]]%Z |};
            transposed := true |} /\
  _f (run_state (getJ (Toy.plain false) Toy.m1 None stored_instance)) =
    _f stored_instance /\
  Ainv (run_state (getJ (Toy.plain false) Toy.m1 None stored_instance)) =
    Ainv stored_instance.
Proof.
  apply (proj2 (@C5_model_change_keeps_caches (Toy.plain false) Toy.m1 None
                  stored_instance)).
  reflexivity.
Defined.

(** C5, as stated, fails: in explicit-storage mode, [getJ(m1)] after a
    [fields(m0)] that assembled the matrix returns the matrix computed for
    [m0], although the Jacobian of [m1] is another one. *)
Lemma C5_counterexample :
  exists J0 s1 s2 J1 s3,
    getJ (Toy.plain false) Toy.m0 None
      (snd (fields (Toy.plain false) Toy.m0
              (Problem3D_CC_init false true "volt"))) = (Ok J0, s1) /\
    Toy.m1 <> Toy.m0 /\
    getJ (Toy.plain false) Toy.m1 None s1 = (Ok J0, s2) /\
    model s2 = Some Toy.m1 /\
    getJ (Toy.plain false) Toy.m1 None
      (snd (fields (Toy.plain false) Toy.m1
              (Problem3D_CC_init false true "volt"))) = (Ok J1, s3) /\
    J1 <> J0.
Proof.
  do 5 eexists.
  split; [vm_compute; reflexivity|].
  split; [discriminate|].
  split; [vm_compute; reflexivity|].
  split; [reflexivity|].
  split; [vm_compute; reflexivity|].
  discriminate.
Qed.

(** C8 (as amended) -- a vector of the wrong length is not rejected up
    front.  In explicit-storage mode it is the dense product that raises,
    after [getJ] has handed back the stored matrix; in adjoint-state mode
    [Jtvec] raises only when [_Jtvec] wraps the vector in the [Data]
    container, after [fields(m)] has run. *)
Theorem C8_size_errors_surface_late (E : Externals) (m : vec)
    (s : Simulation) :
  (forall v f J,
     storeJ s = true -> _Jmatrix s = Some J ->
     length v <> snd (shape J) ->
     Jvec E m v f s =
     (Err ValueError,
      vlog "Calculating J and storing" (with_model (Some m) s))) /\
  (forall w f J,
     storeJ s = true -> _Jmatrix s = Some J ->
     length w <> fst (shape J) ->
     Jtvec E m w f s =
     (Err ValueError,
      vlog "Calculating J and storing" (with_model (Some m) s))) /\
  (forall w f' s',
     storeJ s = false ->
     length w <> survey_nD (survey E) ->
     fields E m (with_model (Some m) s) = (Ok f', s') ->
     Jtvec E m w None s = (Err AssertionError, s')).
Proof.
  split; [|split].
  - intros v f J Hs HJ Hlen. unfold Jvec, depth.
    rewrite (@Jvec_stored_run E 6 m v f J s Hs HJ).
    unfold dot2. apply Nat.eqb_neq in Hlen. rewrite Hlen. reflexivity.
  - intros w f J Hs HJ Hlen.
    rewrite (@Jtvec_stored_run E m w f J s Hs HJ).
    unfold dot2.
    replace (snd (shape (T J))) with (fst (shape J))
      by (unfold shape, T; cbn [transposed base];
          destruct (transposed J); reflexivity).
    apply Nat.eqb_neq in Hlen. rewrite Hlen. reflexivity.
  - intros w f' s' Hs Hlen Hf.
    rewrite Jtvec_adjoint_None_run by exact Hs. rewrite Hf.
    rewrite Jtvec_dir_run. unfold Data.
    apply Nat.eqb_neq in Hlen. rewrite Hlen. reflexivity.
Qed.

Lemma C8_size_errors_surface_late_witness :
  Jvec (Toy.plain false) Toy.m0 [1; 2; 3]%Z None stored_instance =
    (Err ValueError,
     vlog "Calculating J and storing"
       (with_model (Some Toy.m0) stored_instance)) /\
  Jtvec (Toy.env false) Toy.m0 [1; 2]%Z None
    (Problem3D_N_init false false "volt") =
    (Err AssertionError,
     snd (fields (Toy.env false) Toy.m0
            (with_model (Some Toy.m0) (Problem3D_N_init false false "volt")))).
Proof.
  split.
  - apply (proj1 (@C8_size_errors_surface_late (Toy.plain false) Toy.m0
                    stored_instance)
             [1; 2; 3]%Z None
             {| base := {| buf_rows := 2;
                           buf_cols := [[-3; -5]; [3; 10]; [0; 5]]%Z |};
                transposed := true |}).
    + reflexivity.
    + reflexivity.
    + vm_compute. discriminate.
  - apply (proj2 (proj2 (@C8_size_errors_surface_late (Toy.env false) Toy.m0
                           (Problem3D_N_init false false "volt")))
             [1; 2]%Z (Some (Fields [[1; -1]]%Z))).
    + reflexivity.
    + vm_compute. discriminate.
    + vm_compute. reflexivity.
Defined.

(** C8, as stated, fails: on a fresh instance [Jtvec] with a data vector
    of the wrong length assembles and factorises the operator, solves for
    the fields and runs a forward evaluation before it raises. *)
Lemma C8_counterexample :
  exists e s',
    Jtvec (Toy.env false) Toy.m0 [1; 2]%Z None
      (Problem3D_N_init false false "volt") = (Err e, s') /\
    length [1; 2]%Z <> survey_nD (survey (Toy.env false)) /\
    trace s' = [CallGetA; CallSolver; CallGetRHS; CallForward] /\
    count is_linear_algebra (trace s') = 4 /\
    Ainv s' = factorized (Toy.env false) /\
    _f s' = Some (Fields [[1; -1]]%Z).
Proof.
  do 2 eexists.
  split; [vm_compute; reflexivity|].
  split; [vm_compute; discriminate|].
  repeat split.
Qed.

(** * Further properties *)

(** X1 -- the Jacobian is assembled once.  A [getJ] that returns has
    stored the matrix it returns, and every later [getJ], with whatever
    model and field, hands that matrix back and only assigns the model.
    When it had to assemble, it leaves the empty list in place of the
    field object and a released factorisation. *)
Theorem X1_getJ_assembles_once (E : Externals) (m : vec)
    (f : option FieldObj) (s s1 : Simulation) (J : ndarray2) :
  getJ E m f s = (Ok J, s1) ->
  _Jmatrix s1 = Some J /\
  (forall m' f',
     getJ E m' f' s1 =
     (Ok J, vlog "Calculating J and storing" (with_model (Some m') s1))) /\
  (_Jmatrix s = None ->
   _f s1 = Some EmptyList /\
   (Ainv s1 = None \/ exists fa, Ainv s1 = Some fa /\ cleaned fa = true)).
Proof.
  unfold getJ, depth. intros Hrun.
  destruct (getJ_post E _ _ _ _ Hrun) as [H1 H2].
  split; [exact H1|]. split; [|exact H2].
  intros m' f'. apply getJ_cached_run. exact H1.
Qed.

Lemma X1_getJ_assembles_once_witness :
  _Jmatrix (snd (getJ (Toy.plain true) Toy.m0 (_f (primed_instance true))
                   (primed_instance true)))
  = Some {| base := {| buf_rows := 2;
                       buf_cols := [[-3; -5]; [3; 10]; [0; 5]]%Z |};
            transposed := true |} /\
  (forall m' f',
     getJ (Toy.plain true) m' f'
       (snd (getJ (Toy.plain true) Toy.m0 (_f (primed_instance true))
               (primed_instance true)))
     = (Ok {| base := {| buf_rows := 2;
                         buf_cols := [[-3; -5]; [3; 10]; [0; 5]]%Z |};
              transposed := true |},
        vlog "Calculating J and storing"
          (with_model (Some m')
             (snd (getJ (Toy.plain true) Toy.m0 (_f (primed_instance true))
                     (primed_instance true)))))) /\
  (_Jmatrix (primed_instance true) = None ->
   _f (snd (getJ (Toy.plain true) Toy.m0 (_f (primed_instance true))
              (primed_instance true))) = Some EmptyList /\
   (Ainv (snd (getJ (Toy.plain true) Toy.m0 (_f (primed_instance true))
                 (primed_instance true))) = None \/
    exists fa,
      Ainv (snd (getJ (Toy.plain true) Toy.m0 (_f (primed_instance true))
                   (primed_instance true))) = Some fa /\
      cleaned fa = true)).
Proof.
  apply (@X1_getJ_assembles_once (Toy.plain true) Toy.m0
           (_f (primed_instance true)) (primed_instance true)).
  vm_compute. reflexivity.
Defined.

(** X2 -- after [getJ] has assembled on an instance in adjoint-state
    mode, the field object is the empty list: with at least one source
    in the survey, [fields], [dpred], [Jvec] and [Jtvec] called without a
    field all raise [TypeError]. *)
Theorem X2_adjoint_calls_fail_after_getJ (E : Externals) (m0 : vec)
    (f : option FieldObj) (s s1 : Simulation) (J : ndarray2) :
  getJ E m0 f s = (Ok J, s1) ->
  _Jmatrix s = None ->
  storeJ s = false ->
  srcList (survey E) <> [] ->
  forall m v w,
    run_result (fields E m s1) = Err TypeError /\
    run_result (dpred E m None s1) = Err TypeError /\
    run_result (Jvec E m v None s1) = Err TypeError /\
    run_result (Jtvec E m w None s1) = Err TypeError.
Proof.
  unfold getJ, depth. intros Hrun HJ Hs Hne m v w.
  destruct (getJ_post E _ _ _ _ Hrun) as [_ H2].
  destruct (H2 HJ) as [Hf _].
  destruct (getJ_keeps E _ _ _ _ Hrun) as (_ & K2 & _).
  rewrite Hs in K2.
  assert (F : forall s2, storeJ s2 = false -> _f s2 = Some EmptyList ->
                         fst (fields_ E 8 m s2) = Err TypeError).
  { intros s2 A B. apply (fields_emptied E 5 m s2 A B Hne). }
  assert (F7 : forall s2, storeJ s2 = false -> _f s2 = Some EmptyList ->
                          fst (fields_ E 7 m s2) = Err TypeError).
  { intros s2 A B. apply (fields_emptied E 4 m s2 A B Hne). }
  unfold run_result. repeat split.
  - apply F; assumption.
  - unfold dpred, bind, gets, fields, depth.
    pose proof (F s1 K2 Hf) as H.
    destruct (fields_ E 8 m s1) as [[f'|e] s2]; cbn [fst] in H;
      [discriminate|]. cbn [fst]. congruence.
  - unfold Jvec, depth. rewrite Jvec_adjoint_None_run by exact K2.
    pose proof (F7 (with_model (Some m) s1) K2 Hf) as H.
    destruct (fields_ E 7 m (with_model (Some m) s1)) as [[f'|e] s2];
      cbn [fst] in H; [discriminate|]. cbn [fst]. congruence.
  - rewrite Jtvec_adjoint_None_run by exact K2. unfold fields, depth.
    pose proof (F (with_model (Some m) s1) K2 Hf) as H.
    destruct (fields_ E 8 m (with_model (Some m) s1)) as [[f'|e] s2];
      cbn [fst] in H; [discriminate|]. cbn [fst]. congruence.
Qed.

Lemma X2_adjoint_calls_fail_after_getJ_witness :
  run_result (fields (Toy.plain true) Toy.m1
                (snd (getJ (Toy.plain true) Toy.m0
                        (_f (primed_instance false))
                        (primed_instance false))))
  = Err TypeError /\
  run_result (dpred (Toy.plain true) Toy.m1 None
                (snd (getJ (Toy.plain true) Toy.m0
                        (_f (primed_instance false))
                        (primed_instance false))))
  = Err TypeError /\
  run_result (Jvec (Toy.plain true) Toy.m1 [1; 2]%Z None
                (snd (getJ (Toy.plain true) Toy.m0
                        (_f (primed_instance false))
                        (primed_instance false))))
  = Err TypeError /\
  run_result (Jtvec (Toy.plain true) Toy.m1 [1; 2; 3]%Z None
                (snd (getJ (Toy.plain true) Toy.m0
                        (_f (primed_instance false))
                        (primed_instance false))))
  = Err TypeError.
Proof.
  apply (@X2_adjoint_calls_fail_after_getJ (Toy.plain true) Toy.m0
           (_f (primed_instance false)) (primed_instance false)
           (snd (getJ (Toy.plain true) Toy.m0 (_f (primed_instance false))
                   (primed_instance false)))
           {| base := {| buf_rows := 2;
                         buf_cols := [[-3; -5]; [3; 10]; [0; 5]]%Z |};
              transposed := true |}).
  - vm_compute. reflexivity.
  - reflexivity.
  - reflexivity.
  - simpl. discriminate.
Defined.

(** X3 -- explicit storage bypasses the adjoint-state machinery.  With a
    stored matrix, [Jvec] and [Jtvec] assign the model and nothing else:
    field object (even an absent one), factorisation, receivers, cached
    prediction and matrix stay as they are, and no assembly, solve or
    forward evaluation is added to the trace. *)
Theorem X3_stored_mode_bypass (E : Externals) (m v w : vec)
    (f : option FieldObj) (J : ndarray2) (s : Simulation) :
  storeJ s = true -> _Jmatrix s = Some J ->
  (forall s', s' = run_state (Jvec E m v f s) \/
              s' = run_state (Jtvec E m w f s) ->
     model s' = Some m /\ _f s' = _f s /\ Ainv s' = Ainv s /\
     _Jmatrix s' = Some J /\ _pred s' = _pred s /\
     receivers s' = receivers s /\
     count is_linear_algebra (trace s') = count is_linear_algebra (trace s)).
Proof.
  intros Hs HJ s' Hs'.
  assert (H : s' = vlog "Calculating J and storing" (with_model (Some m) s)).
  { destruct Hs' as [-> | ->]; unfold run_state.
    - unfold Jvec, depth. rewrite (@Jvec_stored_run E 6 m v f J s Hs HJ).
      reflexivity.
    - rewrite (@Jtvec_stored_run E m w f J s Hs HJ). reflexivity. }
  subst s'.
  destruct (vlog_frame "Calculating J and storing" (with_model (Some m) s))
    as (_ & _ & W3 & W4 & W5 & W6 & W7 & W8 & _).
  rewrite W3, W4, W5, W6, W7, W8, vlog_count by (repeat split).
  repeat split; auto.
Qed.

Lemma X3_stored_mode_bypass_witness :
  model (run_state (Jvec (Toy.plain false) Toy.m1 [1; 2]%Z None
                      stored_instance)) = Some Toy.m1 /\
  _f (run_state (Jvec (Toy.plain false) Toy.m1 [1; 2]%Z None
                   stored_instance)) = _f stored_instance /\
  Ainv (run_state (Jvec (Toy.plain false) Toy.m1 [1; 2]%Z None
                     stored_instance)) = Ainv stored_instance /\
  _Jmatrix (run_state (Jvec (Toy.plain false) Toy.m1 [1; 2]%Z None
                         stored_instance)) =
    Some {| base := {| buf_rows := 2;
                       buf_cols := [[-3; -5]; [3; 10]; [0; 5]]%Z |};
            transposed := true |} /\
  _pred (run_state (Jvec (Toy.plain false) Toy.m1 [1; 2]%Z None
                      stored_instance)) = _pred stored_instance /\
  receivers (run_state (Jvec (Toy.plain false) Toy.m1 [1; 2]%Z None
                          stored_instance)) = receivers stored_instance /\
  count is_linear_algebra
    (trace (run_state (Jvec (Toy.plain false) Toy.m1 [1; 2]%Z None
                         stored_instance))) =
    count is_linear_algebra (trace stored_instance).
Proof.
  apply (@X3_stored_mode_bypass (Toy.plain false) Toy.m1 [1; 2]%Z [1; 2; 3]%Z
           None _ stored_instance eq_refl eq_refl _ (or_introl eq_refl)).
Defined.

(** X4 -- the base class yields nothing but empty vectors.  While [sign]
    is [None], as the base class leaves it, a [Jvec] or [Jtvec] that
    returns returns the empty vector, and after a [fields] or a [dpred]
    without a field that returns, the predicted data are the empty
    vector: the product with [None] raises on anything else. *)
Theorem X4_no_sign_only_empty (E : Externals) (m v w : vec)
    (f : option FieldObj) (s : Simulation) :
  sign s = None ->
  (forall x s', fields E m s = (Ok x, s') -> _pred s' = Some []) /\
  (forall x s', dpred E m None s = (Ok x, s') -> x = Some []) /\
  (forall x s', Jvec E m v f s = (Ok x, s') -> x = []) /\
  (forall x s', Jtvec E m w f s = (Ok x, s') -> x = []).
Proof.
  intros Hsg.
  assert (F : forall n s0 x s',
             sign s0 = None -> fields_ E (S (S (S (S n)))) m s0 = (Ok x, s') ->
             _pred s' = Some []).
  { intros n s0 x s' H Hrun. exact (fields_no_sign E n m s0 H Hrun). }
  split; [|split; [|split]].
  - intros x s'. apply (F 4). exact Hsg.
  - intros x s' Hrun. unfold dpred, bind, gets, fields, depth in Hrun.
    destruct (fields_ E 8 m s) as [[f'|e] s2] eqn:Hf; [|discriminate].
    inversion Hrun; subst. exact (F 4 _ _ _ Hsg Hf).
  - intros x s' Hrun. unfold Jvec, depth in Hrun.
    destruct f as [fo|].
    + exact (Jvec_Some_no_sign E 6 m v fo s Hsg Hrun).
    + destruct (storeJ s) eqn:Hs.
      * rewrite Jvec_stored_mode_run in Hrun by exact Hs.
        destruct (getJ_ E 7 m None (with_model (Some m) s))
          as [[J|e] s3] eqn:HJ; [|discriminate].
        destruct (getJ_keeps E 2 _ _ _ HJ) as (_ & _ & K3 & _).
        cbn [sign with_model] in K3. rewrite K3, Hsg in Hrun.
        inversion Hrun as [[Hr Hst]]. exact (rbind_sign_mul_None _ Hr).
      * rewrite Jvec_adjoint_None_run in Hrun by exact Hs.
        destruct (fields_ E 7 m (with_model (Some m) s))
          as [[f'|e] s2] eqn:Hf; [|discriminate].
        destruct (fields_keeps E 3 _ _ Hf) as (_ & _ & K3 & _).
        cbn [sign with_model] in K3. rewrite K3, Hsg in Hrun.
        inversion Hrun as [[Hr Hst]].
        destruct (Jvec_srcs _ _ _ _ _ _ _ _) as [Jv|e]; [|discriminate].
        cbn [rbind] in Hr. exact (rbind_sign_mul_None _ Hr).
  - intros x s' Hrun. destruct (storeJ s) eqn:Hs.
    + unfold Jtvec in Hrun. unfold bind at 1, gets at 1 in Hrun.
      rewrite Hs in Hrun.
      unfold bind at 1 in Hrun. unfold getJ, depth in Hrun.
      destruct (getJ_ E 8 m f s) as [[J|e] s3] eqn:HJ; [|discriminate].
      destruct (getJ_keeps E 3 _ _ _ HJ) as (_ & _ & K3 & _).
      unfold bind, lift, gets in Hrun. rewrite K3, Hsg in Hrun.
      destruct (dot2 (T J) w) as [Jd|e]; cbn [rbind] in Hrun;
        [|discriminate].
      destruct (sign_mul None Jd) as [y|e] eqn:Hy; [|discriminate].
      inversion Hrun; subst. exact (sign_mul_None _ Hy).
    + destruct f as [fo|].
      * unfold Jtvec in Hrun. unfold bind at 1, gets at 1 in Hrun.
        rewrite Hs in Hrun.
        unfold bind at 1 in Hrun. rewrite set_model_run in Hrun.
        unfold bind at 1 in Hrun.
        unfold ret in Hrun. rewrite Jtvec_dir_run in Hrun.
        cbn [sign with_model] in Hrun. rewrite Hsg in Hrun.
        destruct (Data (survey E) w); [|discriminate].
        destruct (Jtvec_srcs _ _ _ _ _ _ _ _ _ _) as [out r].
        inversion Hrun as [[Hr Hst]]. exact (rbind_sign_mul_None _ Hr).
      * rewrite Jtvec_adjoint_None_run in Hrun by exact Hs.
        unfold fields, depth in Hrun.
        destruct (fields_ E 8 m (with_model (Some m) s))
          as [[f'|e] s2] eqn:Hf; [|discriminate].
        destruct (fields_keeps E 4 _ _ Hf) as (_ & _ & K3 & _).
        cbn [sign with_model] in K3.
        rewrite Jtvec_dir_run in Hrun. rewrite K3, Hsg in Hrun.
        destruct (Data (survey E) w); [|discriminate].
        destruct (Jtvec_srcs _ _ _ _ _ _ _ _ _ _) as [out r].
        inversion Hrun as [[Hr Hst]]. exact (rbind_sign_mul_None _ Hr).
Qed.

Lemma X4_no_sign_only_empty_witness :
  _pred (snd (fields bare_env Toy.m0
                (BaseIPSimulation_init false true "volt"))) = Some [].
Proof.
  apply (proj1 (@X4_no_sign_only_empty bare_env Toy.m0 [] [] None
                  (BaseIPSimulation_init false true "volt") eq_refl)
           (Some EmptyList)).
  vm_compute. reflexivity.
Defined.

(** X5 -- progress output of [_Jtvec].  A [_Jtvec] that returns, in
    either form, has written one progress line [i+1 / nSrc] per source,
    in order, exactly when [storeJ] is set, and nothing otherwise; it
    changes nothing else of the instance. *)
Theorem X5_Jtvec_progress_lines (E : Externals) (m : vec) (v : option vec)
    (f : option FieldObj) (s s' : Simulation) (r : JtvecResult v) :
  _Jtvec E m v f s = (Ok r, s') ->
  s' = log (if storeJ s
            then map (fun i => Progress (i + 1) (survey_nSrc (survey E)))
                   (seq 0 (survey_nSrc (survey E)))
            else []) s.
Proof.
  destruct v as [w|]; cbn [JtvecResult] in r.
  - rewrite Jtvec_dir_run. destruct (Data (survey E) w) as [d|e];
      [|discriminate].
    destruct (Jtvec_srcs _ _ _ _ _ _ _ _ _ _) as [out [acc|e]] eqn:Hl;
      [|discriminate].
    apply Jtvec_srcs_progress in Hl. intros Hrun.
    injection Hrun as _ <-. rewrite Hl. reflexivity.
  - rewrite Jtvec_full_run. destruct (model s) as [m'|]; [|discriminate].
    destruct (Jtvec_srcs _ _ _ _ _ _ _ _ _ _) as [out [acc|e]] eqn:Hl;
      [|discriminate].
    apply Jtvec_srcs_progress in Hl. intros Hrun.
    injection Hrun as _ <-. rewrite Hl. reflexivity.
Qed.

Lemma X5_Jtvec_progress_lines_witness :
  snd (_Jtvec (Toy.plain true) Toy.m0 None (Some (Fields [[1; -1]%Z]))
         (with_model (Some Toy.m0)
            (with_Ainv (factorized (Toy.plain true))
               (Problem3D_N_init false true "volt"))))
  = log [Progress 1 1]
      (with_model (Some Toy.m0)
         (with_Ainv (factorized (Toy.plain true))
            (Problem3D_N_init false true "volt"))).
Proof.
  apply (@X5_Jtvec_progress_lines (Toy.plain true) Toy.m0 None
           (Some (Fields [[1; -1]%Z]))
           (with_model (Some Toy.m0)
              (with_Ainv (factorized (Toy.plain true))
                 (Problem3D_N_init false true "volt")))
           _
           {| base := {| buf_rows := 2;
                         buf_cols := [[-3; -5]; [3; 10]; [0; 5]]%Z |};
              transposed := false |}).
  vm_compute. reflexivity.
Defined.

(** X6 -- [Jvec] is linear in its direction.  On an instance in
    adjoint-state mode that is ready to solve, or in explicit-storage mode
    with a stored matrix, the product with [a*x + b*y] is [a] times the
    product with [x] plus [b] times the product with [y]. *)
Theorem X6_Jvec_linear (E : Externals) (nC nU : nat) (nP : Rx -> nat)
    (m x y : vec) (a b sg : Z) (s : Simulation) :
  Contracts E nC nU nP ->
  has_receiver (survey E) ->
  length m = nC -> length x = nC -> length y = nC ->
  sign s = Some sg ->
  (storeJ s = false /\ ready E s) \/
  (storeJ s = true /\
   exists J, _Jmatrix s = Some J /\ stored_J J (survey_nD (survey E)) nC) ->
  exists Jx Jy,
    run_result (Jvec E m x None s) = Ok Jx /\
    run_result (Jvec E m y None s) = Ok Jy /\
    run_result (Jvec E m (lin2 a x b y) None s) = Ok (lin2 a Jx b Jy).
Proof.
  intros HC Hr Hm Hx Hy Hsg [[Hs Hready]|[Hs (J & HJ & HJs)]].
  - destruct (@Jvec_adjoint_result E nC nU nP HC Hr m Hm sg s Hs Hsg Hready)
      as (cols & s1 & Hlen & Hall).
    destruct (@Jvec_srcs_linear E nC nU nP HC (receivers s1) cols m Hm Hlen
                a b x y Hx Hy)
      as (Jx & Jy & Jxy & HJx & HJy & HJxy & _ & _ & _ & Hcat).
    assert (Hxy : length (lin2 a x b y) = nC)
      by (rewrite length_lin2; congruence).
    destruct (Hall x Hx) as (Jx' & HJx' & _ & Rx).
    destruct (Hall y Hy) as (Jy' & HJy' & _ & Ry).
    destruct (Hall _ Hxy) as (Jxy' & HJxy' & _ & Rxy).
    assert (Jx' = Jx) by congruence. subst Jx'.
    assert (Jy' = Jy) by congruence. subst Jy'.
    assert (Jxy' = Jxy) by congruence. subst Jxy'.
    exists (scale sg (concat Jx)), (scale sg (concat Jy)).
    unfold run_result. rewrite Rx, Ry, Rxy. cbn [fst].
    repeat split. rewrite Hcat, scale_lin2. reflexivity.
  - assert (Hxy : length (lin2 a x b y) = nC)
      by (rewrite length_lin2; congruence).
    exists (scale sg (map (fun c => dot c x) (buf_cols (base J)))),
           (scale sg (map (fun c => dot c y) (buf_cols (base J)))).
    unfold run_result, Jvec, depth.
    rewrite !(@Jvec_stored_run E 6 m _ None J s Hs HJ). cbn [fst].
    rewrite (@dot2_stored J _ nC x HJs Hx), (@dot2_stored J _ nC y HJs Hy),
      (@dot2_stored J _ nC _ HJs Hxy).
    cbn [rbind]. rewrite Hsg. cbn [sign_mul].
    repeat split. rewrite map_dot_lin2 by congruence.
    rewrite scale_lin2. reflexivity.
Qed.

Lemma X6_Jvec_linear_witness :
  exists Jx Jy,
    run_result (Jvec (Toy.env true) Toy.m0 [1; 2]%Z None
                  (Problem3D_N_init false false "volt")) = Ok Jx /\
    run_result (Jvec (Toy.env true) Toy.m0 [4; -1]%Z None
                  (Problem3D_N_init false false "volt")) = Ok Jy /\
    run_result (Jvec (Toy.env true) Toy.m0
                  (lin2 2 [1; 2]%Z (-3) [4; -1]%Z) None
                  (Problem3D_N_init false false "volt"))
    = Ok (lin2 2 Jx (-3) Jy).
Proof.
  apply (@X6_Jvec_linear (Toy.env true) 2 2 (fun _ => 2) Toy.m0
           [1; 2]%Z [4; -1]%Z 2%Z (-3)%Z (-1)%Z
           (Problem3D_N_init false false "volt")).
  - apply Toy_contracts.
  - apply Toy_has_receiver.
  - reflexivity.
  - reflexivity.
  - reflexivity.
  - reflexivity.
  - left. split; [reflexivity|]. simpl. left. reflexivity.
Defined.

(** X7 -- [Jtvec] is linear in the data vector, in both modes: the
    product with [a*w1 + b*w2] is [a] times the product with [w1] plus
    [b] times the product with [w2]. *)
Theorem X7_Jtvec_linear (E : Externals) (nC nU : nat) (nP : Rx -> nat)
    (m w1 w2 : vec) (a b sg : Z) (s : Simulation) :
  Contracts E nC nU nP ->
  has_receiver (survey E) ->
  length m = nC ->
  length w1 = survey_nD (survey E) -> length w2 = survey_nD (survey E) ->
  sign s = Some sg ->
  (storeJ s = false /\ ready E s) \/
  (storeJ s = true /\
   exists J, _Jmatrix s = Some J /\ stored_J J (survey_nD (survey E)) nC) ->
  exists J1 J2,
    run_result (Jtvec E m w1 None s) = Ok J1 /\
    run_result (Jtvec E m w2 None s) = Ok J2 /\
    run_result (Jtvec E m (lin2 a w1 b w2) None s) = Ok (lin2 a J1 b J2).
Proof.
  intros HC Hr Hm H1 H2 Hsg [[Hs Hready]|[Hs (J & HJ & HJs)]].
  - destruct (@Jtvec_adjoint_result E nC nU nP HC Hr m Hm sg s Hs Hsg Hready)
      as (cols & s1 & Hlen & Hall).
    destruct (@Jtvec_srcs_linear E nC nU nP HC (receivers s1) cols m Hm Hlen
                false a b w1 w2 H1 H2)
      as (d1 & d2 & d12 & o1 & o2 & o12 & a1 & a2 & a12 &
          Hd1 & Hd2 & Hd12 & HJ1 & HJ2 & HJ12 & Hlin).
    assert (H12 : length (lin2 a w1 b w2) = survey_nD (survey E))
      by (rewrite length_lin2; congruence).
    destruct (Hall w1 H1) as (d1' & o1' & a1' & Hd1' & HJ1' & _ & R1).
    destruct (Hall w2 H2) as (d2' & o2' & a2' & Hd2' & HJ2' & _ & R2).
    destruct (Hall _ H12) as (d3' & o3' & a3' & Hd3' & HJ3' & _ & R3).
    assert (d1' = d1) by congruence. subst d1'.
    assert (d2' = d2) by congruence. subst d2'.
    assert (d3' = d12) by congruence. subst d3'.
    assert (a1' = a1) by congruence. subst a1'.
    assert (a2' = a2) by congruence. subst a2'.
    assert (a3' = a12) by congruence. subst a3'.
    exists (scale sg a1), (scale sg a2).
    unfold run_result. rewrite R1, R2, R3. cbn [fst].
    repeat split. rewrite Hlin, scale_lin2. reflexivity.
  - assert (H12 : length (lin2 a w1 b w2) = survey_nD (survey E))
      by (rewrite length_lin2; congruence).
    exists (scale sg (lincomb nC (buf_cols (base J)) w1)),
           (scale sg (lincomb nC (buf_cols (base J)) w2)).
    unfold run_result.
    rewrite !(@Jtvec_stored_run E m _ None J s Hs HJ). cbn [fst].
    rewrite (@dot2_T_stored J _ nC w1 HJs H1),
      (@dot2_T_stored J _ nC w2 HJs H2), (@dot2_T_stored J _ nC _ HJs H12).
    cbn [rbind]. rewrite Hsg. cbn [sign_mul].
    repeat split. rewrite lincomb_lin2.
    + rewrite scale_lin2. reflexivity.
    + destruct HJs as (_ & _ & _ & HF). exact HF.
    + congruence.
Qed.

Lemma X7_Jtvec_linear_witness :
  exists J1 J2,
    run_result (Jtvec (Toy.env true) Toy.m0 [1; 2; 3]%Z None
                  (Problem3D_CC_init false false "volt")) = Ok J1 /\
    run_result (Jtvec (Toy.env true) Toy.m0 [0; -1; 5]%Z None
                  (Problem3D_CC_init false false "volt")) = Ok J2 /\
    run_result (Jtvec (Toy.env true) Toy.m0
                  (lin2 2 [1; 2; 3]%Z (-3) [0; -1; 5]%Z) None
                  (Problem3D_CC_init false false "volt"))
    = Ok (lin2 2 J1 (-3) J2).
Proof.
  apply (@X7_Jtvec_linear (Toy.env true) 2 2 (fun _ => 2) Toy.m0
           [1; 2; 3]%Z [0; -1; 5]%Z 2%Z (-3)%Z 1%Z
           (Problem3D_CC_init false false "volt")).
  - apply Toy_contracts.
  - apply Toy_has_receiver.
  - reflexivity.
  - reflexivity.
  - reflexivity.
  - reflexivity.
  - left. split; [reflexivity|]. simpl. left. reflexivity.
Defined.

(** X8 -- the adjoint-state [Jtvec] is the transposed stored matrix.
    Take two instances that start from the same field object,
    factorisation and receivers: one in adjoint-state mode, whose
    derivatives come back deferred, and one in explicit-storage mode,
    whose derivatives come back as arrays with the same values.  With a
    right-hand side that does not depend on the model, [Jtvec(m, w)] on
    the first returns [sign] times the product with [w] of the transpose
    of the matrix that [fields(m)] stores on the second. *)
Theorem X8_Jtvec_is_transposed_stored_matrix (E : Externals) (nC nU : nat)
    (nP : Rx -> nat) (m w : vec) (sg sg' : Z) (s t : Simulation) :
  Contracts E nC nU nP ->
  IPContracts E nC nU ->
  has_receiver (survey E) ->
  length m = nC -> length w = survey_nD (survey E) ->
  sign s = Some sg -> storeJ s = false -> ready E s ->
  sign t = Some sg' -> storeJ t = true -> _Jmatrix t = None ->
  _f t = _f s -> Ainv t = Ainv s -> receivers t = receivers s ->
  data_type t = data_type s ->
  exists Jtv s1 f' t1 J Jd,
    Jtvec E m w None s = (Ok Jtv, s1) /\
    fields (eager E) m t = (Ok f', t1) /\
    _Jmatrix t1 = Some J /\
    dot2 (T J) w = Ok Jd /\
    Jtv = scale sg Jd.
Proof.
  intros HC HI Hr Hm Hw Hsg Hs Hready Hsg' Ht HJt Hf HA Hrx Hdt.
  destruct (@Jtvec_adjoint_columns E nC nU nP HC HI m w sg s Hr Hm Hw Hsg Hs
              Hready) as (cols & s1 & Hcols & Hlen & Hrun).
  assert (Hready' : ready (eager E) t).
  { unfold ready in *. rewrite Hf, HA. exact Hready. }
  destruct (@fields_stored_matrix (eager E) nC nU (eager_assembly HC HI) m Hm
              sg' 4 t Ht Hsg' HJt Hready')
    as (cols' & f' & t1 & Hcols' & Hfields & HJ).
  destruct (@before_forward_eager E (with_model (Some m) s) t)
    as [Bf Brx]; auto.
  rewrite Bf, Hcols in Hcols'. inversion Hcols'; subst cols'.
  rewrite Brx, Jt_columns_eager in HJ.
  change (survey (eager E)) with (survey E) in HJ.
  rewrite Hrun. unfold fields, depth. rewrite Hfields.
  eexists. eexists. eexists. eexists. eexists. eexists.
  split; [reflexivity|]. split; [reflexivity|]. split; [exact HJ|].
  split; [|reflexivity].
  unfold dot2, shape, T. cbn [base transposed negb buf_rows buf_cols snd].
  rewrite (length_Jt_columns E
             (receivers (before_forward E (with_model (Some m) s))) m Hm).
  2:{ unfold survey_nSrc in Hlen. lia. }
  rewrite <- survey_nD_srcs, Hw, Nat.eqb_refl. reflexivity.
Qed.

Lemma X8_Jtvec_is_transposed_stored_matrix_witness :
  exists Jtv s1 f' t1 J Jd,
    Jtvec (Toy.env false) Toy.m0 [1; 2; 3]%Z None
      (Problem3D_N_init false false "volt") = (Ok Jtv, s1) /\
    fields (eager (Toy.env false)) Toy.m0
      (Problem3D_N_init false true "volt") = (Ok f', t1) /\
    _Jmatrix t1 = Some J /\
    dot2 (T J) [1; 2; 3]%Z = Ok Jd /\
    Jtv = scale (-1) Jd.
Proof.
  apply (@X8_Jtvec_is_transposed_stored_matrix (Toy.env false) 2 2
           (fun _ => 2) Toy.m0 [1; 2; 3]%Z (-1)%Z (-1)%Z
           (Problem3D_N_init false false "volt")
           (Problem3D_N_init false true "volt")).
  - apply Toy_contracts.
  - apply Toy_IPcontracts.
  - apply Toy_has_receiver.
  - reflexivity.
  - reflexivity.
  - reflexivity.
  - reflexivity.
  - simpl. left. reflexivity.
  - reflexivity.
  - reflexivity.
  - reflexivity.
  - reflexivity.
  - reflexivity.
  - reflexivity.
  - reflexivity.
Defined.

(** X9 -- the first call in explicit-storage mode, with derivatives
    handed back as arrays.  On an instance with
    [storeJ] set and no matrix stored yet, [dpred(m)] returns a
    prediction, but [getJ(m)], [Jvec(m, v)] and [Jtvec(m, w)] called
    without a field raise [TypeError]: the nested [getJ] of the forward
    evaluation has already replaced the field object by the empty list.
    The matrix is stored all the same, so the same [getJ(m)] repeated
    returns it. *)
Theorem X9_first_call_in_storage_mode (E : Externals) (nC nU : nat)
    (m v w : vec) (sg : Z) (s : Simulation) :
  AssemblyContracts E nC nU ->
  srcList (survey E) <> [] ->
  length m = nC ->
  storeJ s = true -> sign s = Some sg -> _Jmatrix s = None -> ready E s ->
  (exists p, run_result (dpred E m None s) = Ok (Some p)) /\
  run_result (getJ E m None s) = Err TypeError /\
  run_result (Jvec E m v None s) = Err TypeError /\
  run_result (Jtvec E m w None s) = Err TypeError /\
  exists J,
    _Jmatrix (run_state (getJ E m None s)) = Some J /\
    stored_J J (survey_nD (survey E)) nC /\
    run_result (getJ E m None (run_state (getJ E m None s))) = Ok J.
Proof.
  intros HAsm Hne Hm Hs Hsg HJ Hready.
  destruct (@getJ_stored_first E nC nU HAsm m Hm sg 3 s Hne Hs Hsg HJ
              Hready) as (s1 & J & Hrun & G1 & G2 & _).
  fold depth in Hrun. fold (getJ E m None s) in Hrun.
  split; [|split; [|split; [|split]]].
  - destruct (@fields_stored_first E nC nU HAsm m Hm sg 4 s Hs Hsg HJ
                Hready) as (p & s3 & J' & Hf & Hp & _).
    exists p. unfold run_result, dpred, bind, gets, fields, depth.
    rewrite Hf. cbn [fst]. rewrite Hp. reflexivity.
  - unfold run_result. rewrite Hrun. reflexivity.
  - unfold run_result, Jvec, depth.
    rewrite Jvec_stored_mode_run by exact Hs.
    destruct (@getJ_stored_first E nC nU HAsm m Hm sg 2
                (with_model (Some m) s) Hne Hs Hsg HJ)
      as (s2 & J2 & Hrun2 & _).
    { unfold ready in *. cbn [_f Ainv with_model]. exact Hready. }
    rewrite Hrun2. reflexivity.
  - unfold run_result, Jtvec. unfold bind at 1, gets at 1. rewrite Hs.
    unfold bind at 1. rewrite Hrun. reflexivity.
  - exists J. unfold run_state. rewrite Hrun. cbn [snd].
    split; [exact G1|]. split; [exact G2|].
    unfold run_result, getJ, depth. rewrite (getJ_cached_run E 7 m None s1 G1).
    reflexivity.
Qed.

Lemma X9_first_call_in_storage_mode_witness :
  (exists p,
     run_result (dpred (Toy.plain false) Toy.m0 None
                   (Problem3D_CC_init false true "volt")) = Ok (Some p)) /\
  run_result (getJ (Toy.plain false) Toy.m0 None
                (Problem3D_CC_init false true "volt")) = Err TypeError /\
  run_result (Jvec (Toy.plain false) Toy.m0 [1; 2]%Z None
                (Problem3D_CC_init false true "volt")) = Err TypeError /\
  run_result (Jtvec (Toy.plain false) Toy.m0 [1; 2; 3]%Z None
                (Problem3D_CC_init false true "volt")) = Err TypeError /\
  exists J,
    _Jmatrix (run_state (getJ (Toy.plain false) Toy.m0 None
                           (Problem3D_CC_init false true "volt"))) = Some J /\
    stored_J J (survey_nD (survey (Toy.plain false))) 2 /\
    run_result (getJ (Toy.plain false) Toy.m0 None
                  (run_state (getJ (Toy.plain false) Toy.m0 None
                                (Problem3D_CC_init false true "volt"))))
    = Ok J.
Proof.
  apply (@X9_first_call_in_storage_mode (Toy.plain false) 2 2
           Toy.m0 [1; 2]%Z [1; 2; 3]%Z 1%Z
           (Problem3D_CC_init false true "volt")).
  - apply Toy_assembly.
  - simpl. discriminate.
  - reflexivity.
  - reflexivity.
  - reflexivity.
  - reflexivity.
  - simpl. left. reflexivity.
Defined.

(** X10 -- what [fields] does to the receivers.  When no field is cached
    and the data type is apparent chargeability, [fields] prepares every
    receiver of the survey (data type set, projection cache emptied, DC
    voltage attached), whether or not the forward evaluation then
    succeeds; with any other data type, or with a cached field, it leaves
    the receivers as they are. *)
Theorem X10_fields_prepares_receivers (E : Externals) (m : vec)
    (s : Simulation) :
  (_f s = None -> data_type s = "apparent_chargeability"%string ->
   forall src rx, in_survey E src rx ->
     primed "apparent_chargeability"%string
       (rx_lookup (receivers (run_state (fields E m s))) rx)) /\
  (_f s <> None \/ data_type s <> "apparent_chargeability"%string ->
   receivers (run_state (fields E m s)) = receivers s).
Proof.
  unfold run_state, fields, depth.
  destruct (fields_ E 8 m s) as [r s'] eqn:Hrun. cbn [snd].
  pose proof (fields_receivers E 4 m s Hrun) as Hrx.
  destruct (vlog_frame ">> Compute fields" s)
    as (_ & _ & _ & _ & W5 & _ & _ & W8 & W9).
  destruct (after_solve_receivers E (vlog ">> Compute fields" s))
    as [u Hu].
  rewrite W8, W9 in Hu.
  unfold before_forward in Hrx. cbv zeta in Hrx. rewrite W5 in Hrx.
  split.
  - intros Hf Hdt src rx Hin. rewrite Hf in Hrx. rewrite Hrx, Hu, Hdt.
    rewrite String.eqb_refl.
    apply (@prime_receivers_sets E _ u (receivers s) src rx Hin).
  - intros [Hf|Hdt].
    + destruct (_f s); [|congruence]. rewrite Hrx. exact W8.
    + destruct (_f s); [rewrite Hrx; exact W8|].
      rewrite Hrx, Hu. apply String.eqb_neq in Hdt. rewrite Hdt.
      reflexivity.
Qed.

Lemma X10_fields_prepares_receivers_witness :
  (forall src rx, in_survey (Toy.env true) src rx ->
     primed "apparent_chargeability"%string
       (rx_lookup
          (receivers
             (run_state
                (fields (Toy.env true) Toy.m0
                   (Problem3D_N_init false false "apparent_chargeability"%string))))
          rx)) /\
  receivers (run_state (fields (Toy.env true) Toy.m0
                          (Problem3D_N_init false false "volt"%string)))
  = receivers (Problem3D_N_init false false "volt"%string).
Proof.
  split.
  - apply (proj1 (@X10_fields_prepares_receivers (Toy.env true) Toy.m0
                    (Problem3D_N_init false false "apparent_chargeability"%string)));
      reflexivity.
  - apply (proj2 (@X10_fields_prepares_receivers (Toy.env true) Toy.m0
                    (Problem3D_N_init false false "volt"%string))).
    right. simpl. discriminate.
Defined.

(** X11 -- the two paths of [MeSigmaDeriv] are adjoint to each other.
    With either setting of the storage flag, whenever the direct path
    returns [r] for [v] and the adjoint path returns [rT] for [y] from
    the same cache, [y . r = rT . v], and both leave the same cache. *)
Theorem X11_MeSigmaDeriv_adjoint (P : PDE) (c c1 c2 : DerivCache)
    (u v y r rT : vec) :
  MeSigmaDeriv P u v false c = (Ok r, c1) ->
  MeSigmaDeriv P u y true c = (Ok rT, c2) ->
  dot y r = dot rT v /\ c1 = c2.
Proof.
  unfold MeSigmaDeriv. destruct (storeInnerProduct P).
  - destruct (MeSigmaDerivMat P c) as [[M|e] c']; [|discriminate].
    intros H1 H2. inversion H1 as [[R1 C1]]. inversion H2 as [[R2 C2]].
    split; [|congruence].
    destruct (Sp.matvec M v) as [x1|] eqn:E1; [|discriminate].
    destruct (Sp.matvec (Sp.sdiag u) y) as [x2|] eqn:E2; [|discriminate].
    cbn [rbind] in R1, R2.
    rewrite (matvec_sdiag_sym _ _ _ R1 E2).
    exact (matvec_adjoint _ _ _ E1 R2).
  - destruct (Sp.matmul (Sp.sdiag (sigma P)) (etaDeriv P)) as [d|e];
      [|discriminate].
    intros H1 H2. inversion H1 as [[R1 C1]]. inversion H2 as [[R2 C2]].
    split; [|congruence].
    destruct (Sp.matvec d v) as [x1|] eqn:E1; [|discriminate].
    destruct (Sp.matvec (Sp.T (getEdgeInnerProductDeriv P (sigma P) u)) y)
      as [x2|] eqn:E2; [|discriminate].
    cbn [rbind] in R1, R2.
    rewrite (matvec_adjoint _ _ _ R1 E2).
    exact (matvec_adjoint _ _ _ E1 R2).
Qed.

Lemma X11_MeSigmaDeriv_adjoint_witness :
  dot [1; -1]%Z [44; 198]%Z = dot [10; -58]%Z [2; 3]%Z /\
  snd (MeSigmaDeriv (ToyPDE.pde true [5; 1]%Z) [2; 11]%Z [2; 3]%Z false
         empty_cache) =
  snd (MeSigmaDeriv (ToyPDE.pde true [5; 1]%Z) [2; 11]%Z [1; -1]%Z true
         empty_cache).
Proof.
  apply (@X11_MeSigmaDeriv_adjoint (ToyPDE.pde true [5; 1]%Z) empty_cache
           _ _ [2; 11]%Z [2; 3]%Z [1; -1]%Z); vm_compute; reflexivity.
Defined.

(** X12 -- the two paths of [MfRhoIDeriv] are adjoint to each other, with
    either setting of the storage flag: whenever the direct path returns
    [r] for [v] and the adjoint path returns [rT] for [y] from the same
    cache, [y . r = rT . v], and both leave the same cache. *)
Theorem X12_MfRhoIDeriv_adjoint (P : PDE) (c c1 c2 : DerivCache)
    (u v y r rT : vec) :
  MfRhoIDeriv P u v false c = (Ok r, c1) ->
  MfRhoIDeriv P u y true c = (Ok rT, c2) ->
  dot y r = dot rT v /\ c1 = c2.
Proof.
  unfold MfRhoIDeriv.
  destruct (Sp.pow2 (MfRhoI P)) as [sq|e]; [|discriminate].
  cbv zeta. destruct (storeInnerProduct P).
  - destruct (MfRhoDerivMat P c) as [[M|e] c']; [|discriminate].
    intros H1 H2. inversion H1 as [[R1 C1]]. inversion H2 as [[R2 C2]].
    split; [|congruence].
    destruct (Sp.matvec M v) as [x1|] eqn:E1; [|discriminate].
    cbn [rbind] in R1.
    destruct (Sp.matvec (Sp.sdiag u) x1) as [x2|] eqn:E2; [|discriminate].
    destruct (Sp.matvec (Sp.T (Sp.neg sq)) y) as [y1|] eqn:F1;
      [|discriminate].
    cbn [rbind] in R2.
    destruct (Sp.matvec (Sp.sdiag u) y1) as [y2|] eqn:F2; [|discriminate].
    cbn [rbind] in R1, R2.
    rewrite (matvec_adjoint _ _ _ R1 F1).
    rewrite (matvec_sdiag_sym _ _ _ E2 F2).
    exact (matvec_adjoint _ _ _ E1 R2).
  - destruct (Sp.matmul (Sp.sdiag (rho P)) (etaDeriv P)) as [d|e];
      [|discriminate].
    intros H1 H2. inversion H1 as [[R1 C1]]. inversion H2 as [[R2 C2]].
    split; [|congruence].
    destruct (Sp.matvec d v) as [x1|] eqn:E1; [|discriminate].
    cbn [rbind] in R1.
    destruct (Sp.matvec (getFaceInnerProductDeriv P (rho P) u) x1)
      as [x2|] eqn:E2; [|discriminate].
    destruct (Sp.matvec (Sp.T (Sp.neg sq)) y) as [y1|] eqn:F1;
      [|discriminate].
    cbn [rbind] in R2.
    destruct (Sp.matvec (Sp.T (getFaceInnerProductDeriv P (rho P) u)) y1)
      as [y2|] eqn:F2; [|discriminate].
    cbn [rbind] in R1, R2.
    rewrite (matvec_adjoint _ _ _ R1 F1).
    rewrite (matvec_adjoint _ _ _ E2 F2).
    exact (matvec_adjoint _ _ _ E1 R2).
Qed.

Lemma X12_MfRhoIDeriv_adjoint_witness :
  dot [1; -1]%Z [-176; -1782]%Z = dot [-40; 562]%Z [2; 3]%Z /\
  snd (MfRhoIDeriv (ToyPDE.pde false [5; 1]%Z) [2; 11]%Z [2; 3]%Z false
         empty_cache) =
  snd (MfRhoIDeriv (ToyPDE.pde false [5; 1]%Z) [2; 11]%Z [1; -1]%Z true
         empty_cache).
Proof.
  apply (@X12_MfRhoIDeriv_adjoint (ToyPDE.pde false [5; 1]%Z) empty_cache
           _ _ [2; 11]%Z [2; 3]%Z [1; -1]%Z); vm_compute; reflexivity.
Defined.

(** X13 -- the source-term matrix.  For the nodal variant ([EB], [n] the
    number of nodes) and the cell-centred variant ([HJ], [n] the number of
    cells), when every source evaluates to [n] values, [getSourceTerm]
    returns the [n] by [nSrc] matrix whose column [i] is the term of
    source [i]. *)
Theorem X13_getSourceTerm_columns (_formulation : string) (mesh : Mesh)
    (Srcs : list Src) (src_eval : Src -> vec) (n : nat) :
  (_formulation = Problem3D_N_formulation /\ n = mesh_nN mesh) \/
  (_formulation = Problem3D_CC_formulation /\ n = mesh_nC mesh) ->
  (forall src, In src Srcs -> length (src_eval src) = n) ->
  getSourceTerm _formulation mesh Srcs src_eval =
  Returned {| buf_rows := n; buf_cols := map src_eval Srcs |}.
Proof.
  intros Hf Hlen. unfold getSourceTerm.
  assert (Hn : (if String.eqb _formulation "EB" then Some (mesh_nN mesh)
                else if String.eqb _formulation "HJ"
                     then Some (mesh_nC mesh) else None) = Some n).
  { destruct Hf as [[-> ->]|[-> ->]]; reflexivity. }
  rewrite Hn. unfold zeros2.
  pose proof (getSourceTerm_fill_spec src_eval n Srcs []
                (repeat (zeros n) (length Srcs)) (repeat_length _ _))
    as Hfill.
  cbn [app length] in Hfill. rewrite Hfill.
  rewrite fit_cols_same; [reflexivity|].
  apply Forall_forall. intros c Hc. apply in_map_iff in Hc.
  destruct Hc as (src & <- & Hsrc). apply Hlen, Hsrc.
Qed.

Lemma X13_getSourceTerm_columns_witness :
  getSourceTerm "HJ"
    {| mesh_nC := 2; mesh_nN := 3; mesh_nF := 2; mesh_nE := 2 |}
    [Toy.src0; Toy.src0] (fun src => [1; Z.of_nat (src_id src)]%Z) =
  Returned {| buf_rows := 2;
              buf_cols := map (fun src => [1; Z.of_nat (src_id src)]%Z)
                            [Toy.src0; Toy.src0] |}.
Proof.
  apply (@X13_getSourceTerm_columns "HJ"
           {| mesh_nC := 2; mesh_nN := 3; mesh_nF := 2; mesh_nE := 2 |}
           [Toy.src0; Toy.src0] (fun src => [1; Z.of_nat (src_id src)]%Z) 2).
  - right. split; reflexivity.
  - intros src _. reflexivity.
Defined.

(** X14 -- when [getSourceTerm] fails.  With a formulation tag other than
    [EB] and [HJ] the row count is never bound and the call raises
    [UnboundLocalError], even for a survey without sources; with a known
    tag, one source whose term has neither [n] values nor a single one
    makes the call raise [ValueError]. *)
Theorem X14_getSourceTerm_failures (_formulation : string) (mesh : Mesh)
    (Srcs : list Src) (src_eval : Src -> vec) :
  (_formulation <> "EB"%string -> _formulation <> "HJ"%string ->
   getSourceTerm _formulation mesh Srcs src_eval = RaisedUnboundLocalError) /\
  (forall n src,
     (_formulation = "EB"%string /\ n = mesh_nN mesh) \/
     (_formulation = "HJ"%string /\ n = mesh_nC mesh) ->
     In src Srcs ->
     length (src_eval src) <> n -> length (src_eval src) <> 1 ->
     getSourceTerm _formulation mesh Srcs src_eval = Raised ValueError).
Proof.
  split.
  - intros H1 H2. unfold getSourceTerm.
    apply String.eqb_neq in H1, H2. rewrite H1, H2. reflexivity.
  - intros n src Hf Hin Hn H1. unfold getSourceTerm.
    assert (Hsome : (if String.eqb _formulation "EB"
                     then Some (mesh_nN mesh)
                     else if String.eqb _formulation "HJ"
                          then Some (mesh_nC mesh) else None) = Some n).
    { destruct Hf as [[-> ->]|[-> ->]]; reflexivity. }
    rewrite Hsome. unfold zeros2.
    pose proof (getSourceTerm_fill_spec src_eval n Srcs []
                  (repeat (zeros n) (length Srcs)) (repeat_length _ _))
      as Hfill.
    cbn [app length] in Hfill. rewrite Hfill.
    rewrite (@fit_cols_bad n (map src_eval Srcs) (src_eval src));
      auto using in_map.
Qed.

Lemma X14_getSourceTerm_failures_witness :
  getSourceTerm "FE"
    {| mesh_nC := 2; mesh_nN := 3; mesh_nF := 2; mesh_nE := 2 |}
    [] (fun _ => [1; 0]%Z) = RaisedUnboundLocalError /\
  getSourceTerm "EB"
    {| mesh_nC := 2; mesh_nN := 3; mesh_nF := 2; mesh_nE := 2 |}
    [Toy.src0] (fun _ => [1; 0]%Z) = Raised ValueError.
Proof.
  split.
  - apply (proj1 (@X14_getSourceTerm_failures "FE"
                    {| mesh_nC := 2; mesh_nN := 3; mesh_nF := 2;
                       mesh_nE := 2 |} [] (fun _ => [1; 0]%Z)));
      vm_compute; discriminate.
  - apply (proj2 (@X14_getSourceTerm_failures "EB"
                    {| mesh_nC := 2; mesh_nN := 3; mesh_nF := 2;
                       mesh_nE := 2 |} [Toy.src0] (fun _ => [1; 0]%Z))
             3 Toy.src0).
    + left. split; reflexivity.
    + left. reflexivity.
    + vm_compute. discriminate.
    + vm_compute. discriminate.
Defined.

(** X15 -- [delete_these_for_sensitivity] succeeds exactly when the
    instance has all three attributes; it then removes the three and
    nothing else.  Any failure is an [AttributeError], and since the
    stored matrix is the first target, a second call in a row always
    raises and changes nothing. *)
Theorem X15_delete_these_for_sensitivity (s : Simulation) (c : MassCache) :
  (fst (delete_these_for_sensitivity (s, c)) = Ok tt <->
   _Jmatrix s <> None /\ _MfRhoI c <> None /\ _MeSigma c <> None) /\
  (fst (delete_these_for_sensitivity (s, c)) = Ok tt ->
   snd (delete_these_for_sensitivity (s, c)) =
   (with_Jmatrix None s, {| _MfRhoI := None; _MeSigma := None |})) /\
  (fst (delete_these_for_sensitivity (s, c)) <> Ok tt ->
   fst (delete_these_for_sensitivity (s, c)) = Err AttributeError) /\
  delete_these_for_sensitivity (snd (delete_these_for_sensitivity (s, c))) =
  (Err AttributeError, snd (delete_these_for_sensitivity (s, c))).
Proof.
  unfold delete_these_for_sensitivity.
  destruct s as [vb sj sg dt mdl ai f J p rxs tr].
  destruct c as [a b].
  destruct J as [J|], a as [a|], b as [b|]; cbn;
    (split; [split; [intros H; try discriminate;
                      repeat split; discriminate
                    |intros (H1 & H2 & H3); congruence]|]);
    (split; [intros H; try discriminate; reflexivity|]);
    (split; [intros H; try reflexivity; congruence|]);
    reflexivity.
Qed.

(** X16 -- releasing the sensitivity does not make it computable again.
    After [getJ] has assembled the matrix and
    [delete_these_for_sensitivity] has removed it, the field object is
    still the empty list: with at least one source in the survey the next
    [getJ(m)] raises [TypeError], with or without explicit storage. *)
Theorem X16_getJ_after_delete_raises (E : Externals) (m0 m : vec)
    (f : option FieldObj) (s0 s s' : Simulation) (c c' : MassCache)
    (J : ndarray2) :
  getJ E m0 f s0 = (Ok J, s) ->
  _Jmatrix s0 = None ->
  delete_these_for_sensitivity (s, c) = (Ok tt, (s', c')) ->
  srcList (survey E) <> [] ->
  run_result (getJ E m None s') = Err TypeError.
Proof.
  unfold getJ, depth. intros Hrun HJ0 Hdel Hne.
  destruct (getJ_post E _ _ _ _ Hrun) as [HJ H2].
  destruct (H2 HJ0) as [Hf _].
  assert (Hs' : s' = with_Jmatrix None s).
  { unfold delete_these_for_sensitivity in Hdel. rewrite HJ in Hdel.
    destruct (_MfRhoI c); [|discriminate]. cbn in Hdel.
    destruct (_MeSigma c); [|discriminate]. inversion Hdel. reflexivity. }
  subst s'. unfold run_result.
  rewrite getJ_uncached_run by reflexivity. cbv zeta.
  destruct (vlog_frame "Calculating J and storing"
              (with_model (Some m) (with_Jmatrix None s)))
    as (W1 & _ & _ & _ & W5 & W6 & _).
  cbn [storeJ _f _Jmatrix with_model with_Jmatrix] in W1, W5, W6.
  set (s1 := vlog "Calculating J and storing"
               (with_model (Some m) (with_Jmatrix None s))) in *.
  destruct (storeJ s) eqn:Hs.
  - rewrite fields_run. cbv zeta.
    destruct (vlog_frame ">> Compute fields" s1)
      as (V1 & _ & _ & _ & V5 & V6 & _).
    rewrite V5, W5, Hf. rewrite V5, W5, Hf.
    rewrite forward_run.
    rewrite Jvec_stored_mode_run
      by (cbn [storeJ log with_trace]; congruence).
    rewrite getJ_uncached_run
      by (cbn [_Jmatrix log with_trace with_model]; congruence).
    cbv zeta. rewrite Jtvec_full_run.
    destruct (vlog_frame "Calculating J and storing"
                (with_model (Some m)
                   (with_model (Some m)
                      (log [CallForward] (vlog ">> Compute fields" s1)))))
      as (_ & _ & U3 & _).
    cbn [model with_model] in U3. rewrite U3.
    rewrite Jtvec_srcs_EmptyList by exact Hne. reflexivity.
  - pose proof (@fields_emptied E 4 m s1) as Hfe.
    rewrite W1, W5 in Hfe. specialize (Hfe eq_refl Hf Hne).
    destruct (fields_ E 7 m s1) as [[f'|e] s2]; cbn [fst] in Hfe;
      [discriminate|]. cbn [fst]. congruence.
Qed.

Lemma X16_getJ_after_delete_raises_witness :
  run_result
    (getJ (Toy.plain true) Toy.m1 None
       (with_Jmatrix None
          (snd (getJ (Toy.plain true) Toy.m0 (_f (primed_instance true))
                  (primed_instance true)))))
  = Err TypeError.
Proof.
  apply (@X16_getJ_after_delete_raises (Toy.plain true) Toy.m0 Toy.m1
           (_f (primed_instance true)) (primed_instance true)
           (snd (getJ (Toy.plain true) Toy.m0 (_f (primed_instance true))
                   (primed_instance true)))
           _
           {| _MfRhoI := Some (Sp.sdiag [1]%Z);
              _MeSigma := Some (Sp.sdiag [1]%Z) |}
           {| _MfRhoI := None; _MeSigma := None |}
           {| base := {| buf_rows := 2;
                         buf_cols := [[-3; -5]; [3; 10]; [0; 5]]%Z |};
              transposed := true |}).
  - vm_compute. reflexivity.
  - reflexivity.
  - vm_compute. reflexivity.
  - simpl. discriminate.
Defined.

Lemma X15_delete_these_for_sensitivity_witness :
  snd (delete_these_for_sensitivity
         (stored_instance,
          {| _MfRhoI := Some (Sp.sdiag [1]%Z);
             _MeSigma := Some (Sp.sdiag [1]%Z) |})) =
  (with_Jmatrix None stored_instance,
   {| _MfRhoI := None; _MeSigma := None |}).
Proof.
  apply (proj1 (proj2 (@X15_delete_these_for_sensitivity stored_instance
                         {| _MfRhoI := Some (Sp.sdiag [1]%Z);
                            _MeSigma := Some (Sp.sdiag [1]%Z) |}))).
  reflexivity.
Defined.

(** X17 -- for [MeSigmaDeriv] the storage flag is an optimisation only.
    When the edge inner-product derivative at [u] is the one at a vector
    of ones with its rows scaled by [u], and nothing is cached yet, the
    call returns the same vector, or raises the same error, with and
    without [storeInnerProduct], on both paths. *)
Theorem X17_MeSigmaDeriv_storage_transparent (P : PDE) (u v : vec)
    (adjoint : bool) (c : DerivCache) :
  _MeSigmaDerivMat c = None ->
  row_scaled u
    (getEdgeInnerProductDeriv P (ones (mesh_nC (mesh P)))
       (ones (mesh_nE (mesh P))))
    (getEdgeInnerProductDeriv P (sigma P) u) ->
  fst (MeSigmaDeriv (with_storeInnerProduct true P) u v adjoint c) =
  fst (MeSigmaDeriv (with_storeInnerProduct false P) u v adjoint c).
Proof.
  intros Hc HG. unfold MeSigmaDeriv, MeSigmaDerivMat.
  cbn [with_storeInnerProduct storeInnerProduct sigma etaDeriv mesh
       getEdgeInnerProductDeriv].
  rewrite Hc.
  destruct (Sp.matmul (Sp.sdiag (sigma P)) (etaDeriv P)) as [d|e];
    [|reflexivity].
  destruct (Sp.matmul _ d) as [M|e] eqn:HM.
  - destruct adjoint; cbn [fst].
    + apply (@chain_adjoint _ _ _ HG _ _ v HM).
    + apply (@chain_direct _ _ _ HG _ _ v HM).
  - destruct adjoint; cbn [fst].
    + destruct (@chain_adjoint_err _ _ _ HG _ v _ HM) as [-> H]. symmetry. exact H.
    + destruct (@chain_direct_err _ _ _ HG _ v _ HM) as [-> H]. symmetry. exact H.
Qed.

Lemma X17_MeSigmaDeriv_storage_transparent_witness :
  fst (MeSigmaDeriv (with_storeInnerProduct true (ToyPDE.pde false [5; 1]%Z))
         [2; 11]%Z [1; -1]%Z true empty_cache) =
  fst (MeSigmaDeriv (with_storeInnerProduct false (ToyPDE.pde false [5; 1]%Z))
         [2; 11]%Z [1; -1]%Z true empty_cache).
Proof.
  apply (@X17_MeSigmaDeriv_storage_transparent (ToyPDE.pde false [5; 1]%Z)
           [2; 11]%Z [1; -1]%Z true empty_cache).
  - reflexivity.
  - apply ToyPDE_row_scaled.
Defined.

(** X18 -- for [MfRhoIDeriv] the storage flag is an optimisation only,
    under the same condition on the face inner-product derivative: the
    same vector or the same error with and without [storeInnerProduct],
    on both paths. *)
Theorem X18_MfRhoIDeriv_storage_transparent (P : PDE) (u v : vec)
    (adjoint : bool) (c : DerivCache) :
  _MfRhoDerivMat c = None ->
  row_scaled u
    (getFaceInnerProductDeriv P (ones (mesh_nC (mesh P)))
       (ones (mesh_nF (mesh P))))
    (getFaceInnerProductDeriv P (rho P) u) ->
  fst (MfRhoIDeriv (with_storeInnerProduct true P) u v adjoint c) =
  fst (MfRhoIDeriv (with_storeInnerProduct false P) u v adjoint c).
Proof.
  intros Hc HG. unfold MfRhoIDeriv, MfRhoDerivMat.
  cbn [with_storeInnerProduct storeInnerProduct rho etaDeriv mesh MfRhoI
       getFaceInnerProductDeriv].
  destruct (Sp.pow2 (MfRhoI P)) as [sq|e]; [|reflexivity].
  cbv zeta. rewrite Hc.
  destruct (Sp.matmul (Sp.sdiag (rho P)) (etaDeriv P)) as [d|e];
    [|reflexivity].
  destruct (Sp.matmul _ d) as [M|e] eqn:HM.
  - destruct adjoint; cbn [fst].
    + destruct (Sp.matvec (Sp.T (Sp.neg sq)) v) as [x|e]; [|reflexivity].
      cbn [rbind]. apply (@chain_adjoint _ _ _ HG _ _ x HM).
    + rewrite <- !rbind_assoc. rewrite (@chain_direct _ _ _ HG _ _ v HM).
      reflexivity.
  - destruct adjoint; cbn [fst].
    + destruct (Sp.matvec (Sp.T (Sp.neg sq)) v) as [x|e'] eqn:Ex.
      * cbn [rbind].
        destruct (@chain_adjoint_err _ _ _ HG _ x _ HM) as [-> H]. symmetry. exact H.
      * cbn [rbind]. destruct (@chain_adjoint_err _ _ _ HG _ v _ HM) as [-> _].
        rewrite (matvec_err _ _ Ex). reflexivity.
    + rewrite <- rbind_assoc.
      destruct (@chain_direct_err _ _ _ HG _ v _ HM) as [-> H]. rewrite H.
      reflexivity.
Qed.

Lemma X18_MfRhoIDeriv_storage_transparent_witness :
  fst (MfRhoIDeriv (with_storeInnerProduct true (ToyPDE.pde false [5; 1]%Z))
         [2; 11]%Z [2; 3]%Z false empty_cache) =
  fst (MfRhoIDeriv (with_storeInnerProduct false (ToyPDE.pde false [5; 1]%Z))
         [2; 11]%Z [2; 3]%Z false empty_cache).
Proof.
  apply (@X18_MfRhoIDeriv_storage_transparent (ToyPDE.pde false [5; 1]%Z)
           [2; 11]%Z [2; 3]%Z false empty_cache).
  - reflexivity.
  - apply ToyPDE_row_scaled.
Defined.

(** X19 -- the derivative matrices are computed once.  After an access
    that returned [M], every later access returns [M] and leaves the
    cache alone, whatever conductivity, resistivity, map derivative and
    mesh the instance has by then; with [storeInnerProduct] the two
    derivative products therefore keep using the first matrix.  An access
    to one matrix never touches the other. *)
Theorem X19_derivative_matrices_memoised (P P' : PDE) (c c1 : DerivCache)
    (M : Sp.matrix) :
  (MeSigmaDerivMat P c = (Ok M, c1) ->
   MeSigmaDerivMat P' c1 = (Ok M, c1) /\
   _MfRhoDerivMat c1 = _MfRhoDerivMat c /\
   (storeInnerProduct P = true -> storeInnerProduct P' = true ->
    forall u v adjoint,
      MeSigmaDeriv P' u v adjoint c1 = MeSigmaDeriv P u v adjoint c1)) /\
  (MfRhoDerivMat P c = (Ok M, c1) ->
   MfRhoDerivMat P' c1 = (Ok M, c1) /\
   _MeSigmaDerivMat c1 = _MeSigmaDerivMat c /\
   (storeInnerProduct P = true -> storeInnerProduct P' = true ->
    MfRhoI P' = MfRhoI P ->
    forall u v adjoint,
      MfRhoIDeriv P' u v adjoint c1 = MfRhoIDeriv P u v adjoint c1)).
Proof.
  split.
  - intros Hrun.
    assert (Hc1 : _MeSigmaDerivMat c1 = Some M /\
                  _MfRhoDerivMat c1 = _MfRhoDerivMat c).
    { unfold MeSigmaDerivMat in Hrun.
      destruct (_MeSigmaDerivMat c) as [M0|] eqn:Hc.
      - inversion Hrun; subst. auto.
      - destruct (Sp.matmul (Sp.sdiag (sigma P)) (etaDeriv P)) as [d|e];
          [|discriminate].
        destruct (Sp.matmul _ d) as [M1|e]; [|discriminate].
        inversion Hrun; subst. auto. }
    destruct Hc1 as [Hc1 Hother].
    assert (Hget : forall Q, MeSigmaDerivMat Q c1 = (Ok M, c1)).
    { intros Q. unfold MeSigmaDerivMat. rewrite Hc1. reflexivity. }
    split; [apply Hget|]. split; [exact Hother|].
    intros Hs Hs' u v adjoint. unfold MeSigmaDeriv.
    rewrite Hs, Hs', !Hget. reflexivity.
  - intros Hrun.
    assert (Hc1 : _MfRhoDerivMat c1 = Some M /\
                  _MeSigmaDerivMat c1 = _MeSigmaDerivMat c).
    { unfold MfRhoDerivMat in Hrun.
      destruct (_MfRhoDerivMat c) as [M0|] eqn:Hc.
      - inversion Hrun; subst. auto.
      - destruct (Sp.matmul (Sp.sdiag (rho P)) (etaDeriv P)) as [d|e];
          [|discriminate].
        destruct (Sp.matmul _ d) as [M1|e]; [|discriminate].
        inversion Hrun; subst. auto. }
    destruct Hc1 as [Hc1 Hother].
    assert (Hget : forall Q, MfRhoDerivMat Q c1 = (Ok M, c1)).
    { intros Q. unfold MfRhoDerivMat. rewrite Hc1. reflexivity. }
    split; [apply Hget|]. split; [exact Hother|].
    intros Hs Hs' HI u v adjoint. unfold MfRhoIDeriv.
    rewrite Hs, Hs', HI, !Hget. reflexivity.
Qed.

Lemma X19_derivative_matrices_memoised_witness :
  MeSigmaDerivMat (ToyPDE.pde true [7; 7]%Z)
    (snd (MeSigmaDerivMat (ToyPDE.pde true [5; 1]%Z) empty_cache)) =
  (fst (MeSigmaDerivMat (ToyPDE.pde true [5; 1]%Z) empty_cache),
   snd (MeSigmaDerivMat (ToyPDE.pde true [5; 1]%Z) empty_cache)).
Proof.
  apply (proj1 (@X19_derivative_matrices_memoised
                  (ToyPDE.pde true [5; 1]%Z) (ToyPDE.pde true [7; 7]%Z)
                  empty_cache _ _)).
  reflexivity.
Defined.

(** X20 -- [fields] assembles and factorises the system exactly when
    neither a field nor a factorisation is present: one [getA] and one
    [Solver] call in that case, none otherwise, whatever the model that
    is passed and however the call ends.  A factorisation that is present
    is reused for a new model. *)
Theorem X20_fields_factorises_when_absent (E : Externals) (m : vec)
    (s : Simulation) :
  count is_factorize (trace (run_state (fields E m s))) =
  count is_factorize (trace s) +
  match _f s, Ainv s with None, None => 2 | _, _ => 0 end.
Proof.
  unfold run_state, fields, depth. rewrite fields_run. cbv zeta.
  fold (before_forward E s).
  destruct (before_forward_keeps E s) as (_ & _ & _ & _ & fo & Hfo).
  rewrite Hfo, forward_run.
  rewrite <- (before_forward_factorize_count E s).
  destruct (Jvec_ E 6 m m (Some fo) (log [CallForward] (before_forward E s)))
    as [[p|e] s3] eqn:HJ;
    destruct (@Jvec_Some_post E is_factorize _ _ _ _ _ _ _
                silent_factorize HJ) as (Hc & _);
    rewrite log_count in Hc; cbn [snd trace with_pred]; rewrite Hc;
    unfold count at 2; simpl; lia.
Qed.

(** X21 -- the sizes of the two products.  On a ready instance in
    adjoint-state mode, or with a stored matrix in explicit-storage mode,
    [Jvec] returns one value per datum of the survey and [Jtvec] one
    value per model cell. *)
Theorem X21_product_sizes (E : Externals) (nC nU : nat) (nP : Rx -> nat)
    (m v w : vec) (sg : Z) (s : Simulation) :
  Contracts E nC nU nP ->
  has_receiver (survey E) ->
  length m = nC -> length v = nC -> length w = survey_nD (survey E) ->
  sign s = Some sg ->
  (storeJ s = false /\ ready E s) \/
  (storeJ s = true /\
   exists J, _Jmatrix s = Some J /\ stored_J J (survey_nD (survey E)) nC) ->
  exists Jv Jtv,
    run_result (Jvec E m v None s) = Ok Jv /\
    length Jv = survey_nD (survey E) /\
    run_result (Jtvec E m w None s) = Ok Jtv /\
    length Jtv = nC.
Proof.
  intros HC Hr Hm Hv Hw Hsg [[Hs Hready]|[Hs (J & HJ & HJs)]].
  - destruct (@Jvec_adjoint_result E nC nU nP HC Hr m Hm sg s Hs Hsg Hready)
      as (cols & s1 & Hlen & Hall).
    destruct (Hall v Hv) as (Jv & HJv & _ & Rv).
    destruct (@loops_adjoint_nD E nC nU nP HC (receivers s1) cols m Hm Hlen
                false v w Hv Hw)
      as (Jv' & _ & _ & _ & _ & HJv' & _ & _ & Hc & _).
    assert (Jv' = Jv) by congruence. subst Jv'.
    destruct (@Jtvec_adjoint_result E nC nU nP HC Hr m Hm sg s Hs Hsg Hready)
      as (cols2 & s2 & Hlen2 & Hall2).
    destruct (Hall2 w Hw) as (d & out & acc & _ & _ & Hacc & Rw).
    exists (scale sg (concat Jv)), (scale sg acc).
    unfold run_result. rewrite Rv, Rw. cbn [fst].
    rewrite !length_scale. repeat split; auto.
  - exists (scale sg (map (fun c => dot c v) (buf_cols (base J)))),
           (scale sg (lincomb nC (buf_cols (base J)) w)).
    unfold run_result, Jvec, depth.
    rewrite (@Jvec_stored_run E 6 m v None J s Hs HJ).
    rewrite (@Jtvec_stored_run E m w None J s Hs HJ). cbn [fst].
    rewrite (@dot2_stored J _ nC v HJs Hv), (@dot2_T_stored J _ nC w HJs Hw).
    cbn [rbind]. rewrite Hsg. cbn [sign_mul].
    rewrite !length_scale, length_map.
    destruct HJs as (_ & _ & HnD & HF).
    rewrite (@length_lincomb nC _ w HF). repeat split; auto.
Qed.

Lemma X21_product_sizes_witness :
  exists Jv Jtv,
    run_result (Jvec (Toy.env true) Toy.m0 [1; 2]%Z None
                  (Problem3D_N_init false false "volt")) = Ok Jv /\
    length Jv = survey_nD (survey (Toy.env true)) /\
    run_result (Jtvec (Toy.env true) Toy.m0 [1; 2; 3]%Z None
                  (Problem3D_N_init false false "volt")) = Ok Jtv /\
    length Jtv = 2.
Proof.
  apply (@X21_product_sizes (Toy.env true) 2 2 (fun _ => 2) Toy.m0
           [1; 2]%Z [1; 2; 3]%Z (-1)%Z (Problem3D_N_init false false "volt")).
  - apply Toy_contracts.
  - apply Toy_has_receiver.
  - reflexivity.
  - reflexivity.
  - reflexivity.
  - reflexivity.
  - left. split; [reflexivity|]. simpl. left. reflexivity.
Defined.

(** X22 -- the matrix is materialised in explicit-storage mode only.
    With [storeJ] off, [fields], [dpred], [Jvec] and [Jtvec] leave
    [_Jmatrix] as it is, however they end; with [storeJ] on, a [Jvec] or
    [Jtvec] that returns leaves a matrix stored. *)
Theorem X22_matrix_only_in_storage_mode (E : Externals) (m v w : vec)
    (f : option FieldObj) (s : Simulation) :
  (storeJ s = false ->
   _Jmatrix (run_state (fields E m s)) = _Jmatrix s /\
   _Jmatrix (run_state (dpred E m f s)) = _Jmatrix s /\
   _Jmatrix (run_state (Jvec E m v f s)) = _Jmatrix s /\
   _Jmatrix (run_state (Jtvec E m w f s)) = _Jmatrix s) /\
  (storeJ s = true ->
   (forall x s', Jvec E m v f s = (Ok x, s') -> _Jmatrix s' <> None) /\
   (forall x s', Jtvec E m w f s = (Ok x, s') -> _Jmatrix s' <> None)).
Proof.
  split.
  - intros Hs.
    assert (F : forall n s0 r s',
               storeJ s0 = false ->
               fields_ E (S (S (S n))) m s0 = (r, s') ->
               _Jmatrix s' = _Jmatrix s0 /\ storeJ s' = false).
    { intros n s0 r s' H0 Hrun.
      exact (fields_Jmatrix_adjoint E n m s0 H0 Hrun). }
    unfold run_state. split; [|split; [|split]].
    + unfold fields, depth.
      destruct (fields_ E 8 m s) as [r s'] eqn:Hrun. cbn [snd].
      apply (F 5 s r s' Hs Hrun).
    + unfold dpred. destruct f as [fo|].
      * unfold bind, ret, gets. reflexivity.
      * unfold bind, gets, fields, depth.
        destruct (fields_ E 8 m s) as [[r|e] s'] eqn:Hrun; cbn [snd];
          apply (F 5 s _ s' Hs Hrun).
    + unfold Jvec, depth. destruct f as [fo|].
      * rewrite Jvec_adjoint_run by exact Hs. reflexivity.
      * rewrite Jvec_adjoint_None_run by exact Hs.
        destruct (fields_ E 7 m (with_model (Some m) s)) as [[r|e] s']
          eqn:Hrun; cbn [snd];
          apply (F 4 (with_model (Some m) s) _ s' Hs Hrun).
    + destruct f as [fo|].
      * unfold Jtvec. unfold bind at 1, gets at 1. rewrite Hs.
        unfold bind at 1. rewrite set_model_run. unfold bind at 1.
        unfold ret.
        destruct (Jtvec_frame E m (Some w) (Some fo) (with_model (Some m) s))
          as (out & _ & [H|H]); cbn [JtvecResult] in H; rewrite H;
          reflexivity.
      * rewrite Jtvec_adjoint_None_run by exact Hs. unfold fields, depth.
        destruct (fields_ E 8 m (with_model (Some m) s)) as [[r|e] s']
          eqn:Hrun; cbn [snd].
        -- destruct (F 5 (with_model (Some m) s) _ s' Hs Hrun) as [HJ _].
           destruct (Jtvec_frame E m (Some w) r s')
             as (out & _ & [H|H]); cbn [JtvecResult] in H; rewrite H;
             exact HJ.
        -- apply (F 5 (with_model (Some m) s) _ s' Hs Hrun).
  - intros Hs. split.
    + intros x s' Hrun. unfold Jvec, depth in Hrun.
      rewrite Jvec_stored_mode_run in Hrun by exact Hs.
      destruct (getJ_ E 7 m f (with_model (Some m) s)) as [[J|e] s3] eqn:HJ;
        [|discriminate].
      destruct (getJ_post E _ _ _ _ HJ) as [H1 _].
      inversion Hrun; subst. congruence.
    + intros x s' Hrun. unfold Jtvec in Hrun.
      unfold bind at 1, gets at 1 in Hrun. rewrite Hs in Hrun.
      unfold bind at 1 in Hrun. unfold getJ, depth in Hrun.
      destruct (getJ_ E 8 m f s) as [[J|e] s3] eqn:HJ; [|discriminate].
      destruct (getJ_post E _ _ _ _ HJ) as [H1 _].
      unfold bind, lift, gets in Hrun.
      destruct (dot2 (T J) w) as [Jtv|e]; [|discriminate].
      destruct (sign_mul (sign s3) Jtv); inversion Hrun; subst; congruence.
Qed.

Lemma X22_matrix_only_in_storage_mode_witness :
  _Jmatrix (run_state (fields (Toy.env true) Toy.m0
                         (Problem3D_N_init false false "volt"))) = None /\
  _Jmatrix (run_state (dpred (Toy.env true) Toy.m0 None
                         (Problem3D_N_init false false "volt"))) = None /\
  _Jmatrix (run_state (Jvec (Toy.env true) Toy.m0 [1; 2]%Z None
                         (Problem3D_N_init false false "volt"))) = None /\
  _Jmatrix (run_state (Jtvec (Toy.env true) Toy.m0 [1; 2; 3]%Z None
                         (Problem3D_N_init false false "volt"))) = None.
Proof.
  apply (proj1 (@X22_matrix_only_in_storage_mode (Toy.env true) Toy.m0
                  [1; 2]%Z [1; 2; 3]%Z None
                  (Problem3D_N_init false false "volt"))).
  reflexivity.
Defined.

(** X23 -- the sign is a final factor.  In adjoint-state mode the two
    products are a fixed vector multiplied by [sign]: instances that
    differ in nothing but the sign, as the two variants do, return
    products that differ by that factor only. *)
Theorem X23_sign_is_a_final_factor (E : Externals) (nC nU : nat)
    (nP : Rx -> nat) (m v w : vec) (s : Simulation) :
  Contracts E nC nU nP ->
  has_receiver (survey E) ->
  length m = nC -> length v = nC -> length w = survey_nD (survey E) ->
  storeJ s = false -> ready E s ->
  exists Jv Jtv,
    forall sg,
      run_result (Jvec E m v None (with_sign (Some sg) s)) =
        Ok (scale sg Jv) /\
      run_result (Jtvec E m w None (with_sign (Some sg) s)) =
        Ok (scale sg Jtv).
Proof.
  intros HC Hr Hm Hv Hw Hs Hready.
  assert (Hready0 : ready E (with_model (Some m) s)) by exact Hready.
  destruct (@before_forward_ready E _ (rhs_cols HC) Hready0)
    as (cols & Hf0 & Hlen & _).
  destruct (@loops_adjoint_nD E nC nU nP HC
              (receivers (before_forward E (with_model (Some m) s)))
              cols m Hm Hlen false v w Hv Hw)
    as (Jv & d & out & acc & Hd & HJv & HJt & HlJ & _).
  exists (concat Jv), acc. intros sg.
  assert (Key : forall n r s1,
             fields_ E (S (S (S n))) m
               (with_model (Some m) (with_sign (Some sg) s)) = (r, s1) ->
             _f s1 = Some (Fields cols) /\
             receivers s1 =
               receivers (before_forward E (with_model (Some m) s))).
  { intros n r s1 Hrun.
    destruct (@fields_adjoint_f E n m
                (with_model (Some m) (with_sign (Some sg) s)) s1 r Hs Hrun)
      as [A B].
    change (with_model (Some m) (with_sign (Some sg) s))
      with (with_sign (Some sg) (with_model (Some m) s)) in A, B.
    destruct (before_forward_with_sign E (Some sg) (with_model (Some m) s))
      as [C D].
    rewrite C in A. rewrite D in B. split; congruence. }
  assert (Hready1 : ready E (with_model (Some m) (with_sign (Some sg) s)))
    by exact Hready.
  split.
  - unfold run_result, Jvec, depth.
    rewrite Jvec_adjoint_None_run by exact Hs.
    destruct (@fields_adjoint_run E nC nU nP HC 4 m sg
                (with_model (Some m) (with_sign (Some sg) s)))
      as (cols' & s1 & Hf1 & Hfs1 & Hlen' & HA1 & Hs1 & Hsg1 & Hm1 & _);
      auto.
    destruct (Key 4 _ _ Hf1) as [K1 K2].
    assert (cols' = cols) by congruence. subst cols'.
    rewrite Hf1, HA1, Hm1, K2, HJv. cbn [rbind fst].
    rewrite (@hstack_ok E Jv Hr HlJ). cbn [rbind]. rewrite Hsg1.
    reflexivity.
  - unfold run_result. rewrite Jtvec_adjoint_None_run by exact Hs.
    unfold fields, depth.
    destruct (@fields_adjoint_run E nC nU nP HC 5 m sg
                (with_model (Some m) (with_sign (Some sg) s)))
      as (cols' & s1 & Hf1 & Hfs1 & Hlen' & HA1 & Hs1 & Hsg1 & Hm1 & _);
      auto.
    destruct (Key 5 _ _ Hf1) as [K1 K2].
    assert (cols' = cols) by congruence. subst cols'.
    rewrite Hf1. rewrite Jtvec_dir_run, Hd.
    rewrite HA1, Hm1, K2, Hs1, HJt. cbn [rbind fst]. rewrite Hsg1.
    reflexivity.
Qed.

Lemma X23_sign_is_a_final_factor_witness :
  exists Jv Jtv,
    forall sg,
      run_result (Jvec (Toy.env true) Toy.m0 [1; 2]%Z None
                    (with_sign (Some sg)
                       (Problem3D_CC_init false false "volt"))) =
        Ok (scale sg Jv) /\
      run_result (Jtvec (Toy.env true) Toy.m0 [1; 2; 3]%Z None
                    (with_sign (Some sg)
                       (Problem3D_CC_init false false "volt"))) =
        Ok (scale sg Jtv).
Proof.
  apply (@X23_sign_is_a_final_factor (Toy.env true) 2 2 (fun _ => 2) Toy.m0
           [1; 2]%Z [1; 2; 3]%Z (Problem3D_CC_init false false "volt")).
  - apply Toy_contracts.
  - apply Toy_has_receiver.
  - reflexivity.
  - reflexivity.
  - reflexivity.
  - reflexivity.
  - simpl. left. reflexivity.
Defined.

(** X24 -- a survey without receivers cannot be simulated in
    adjoint-state mode: the list of data blocks is empty, [np.hstack]
    refuses it, and [fields], [dpred] and [Jvec] raise [ValueError]
    before the sign is applied. *)
Theorem X24_no_receiver_raises (E : Externals) (nC nU : nat)
    (nP : Rx -> nat) (m v : vec) (s : Simulation) :
  Contracts E nC nU nP ->
  concat (map rxList (srcList (survey E))) = [] ->
  length m = nC -> length v = nC ->
  storeJ s = false -> ready E s ->
  run_result (fields E m s) = Err ValueError /\
  run_result (dpred E m None s) = Err ValueError /\
  run_result (Jvec E m v None s) = Err ValueError.
Proof.
  intros HC Hno Hm Hv Hs Hready.
  assert (F : forall n s0,
             storeJ s0 = false -> ready E s0 ->
             fst (fields_ E (S (S (S n))) m s0) = Err ValueError).
  { intros n s0 Hs0 Hr0. rewrite fields_run. cbv zeta.
    fold (before_forward E s0).
    destruct (@before_forward_ready E s0 (rhs_cols HC) Hr0)
      as (cols & Hf0 & Hlen & HA & _).
    destruct (before_forward_keeps E s0) as (B1 & _).
    rewrite Hf0, forward_run.
    rewrite Jvec_adjoint_run by (cbn [storeJ log with_trace]; congruence).
    cbn [Ainv receivers log with_trace]. rewrite HA.
    destruct (@Jvec_srcs_ok E nC nU nP HC
                (receivers (before_forward E s0)) cols m m Hm Hm Hlen)
      as (Jv & HJv & HlJ).
    rewrite HJv. rewrite Hno in HlJ. destruct Jv; [|discriminate].
    reflexivity. }
  unfold run_result. split; [|split].
  - apply (F 5 s Hs Hready).
  - unfold dpred, bind, gets, fields, depth.
    pose proof (F 5 s Hs Hready) as H.
    destruct (fields_ E 8 m s) as [[f'|e] s2]; cbn [fst] in H;
      [discriminate|]. cbn [fst]. congruence.
  - unfold Jvec, depth. rewrite Jvec_adjoint_None_run by exact Hs.
    pose proof (F 4 (with_model (Some m) s) Hs Hready) as H.
    destruct (fields_ E 7 m (with_model (Some m) s)) as [[f'|e] s2];
      cbn [fst] in H; [discriminate|]. cbn [fst]. congruence.
Qed.

Lemma X24_no_receiver_raises_witness :
  run_result (fields bare_env Toy.m0 (Problem3D_CC_init false false "volt"))
  = Err ValueError /\
  run_result (dpred bare_env Toy.m0 None
                (Problem3D_CC_init false false "volt")) = Err ValueError /\
  run_result (Jvec bare_env Toy.m0 [1; 2]%Z None
                (Problem3D_CC_init false false "volt")) = Err ValueError.
Proof.
  apply (@X24_no_receiver_raises bare_env 2 2 (fun _ => 2) Toy.m0 [1; 2]%Z
           (Problem3D_CC_init false false "volt")).
  - apply bare_contracts.
  - reflexivity.
  - reflexivity.
  - reflexivity.
  - reflexivity.
  - simpl. left. reflexivity.
Defined.

(** X25 -- the layout of the assembled matrix.  With derivatives handed
    back as arrays, on an instance whose model is [m] and whose
    factorisation is live, [_Jtvec(m0, v=None, f)] returns an [(nC, nD)]
    buffer, whatever [m0] is.  For every source and every receiver, the
    block of [rx.nD] columns that starts at the running offset, the
    number of observations of all receivers before it, holds the negated
    adjoint derivative of the system operator at [m] in the directions
    [Ainv * P^T]; no right-hand-side derivative enters. *)
Theorem X25_full_matrix_blocks (E : Externals) (nC nU : nat)
    (m0 m : vec) (cols : list vec) (s : Simulation) :
  AssemblyContracts E nC nU ->
  length m = nC ->
  model s = Some m ->
  Ainv s = factorized E ->
  length cols = survey_nSrc (survey E) ->
  exists out B,
    _Jtvec E m0 None (Some (Fields cols)) s = (Ok B, log out s) /\
    transposed B = false /\
    shape B = (nC, survey_nD (survey E)) /\
    forall i j src u_src rx,
      nth_error (srcList (survey E)) i = Some src ->
      nth_error cols i = Some u_src ->
      nth_error (rxList src) j = Some rx ->
      firstn (rx_nD rx)
        (skipn (srcs_nD (firstn i (srcList (survey E)))
                + rxs_nD (firstn j (rxList src)))
           (buf_cols (base B)))
      = map (fun k =>
               neg (getADeriv E m u_src
                      (Solver E (getA E)
                         (rx_getP E rx (rx_lookup (receivers s) rx) k))
                      true))
          (seq 0 (rx_nD rx)).
Proof.
  intros HAsm Hm Hmdl HA Hcols.
  destruct (@Jtvec_full_ok E nC nU HAsm m0 m cols s Hm Hmdl HA Hcols)
    as [out Hout].
  eexists. eexists. split; [exact Hout|].
  split; [reflexivity|]. split.
  - unfold shape. cbn [transposed base buf_rows buf_cols].
    rewrite (length_Jt_columns E (receivers s) m Hm).
    + reflexivity.
    + unfold survey_nSrc in Hcols. lia.
  - intros i j src u_src rx Hi Hu Hj. cbn [base buf_cols].
    apply (@Jt_columns_block_at E m (receivers s) (srcList (survey E)) cols
             i j src u_src rx Hi Hu Hj).
Qed.

Lemma X25_full_matrix_blocks_witness :
  exists out B,
    _Jtvec (Toy.plain true) Toy.m1 None (Some (Fields [[1; -1]]%Z))
      (with_model (Some Toy.m0) (primed_instance true))
    = (Ok B, log out (with_model (Some Toy.m0) (primed_instance true))) /\
    transposed B = false /\
    shape B = (2, 3) /\
    forall i j src u_src rx,
      nth_error [Toy.src0] i = Some src ->
      nth_error [[1; -1]]%Z i = Some u_src ->
      nth_error (rxList src) j = Some rx ->
      firstn (rx_nD rx)
        (skipn (srcs_nD (firstn i [Toy.src0]) + rxs_nD (firstn j (rxList src)))
           (buf_cols (base B)))
      = map (fun k =>
               neg (getADeriv (Toy.plain true) Toy.m0 u_src
                      (Solver (Toy.plain true) (getA (Toy.plain true))
                         (rx_getP (Toy.plain true) rx
                            (rx_lookup
                               (receivers
                                  (with_model (Some Toy.m0)
                                     (primed_instance true))) rx) k))
                      true))
          (seq 0 (rx_nD rx)).
Proof.
  apply (@X25_full_matrix_blocks (Toy.plain true) 2 2 Toy.m1 Toy.m0
           [[1; -1]]%Z (with_model (Some Toy.m0) (primed_instance true))
           (@Toy_assembly true)).
  - reflexivity.
  - reflexivity.
  - reflexivity.
  - reflexivity.
Defined.
